(** * VYB feed ranking and engagement pipeline

    A shallow embedding of the backend's score engine
    ([jobs/engagementScoring.js]), cache service ([utils/cache.js]),
    post controller (the second part of [controllers/reportController.js]),
    post model ([models/Post.js]) and job scheduler ([jobs/scheduler.js]).

    Conventions.
    - Mongo [ObjectId]s are strings ([toString] is the identity).
    - Integer counters that are only ever changed by [$inc] of [1] or [-1]
      are in [Z]; the other stored numbers are exact rationals ([Q]).
      The time decay needs a real power, so [applyTimeDecay] lives in [R];
      JavaScript's floating point rounding is not modelled.
    - [Date.now()] is an input: every function that reads the clock takes
      the reading (milliseconds since the epoch) as an argument.
    - The document store does not fail, except where the code handles
      the failure in a way a claim is about: [Notification.insertMany] in
      the publisher and [Post.bulkWrite] in the scoring job have an
      outcome given by the environment.
    - Redis is an external service whose commands answer or throw; what
      it answers is described by [isRedis].  The server's calendar, which
      [setDate] consults, is an input of the scoring job. *)

From stdpp Require Import base option list gmap strings pretty sorting.
From Stdlib Require Import ZArith QArith Qreals Reals Lqa Lra Lia.

Open Scope Z_scope.

(** ** Data model ([models/Post.js], [models/EngagementEvent.js]) *)

Definition ObjectId := string.

Inductive MediaType := image | video.

Inductive Visibility := public | followers_only | private.

Inductive Status := processing | ready | failed | scheduled | flagged | draft.

Inductive EventType :=
  | ev_view | ev_like | ev_unlike | ev_comment | ev_share | ev_save
  | ev_unsave | ev_video_25 | ev_video_50 | ev_video_75 | ev_video_complete.

#[global] Instance MediaType_eq_dec : EqDecision MediaType.
Proof. solve_decision. Defined.
#[global] Instance Visibility_eq_dec : EqDecision Visibility.
Proof. solve_decision. Defined.
#[global] Instance Status_eq_dec : EqDecision Status.
Proof. solve_decision. Defined.

(** One entry of the unified [media] array.  Optional schema paths are
    [option]s: [None] is JavaScript's [undefined]. *)
Record MediaItem := {
  url : string;
  type : MediaType;
  publicId : option string;
  width : option Q;
  height : option Q;
  duration : option Q;
  thumbnail : option string;
  order : Z
}.

Record Post := {
  _id : ObjectId;
  user : ObjectId;
  media : list MediaItem;
  visibility : Visibility;
  status : Status;
  scheduledFor : option Z;
  isDeleted : bool;
  isReel : bool;
  likeCount : Z;
  commentCount : Z;
  shareCount : Z;
  saveCount : Z;
  viewCount : Z;
  engagementScore : Q;
  watchTimeSum : Q;
  completionSum : Q;
  likes : list ObjectId;
  createdAt : Z
}.

(** ** Score engine ([jobs/engagementScoring.js]) *)

Module WEIGHTS.
Definition like : Q := 1.0.
Definition comment : Q := 2.5.
Definition share : Q := 4.0.
Definition save : Q := 3.0.
Definition view : Q := 0.1.
Definition completion : Q := 5.0.
End WEIGHTS.

Definition DECAY_OFFSET : R := 2.
Definition DECAY_EXPONENT : R := 3 / 2.

(** [x || 0] on a number: the falsy number [0] is replaced by [0]. *)
Definition or0 (x : Z) : Z := if x =? 0 then 0 else x.

(** [x > y] on stored rationals. *)
Definition Qgtb (x y : Q) : bool := negb (Qle_bool x y).

(** The reel bonus of [calculateRawScore]: the body of its [if], or
    nothing. *)
Definition completionTerm (post : Post) : Q :=
  if isReel post && (0 <? viewCount post) && Qgtb (completionSum post) 0
  then
    let avgCompletion := (completionSum post / inject_Z (viewCount post))%Q in
    (avgCompletion * WEIGHTS.completion)%Q
  else 0%Q.

Definition calculateRawScore (post : Post) : Q :=
  let score := 0%Q in
  let score := (score + inject_Z (or0 (likeCount post)) * WEIGHTS.like)%Q in
  let score := (score + inject_Z (or0 (commentCount post)) * WEIGHTS.comment)%Q in
  let score := (score + inject_Z (or0 (shareCount post)) * WEIGHTS.share)%Q in
  let score := (score + inject_Z (or0 (saveCount post)) * WEIGHTS.save)%Q in
  let score := (score + inject_Z (or0 (viewCount post)) * WEIGHTS.view)%Q in
  (score + completionTerm post)%Q.

(** [hoursSincePost] of [applyTimeDecay], with [Date.now()] passed in. *)
Definition hoursSincePost (now createdAt : Z) : R :=
  (IZR (now - createdAt) / (1000 * 60 * 60))%R.

(** [Math.pow] on a positive base is the real power [Rpower].  The base
    [hoursSincePost + 2] is positive unless the post is dated two hours or
    more ahead of the clock; there [Math.pow] yields [NaN] or [0] and the
    quotient is not a finite number, which this definition does not
    render: it is the code's decay for [createdAt <= now]. *)
Definition applyTimeDecay (now : Z) (rawScore : R) (createdAt : Z) : R :=
  let decayFactor :=
    Rpower (hoursSincePost now createdAt + DECAY_OFFSET) DECAY_EXPONENT in
  (rawScore / decayFactor)%R.

(** [Math.round]: the nearest integer, ties towards positive infinity. *)
Definition Math_round (x : R) : Z := Int_part (x + / 2).

(** Lines 85-86 of [computeEngagementScores]: the decayed score of one
    post at clock reading [now]. *)
Definition decayedScore (now : Z) (post : Post) : R :=
  let rawScore := calculateRawScore post in
  applyTimeDecay now (Q2R rawScore) (createdAt post).

(** The data model's invariant on the counters of a post. *)
Definition nonNegativeCounters (post : Post) : Prop :=
  0 <= likeCount post /\ 0 <= commentCount post /\ 0 <= shareCount post /\
  0 <= saveCount post /\ 0 <= viewCount post /\
  (0 <= watchTimeSum post)%Q /\ (0 <= completionSum post)%Q.

Definition blank_post : Post :=
  {| _id := "p0"; user := "u0"; media := []; visibility := public;
     status := ready; scheduledFor := None; isDeleted := false;
     isReel := false; likeCount := 0; commentCount := 0; shareCount := 0;
     saveCount := 0; viewCount := 0; engagementScore := 0;
     watchTimeSum := 0; completionSum := 0; likes := []; createdAt := 0 |}.

(** The post of the spec's scoring scenario. *)
Definition scenario_post : Post :=
  {| _id := "p1"; user := "u1"; media := []; visibility := public;
     status := ready; scheduledFor := None; isDeleted := false;
     isReel := false; likeCount := 10; commentCount := 2; shareCount := 0;
     saveCount := 1; viewCount := 100; engagementScore := 0;
     watchTimeSum := 0; completionSum := 0; likes := []; createdAt := 0 |}.

(** A reel that was watched to the end twice out of four views. *)
Definition reel_post : Post :=
  {| _id := "p2"; user := "u1"; media := []; visibility := public;
     status := ready; scheduledFor := None; isDeleted := false;
     isReel := true; likeCount := 3; commentCount := 0; shareCount := 1;
     saveCount := 0; viewCount := 4; engagementScore := 0;
     watchTimeSum := 30; completionSum := 2; likes := []; createdAt := 0 |}.

(** The same reel after [trackWatch] was sent a [completionPercent] of
    [-4]: [$inc] has taken [completionSum] from [2] to [-2]. *)
Definition negative_reel : Post :=
  {| _id := "p2"; user := "u1"; media := []; visibility := public;
     status := ready; scheduledFor := None; isDeleted := false;
     isReel := true; likeCount := 3; commentCount := 0; shareCount := 1;
     saveCount := 0; viewCount := 4; engagementScore := 0;
     watchTimeSum := 30; completionSum := -2; likes := []; createdAt := 0 |}.

(** ** Field updates on a stored post *)

Definition set_engagementScore (v : Q) (p : Post) : Post :=
  {| _id := _id p; user := user p; media := media p;
     visibility := visibility p; status := status p;
     scheduledFor := scheduledFor p; isDeleted := isDeleted p;
     isReel := isReel p; likeCount := likeCount p;
     commentCount := commentCount p; shareCount := shareCount p;
     saveCount := saveCount p; viewCount := viewCount p;
     engagementScore := v; watchTimeSum := watchTimeSum p;
     completionSum := completionSum p; likes := likes p;
     createdAt := createdAt p |}.

Definition set_status (v : Status) (p : Post) : Post :=
  {| _id := _id p; user := user p; media := media p;
     visibility := visibility p; status := v;
     scheduledFor := scheduledFor p; isDeleted := isDeleted p;
     isReel := isReel p; likeCount := likeCount p;
     commentCount := commentCount p; shareCount := shareCount p;
     saveCount := saveCount p; viewCount := viewCount p;
     engagementScore := engagementScore p; watchTimeSum := watchTimeSum p;
     completionSum := completionSum p; likes := likes p;
     createdAt := createdAt p |}.

Definition set_isReel (v : bool) (p : Post) : Post :=
  {| _id := _id p; user := user p; media := media p;
     visibility := visibility p; status := status p;
     scheduledFor := scheduledFor p; isDeleted := isDeleted p;
     isReel := v; likeCount := likeCount p;
     commentCount := commentCount p; shareCount := shareCount p;
     saveCount := saveCount p; viewCount := viewCount p;
     engagementScore := engagementScore p; watchTimeSum := watchTimeSum p;
     completionSum := completionSum p; likes := likes p;
     createdAt := createdAt p |}.

Definition set_likes (v : list ObjectId) (p : Post) : Post :=
  {| _id := _id p; user := user p; media := media p;
     visibility := visibility p; status := status p;
     scheduledFor := scheduledFor p; isDeleted := isDeleted p;
     isReel := isReel p; likeCount := likeCount p;
     commentCount := commentCount p; shareCount := shareCount p;
     saveCount := saveCount p; viewCount := viewCount p;
     engagementScore := engagementScore p; watchTimeSum := watchTimeSum p;
     completionSum := completionSum p; likes := v;
     createdAt := createdAt p |}.

Definition set_likeCount (v : Z) (p : Post) : Post :=
  {| _id := _id p; user := user p; media := media p;
     visibility := visibility p; status := status p;
     scheduledFor := scheduledFor p; isDeleted := isDeleted p;
     isReel := isReel p; likeCount := v;
     commentCount := commentCount p; shareCount := shareCount p;
     saveCount := saveCount p; viewCount := viewCount p;
     engagementScore := engagementScore p; watchTimeSum := watchTimeSum p;
     completionSum := completionSum p; likes := likes p;
     createdAt := createdAt p |}.

(** ** The posts collection *)

(** [findById]: the first document with the given [_id]. *)
Fixpoint findById (id : ObjectId) (docs : list Post) : option Post :=
  match docs with
  | [] => None
  | p :: rest => if decide (_id p = id) then Some p else findById id rest
  end.

(** An update of the one document selected by [{ _id: id }]. *)
Fixpoint updateOne (id : ObjectId) (f : Post -> Post) (docs : list Post)
  : list Post :=
  match docs with
  | [] => []
  | p :: rest =>
      if decide (_id p = id) then f p :: rest else p :: updateOne id f rest
  end.

(** ** The scoring batch job ([computeEngagementScores]) *)

(** [{ updateOne: { filter: { _id }, update: { $set: { engagementScore } } } }] *)
Record BulkOp := { filter_id : ObjectId; set_value : Q }.

Definition bulkWrite (ops : list BulkOp) (docs : list Post) : list Post :=
  foldl (fun acc op => updateOne (filter_id op) (set_engagementScore (set_value op)) acc)
        docs ops.

Record Options := { batchSize : nat; maxAge : Z; verbose : bool }.

Definition defaultOptions : Options :=
  {| batchSize := 500; maxAge := 30; verbose := false |}.

Definition msPerDay : Z := 24 * 60 * 60 * 1000.

(** [cutoffDate]: [setDate(getDate() - maxAge)] steps back whole calendar
    days in the server's time zone.  Which instant that is depends on the
    zone's clock changes, so the calendar is an input like the clock:
    [daysBefore now days] is the instant the call yields at reading
    [now]. *)
Definition cutoffDate (daysBefore : Z -> Z -> Z) (now maxAge : Z) : Z :=
  daysBefore now maxAge.

(** The calendar of a server on UTC: every day has 24 hours. *)
Definition utcDaysBefore (now days : Z) : Z := now - days * msPerDay.

(** The query of the job's cursor. *)
Definition scoringQuery (cutoff : Z) (p : Post) : bool :=
  negb (isDeleted p) && bool_decide (status p = ready) && (cutoff <=? createdAt p).

(** The value the job writes for one post:
    [Math.round(engagementScore * 100) / 100]. *)
Definition storedScore (now : Z) (post : Post) : Q :=
  let engagementScore := decayedScore now post in
  (inject_Z (Math_round (engagementScore * 100)) / 100)%Q.

(** What a call of [Post.bulkWrite] does is given by the environment: the
    batch goes through, or the call throws after the first [n] operations
    of the batch have been applied (the writes are ordered; a batch the
    store's casts reject, such as one with a [NaN] score, throws with
    nothing applied). *)
Inductive WriteOutcome := Written | ThrewAfter (n : nat).

(** The mutable locals of the job together with the collection it writes. *)
Record JobRun := {
  bulkOps : list BulkOp;
  processed : nat;
  errors : nat;
  collection : list Post
}.

(** One iteration of [for await (const post of cursor)]; [clock post] is
    what [Date.now()] reads when [applyTimeDecay] is called for the post.
    When [Post.bulkWrite] throws, the per-post [catch] counts an error;
    the batch has not been emptied and is sent again with the next
    post. *)
Definition scoreOne (writes : list BulkOp -> WriteOutcome) (batch : nat)
    (clock : Post -> Z) (run : JobRun) (post : Post) : JobRun :=
  let ops := bulkOps run ++
             [{| filter_id := _id post; set_value := storedScore (clock post) post |}] in
  if (batch <=? length ops)%nat then
    match writes ops with
    | Written =>
        {| bulkOps := []; processed := processed run + length ops;
           errors := errors run; collection := bulkWrite ops (collection run) |}
    | ThrewAfter n =>
        {| bulkOps := ops; processed := processed run;
           errors := S (errors run);
           collection := bulkWrite (take n ops) (collection run) |}
    end
  else
    {| bulkOps := ops; processed := processed run;
       errors := errors run; collection := collection run |}.

(** How the job ends: with its report, or by rethrowing what the last
    [Post.bulkWrite] threw ("Fatal error"), the collection being left as
    the writes so far have made it. *)
Inductive JobResult :=
  | Completed (run : JobRun)
  | Fatal (written : list Post).

(** "Process remaining". *)
Definition flushRemaining (writes : list BulkOp -> WriteOutcome) (run : JobRun)
  : JobResult :=
  match bulkOps run with
  | [] => Completed run
  | ops =>
      match writes ops with
      | Written =>
          Completed
            {| bulkOps := ops; processed := processed run + length ops;
               errors := errors run; collection := bulkWrite ops (collection run) |}
      | ThrewAfter n => Fatal (bulkWrite (take n ops) (collection run))
      end
  end.

(** [now] is the reading of [new Date()] that the cutoff starts from. *)
Definition computeEngagementScores (writes : list BulkOp -> WriteOutcome)
    (daysBefore : Z -> Z -> Z) (clock : Post -> Z) (options : Options) (now : Z)
    (docs : list Post) : JobResult :=
  let cutoff := cutoffDate daysBefore now (maxAge options) in
  let cursor := filter (fun p => scoringQuery cutoff p = true) docs in
  flushRemaining writes
    (foldl (scoreOne writes (batchSize options) clock)
           {| bulkOps := []; processed := 0; errors := 0; collection := docs |}
           cursor).

(** The posts collection after the job, however it ended. *)
Definition collectionAfter (result : JobResult) : list Post :=
  match result with
  | Completed run => collection run
  | Fatal written => written
  end.

(** An environment in which every [Post.bulkWrite] goes through. *)
Definition alwaysWritten : list BulkOp -> WriteOutcome := fun _ => Written.

(** An environment in which every [Post.bulkWrite] throws with nothing
    applied. *)
Definition neverWritten : list BulkOp -> WriteOutcome := fun _ => ThrewAfter 0.

(** One like, created two hours before the clock reads [7200000]. *)
Definition liked_once : Post := set_likeCount 1 blank_post.

(** ** Cache service ([utils/cache.js])

    A cached JavaScript value is [null], [undefined], some data of a
    type [D] that survives a JSON round trip unchanged, or any other
    value, which is given by what [JSON.stringify] makes of it: [NaN] and
    the infinities are rendered as the text [null], a function or a symbol
    as no string at all, a [Date] or a document with [toJSON] as the text
    of other data.  The serialized form is represented by the document it
    denotes rather than by its characters: [JSON.stringify] yields the
    text [null], the text of some data, or no string at all
    ([undefined]); such a text is never the empty string, so it is always
    truthy. *)

Inductive JsonText (D : Type) : Type :=
  | TNull
  | TData (d : D).
Arguments TNull {D}.
Arguments TData {D} d.

Inductive Value (D : Type) : Type :=
  | Null
  | Undefined
  | Data (d : D)
  | Exotic (rendered : option (JsonText D)).
Arguments Null {D}.
Arguments Undefined {D}.
Arguments Data {D} d.
Arguments Exotic {D} rendered.

Definition JSON_stringify {D} (value : Value D) : option (JsonText D) :=
  match value with
  | Null => Some TNull
  | Undefined => None
  | Data d => Some (TData d)
  | Exotic rendered => rendered
  end.

Definition JSON_parse {D} (text : JsonText D) : Value D :=
  match text with
  | TNull => Null
  | TData d => Data d
  end.

(** The Redis client is an external service.  Its replies are left open
    here: a command either throws ([None]) or answers.  [redis_get]
    answers with the stored text or nil, and counts as throwing also when
    [JSON.parse] throws on the reply, which happens inside the same [try];
    [redis_setex] answers with the client in its next state.  What makes
    such a client a Redis is said by [isRedis] below. *)
#[local] Unset Elimination Schemes.
Inductive RedisClient (D : Type) : Type := MkRedisClient {
  redis_get : Z -> string -> option (option (JsonText D));
  redis_setex : Z -> string -> Z -> option (JsonText D) -> option (RedisClient D)
}.
#[local] Set Elimination Schemes.
Arguments MkRedisClient {D}.
Arguments redis_get {D}.
Arguments redis_setex {D}.

(** The module-level variables of [cache.js]. *)
Record Cache (D : Type) : Type := {
  redis : option (RedisClient D);
  isRedisConnected : bool;
  memoryCache : gmap string (option (JsonText D));
  memoryCacheTTL : gmap string Z
}.
Arguments redis {D}.
Arguments isRedisConnected {D}.
Arguments memoryCache {D}.
Arguments memoryCacheTTL {D}.

(** The client the guard [isRedisConnected && redis] lets through. *)
Definition connectedRedis {D} (cache : Cache D) : option (RedisClient D) :=
  if isRedisConnected cache then redis cache else None.

(** The in-memory fallback of [set]. *)
Definition memorySet {D} (now : Z) (key : string) (serialized : option (JsonText D))
    (ttlSeconds : Z) (cache : Cache D) : Cache D :=
  {| redis := redis cache;
     isRedisConnected := isRedisConnected cache;
     memoryCache := <[key := serialized]> (memoryCache cache);
     memoryCacheTTL := <[key := now + ttlSeconds * 1000]> (memoryCacheTTL cache) |}.

(** [set(key, value, ttlSeconds)]; it always resolves to [true]. *)
Definition set {D} (now : Z) (key : string) (value : Value D) (ttlSeconds : Z)
    (cache : Cache D) : Cache D :=
  let serialized := JSON_stringify value in
  match connectedRedis cache with
  | Some client =>
      match redis_setex client now key ttlSeconds serialized with
      | Some client' =>
          {| redis := Some client';
             isRedisConnected := isRedisConnected cache;
             memoryCache := memoryCache cache;
             memoryCacheTTL := memoryCacheTTL cache |}
      | None => memorySet now key serialized ttlSeconds cache
      end
  | None => memorySet now key serialized ttlSeconds cache
  end.

(** [ttl && ttl < Date.now()]: a missing or zero expiry is falsy. *)
Definition expired (ttl : option Z) (now : Z) : bool :=
  match ttl with
  | Some t => negb (t =? 0) && (t <? now)
  | None => false
  end.

(** [value ? JSON.parse(value) : null] *)
Definition parseOrNull {D} (value : option (JsonText D)) : Value D :=
  match value with
  | Some text => JSON_parse text
  | None => Null
  end.

(** The in-memory fallback of [get]. *)
Definition memoryGet {D} (now : Z) (key : string) (cache : Cache D)
  : Value D * Cache D :=
  let ttl := memoryCacheTTL cache !! key in
  if expired ttl now then
    (Null,
     {| redis := redis cache;
        isRedisConnected := isRedisConnected cache;
        memoryCache := delete key (memoryCache cache);
        memoryCacheTTL := delete key (memoryCacheTTL cache) |})
  else
    let value := mjoin (memoryCache cache !! key) in
    (parseOrNull value, cache).

Definition get {D} (now : Z) (key : string) (cache : Cache D)
  : Value D * Cache D :=
  match connectedRedis cache with
  | Some client =>
      match redis_get client now key with
      | Some value => (parseOrNull value, cache)
      | None => memoryGet now key cache
      end
  | None => memoryGet now key cache
  end.

(** [cached(key, fn, ttlSeconds)].  The callback [fn] runs in a world of
    type [W], which it may change; [tGet] and [tSet] are the clock readings
    of the inner [get] and [set]. *)
Definition cached {D W} (tGet tSet : Z) (key : string) (fn : W -> Value D * W)
    (ttlSeconds : Z) (st : Cache D * W) : Value D * (Cache D * W) :=
  let '(cache, w) := st in
  let '(hit, cache) := get tGet key cache in
  match hit with
  | Null =>
      let '(result, w) := fn w in
      let cache := set tSet key result ttlSeconds cache in
      (result, (cache, w))
  | _ => (hit, (cache, w))
  end.

(** A callback instrumented with the number of times it has run. *)
Definition counted {D W} (fn : W -> Value D * W) (cw : nat * W)
  : Value D * (nat * W) :=
  let '(result, w) := fn (snd cw) in (result, (S (fst cw), w)).

(** [cached] called once per pair of clock readings, in sequence; the
    results are collected in order. *)
Fixpoint cachedRepeatedly {D W} (times : list (Z * Z)) (key : string)
    (fn : W -> Value D * W) (ttlSeconds : Z) (st : Cache D * W)
  : list (Value D) * (Cache D * W) :=
  match times with
  | [] => ([], st)
  | (tGet, tSet) :: rest =>
      let '(result, st) := cached tGet tSet key fn ttlSeconds st in
      let '(results, st) := cachedRepeatedly rest key fn ttlSeconds st in
      (result :: results, st)
  end.

(** What the in-memory store holds under [key], expiry aside. *)
Definition stored {D} (key : string) (cache : Cache D) : Value D :=
  parseOrNull (mjoin (memoryCache cache !! key)).

(** The cache of a process started without [REDIS_URL]. *)
Definition emptyCache {D} : Cache D :=
  {| redis := None; isRedisConnected := false;
     memoryCache := ∅; memoryCacheTTL := ∅ |}.

(** *** Redis as the cache sees it

    A Redis server holds, per key, the text of the last [SETEX] and the
    instant it expires; [GET] answers with the text until that instant and
    with nil from then on.  The server's clock is the process's. *)
Definition redisReply {D} (contents : gmap string (option (JsonText D) * Z))
    (now : Z) (key : string) : option (JsonText D) :=
  match contents !! key with
  | Some (text, expiry) => if now <? expiry then text else None
  | None => None
  end.

(** [holds client contents]: the client is in a state in which the server
    has these contents.  The relation describes a Redis when a [GET] that
    answers gives the live text under the key, and a [SETEX] that answers
    had a positive ttl and leaves the server with the key overwritten.  A
    command may throw at any time (the connection is lost, the server
    refuses the command), and then nothing changes.  No other client
    writes to the server. *)
Record isRedis {D} (holds : RedisClient D -> gmap string (option (JsonText D) * Z) -> Prop)
  : Prop := {
  redis_get_reply : forall client contents now key reply,
    holds client contents ->
    redis_get client now key = Some reply ->
    reply = redisReply contents now key;
  redis_setex_reply : forall client contents now key ttl text client',
    holds client contents ->
    redis_setex client now key ttl text = Some client' ->
    0 < ttl /\ holds client' (<[key := (text, now + ttl * 1000)]> contents)
}.

(** Neither store has data under [key]: the in-process entry, expiry
    aside, reads as [null], and so does whatever a connected Redis holds. *)
Definition uncached {D}
    (holds : RedisClient D -> gmap string (option (JsonText D) * Z) -> Prop)
    (key : string) (cache : Cache D) : Prop :=
  stored key cache = Null /\
  forall client, connectedRedis cache = Some client ->
    isRedis holds /\
    exists contents, holds client contents /\
      forall now, parseOrNull (redisReply contents now key) = Null.

(** Redis serves a first call's [SETEX] at reading [tSet] and the [GET]s
    of two later calls at readings [tGet2] and [tGet3]. *)
Definition servedByRedis {D}
    (holds : RedisClient D -> gmap string (option (JsonText D) * Z) -> Prop)
    (key : string) (text : option (JsonText D)) (ttlSeconds tSet tGet2 tGet3 : Z)
    (cache : Cache D) : Prop :=
  exists client contents client1,
    connectedRedis cache = Some client /\ isRedis holds /\ holds client contents /\
    redis_setex client tSet key ttlSeconds text = Some client1 /\
    is_Some (redis_get client1 tGet2 key) /\
    is_Some (redis_get client1 tGet3 key).

(** A client of a server with the given contents that answers until
    [writes] [SETEX]s have gone through and throws from then on. *)
Fixpoint redisServer {D} (writes : nat) (contents : gmap string (option (JsonText D) * Z))
  : RedisClient D :=
  match writes with
  | O => MkRedisClient (fun _ _ => None) (fun _ _ _ _ => None)
  | S n =>
      MkRedisClient
        (fun now key => Some (redisReply contents now key))
        (fun now key ttl text =>
           if 0 <? ttl
           then Some (redisServer n (<[key := (text, now + ttl * 1000)]> contents))
           else None)
  end.

Definition serves {D} (client : RedisClient D)
    (contents : gmap string (option (JsonText D) * Z)) : Prop :=
  exists writes, client = redisServer writes contents.

(** A client of an empty server that refuses every write (a read-only
    replica, or a server out of memory). *)
Definition redisReadOnly {D} : RedisClient D :=
  MkRedisClient (fun _ _ => Some None) (fun _ _ _ _ => None).

(** The cache of a process connected to Redis through [client], with
    nothing in the in-process store. *)
Definition redisCache {D} (client : RedisClient D) : Cache D :=
  {| redis := Some client; isRedisConnected := true;
     memoryCache := ∅; memoryCacheTTL := ∅ |}.

(** A process connected to a Redis that takes one more write before it
    loses its connection, while the in-process store still has an entry
    that an earlier [set] left there when Redis threw. *)
Definition staleCache : Cache Z :=
  {| redis := Some (redisServer 1 ∅); isRedisConnected := true;
     memoryCache := {["feed:explore:1" := Some (TData 7)]};
     memoryCacheTTL := {["feed:explore:1" := 500000]} |}.

(** Callbacks over a trivial world; [alwaysNaN] answers [NaN], which
    [JSON.stringify] renders as [null]. *)
Definition alwaysNull : unit -> Value Z * unit := fun w => (Null, w).
Definition always42 : unit -> Value Z * unit := fun w => (Data 42, w).
Definition alwaysNaN : unit -> Value Z * unit := fun w => (Exotic (Some TNull), w).

(** ** The document store

    The collections are lists in insertion order.  [oplog] is ghost state:
    every call into the store appends the collection it touches, so that
    "performs no query against the posts" can be stated. *)

Record User := {
  user_id : ObjectId;
  username : string;
  followers : list ObjectId;
  following : list ObjectId;
  blockedUsers : list ObjectId
}.

Record Notification := {
  userId : ObjectId;
  actorId : ObjectId;
  title : string;
  body : string;
  ntype : string;
  data_postId : ObjectId
}.

Record EngagementEvent := {
  ev_userId : ObjectId;
  ev_postId : ObjectId;
  eventType : EventType;
  ev_createdAt : Z
}.

Inductive Collection := PostsC | UsersC | NotificationsC | EventsC.

Record Db := {
  posts : list Post;
  users : list User;
  notifications : list Notification;
  events : list EngagementEvent;
  oplog : list Collection
}.

Definition with_posts (docs : list Post) (db : Db) : Db :=
  {| posts := docs; users := users db; notifications := notifications db;
     events := events db; oplog := oplog db |}.

(** The ghost record of one store call. *)
Definition touch (c : Collection) (db : Db) : Db :=
  {| posts := posts db; users := users db; notifications := notifications db;
     events := events db; oplog := oplog db ++ [c] |}.

(** [User.findById]. *)
Fixpoint findUser (id : ObjectId) (docs : list User) : option User :=
  match docs with
  | [] => None
  | u :: rest => if decide (user_id u = id) then Some u else findUser id rest
  end.

Definition User_findById (id : ObjectId) (db : Db) : option User * Db :=
  (findUser id (users db), touch UsersC db).

(** [Post.findOne(query)]: the first document that matches. *)
Fixpoint findOne (query : Post -> bool) (docs : list Post) : option Post :=
  match docs with
  | [] => None
  | p :: rest => if query p then Some p else findOne query rest
  end.

Definition Post_findOne (query : Post -> bool) (db : Db) : option Post * Db :=
  (findOne query (posts db), touch PostsC db).

(** [Post.incrementCounter(postId, 'likeCount', amount)]: an atomic [$inc]
    on the stored document. *)
Definition incrementLikeCount (postId : ObjectId) (amount : Z) (db : Db) : Db :=
  touch PostsC
    (with_posts (updateOne postId (fun p => set_likeCount (likeCount p + amount) p)
                   (posts db)) db).

(** [EngagementEvent.track]: a plain insert. *)
Definition track (now : Z) (uid pid : ObjectId) (type : EventType) (db : Db) : Db :=
  touch EventsC
    {| posts := posts db; users := users db; notifications := notifications db;
       events := events db ++ [{| ev_userId := uid; ev_postId := pid;
                                  eventType := type; ev_createdAt := now |}];
       oplog := oplog db |}.

(** [m.width && m.height && m.height > m.width] *)
Definition isVertical (m : MediaItem) : bool :=
  match width m, height m with
  | Some w, Some h => negb (Qeq_bool w 0) && negb (Qeq_bool h 0) && Qgtb h w
  | _, _ => false
  end.

(** The reel detection of the pre-save hook. *)
Definition detectsReel (p : Post) : bool :=
  match media p with
  | [m] => bool_decide (type m = video) && isVertical m
  | _ => false
  end.

Definition preSave (p : Post) : Post :=
  if detectsReel p then set_isReel true p else p.

(** [post.save()] after [post.likes] changed: the modified path and what
    the hook sets are written to the stored document. *)
Definition savedLikes (doc stored : Post) : Post :=
  let stored := set_likes (likes doc) stored in
  if detectsReel doc then set_isReel true stored else stored.

Definition save_likes (doc : Post) (db : Db) : Db :=
  touch PostsC (with_posts (updateOne (_id doc) (savedLikes doc) (posts db)) db).

(** [post.save()] after [post.status] changed. *)
Definition savedStatus (doc stored : Post) : Post :=
  let stored := set_status (status doc) stored in
  if detectsReel doc then set_isReel true stored else stored.

Definition save_status (doc : Post) (db : Db) : Db :=
  touch PostsC (with_posts (updateOne (_id doc) (savedStatus doc) (posts db)) db).

(** ** Feed queries *)

(** The populated [user] path of a post in a feed. *)
Record UserSummary := { summary_id : ObjectId; summary_username : string }.

Record FeedPost := { doc : Post; author : option UserSummary }.

(** [.populate('user', ...)]: [null] when the author does not exist. *)
Definition populate (db : Db) (p : Post) : FeedPost :=
  {| doc := p;
     author := (fun u => {| summary_id := user_id u; summary_username := username u |})
                 <$> findUser (user p) (users db) |}.

Fixpoint insertRanked {A} (above : A -> A -> bool) (x : A) (l : list A) : list A :=
  match l with
  | [] => [x]
  | y :: rest =>
      if above y x then y :: insertRanked above x rest else x :: y :: rest
  end.

(** [.sort(...)]: [above a b] says that [a] ranks strictly before [b];
    ties keep the order of the collection. *)
Definition sortRanked {A} (above : A -> A -> bool) (l : list A) : list A :=
  foldr (insertRanked above) [] l.

(** [{ engagementScore: -1 }] *)
Definition byScore (a b : Post) : bool :=
  Qgtb (engagementScore a) (engagementScore b).

(** [{ engagementScore: -1, createdAt: -1 }] *)
Definition byScoreThenDate (a b : Post) : bool :=
  Qgtb (engagementScore a) (engagementScore b)
  || (Qeq_bool (engagementScore a) (engagementScore b) && (createdAt b <? createdAt a)).

(** [.limit(n)]: 0 is no limit, a negative limit counts as its absolute
    value. *)
Definition applyLimit {A} (n : Z) (l : list A) : list A :=
  if n =? 0 then l else take (Z.abs_nat n) l.

(** [Post.find(query).populate(...).sort(...).skip(skip).limit(limit)];
    the store rejects a negative skip ([None]). *)
Definition Post_find (query : Post -> bool) (above : Post -> Post -> bool)
    (skip limit : Z) (db : Db) : option (list FeedPost) * Db :=
  let db' := touch PostsC db in
  if skip <? 0 then (None, db')
  else
    let matching := filter (fun p => query p = true) (posts db) in
    let sorted := sortRanked above matching in
    (Some (populate db <$> applyLimit limit (drop (Z.to_nat skip) sorted)), db').

(** [parseInt(q) || dflt]: [None] is a missing or unparsable parameter. *)
Definition parseIntOr (q : option Z) (dflt : Z) : Z :=
  match q with
  | Some n => if n =? 0 then dflt else n
  | None => dflt
  end.

(** [array.slice(0, n)] *)
Definition slice0 {A} (n : Z) (l : list A) : list A :=
  if n <? 0 then take (length l - Z.abs_nat n) l else take (Z.to_nat n) l.

(** ** Requests and responses *)

Record Request := {
  req_user : User;
  query_page : option Z;
  query_limit : option Z;
  params_id : ObjectId
}.

(** A feed page; [hasMore] is absent from explore pages. *)
Record FeedPage := {
  page_posts : list FeedPost;
  hasMore : option bool;
  page : Z;
  limit : Z
}.

Inductive Body :=
  | BPage (p : FeedPage)
  | BMessage (message : string)
  | BPost (p : FeedPost)
  | BLikes (likes : list ObjectId) (likeCount : Z).

Record Response := { statusCode : Z; json : Body }.

Definition ok (b : Body) : Response := {| statusCode := 200; json := b |}.
Definition fail (code : Z) (message : string) : Response :=
  {| statusCode := code; json := BMessage message |}.

Module cacheKeys.
Definition followingFeed (userId : ObjectId) (page : Z) : string :=
  "feed:following:" +:+ userId +:+ ":" +:+ pretty page.
Definition exploreFeed (page : Z) : string := "feed:explore:" +:+ pretty page.
Definition reelsFeed (page : Z) : string := "feed:reels:" +:+ pretty page.
End cacheKeys.

Module TTL.
Definition FOLLOWING_FEED : Z := 5 * 60.
Definition EXPLORE_FEED : Z := 15 * 60.
Definition REELS_FEED : Z := 10 * 60.
End TTL.

(** The state a request handler runs in. *)
Definition Server : Type := Db * Cache FeedPage.

(** ** Feed handlers (post controller) *)

Definition with_page_posts (kept : list FeedPost) (p : FeedPage) : FeedPage :=
  {| page_posts := kept; hasMore := hasMore p; page := page p; limit := limit p |}.

(** [posts.filter(p => !blockedIds.includes(p.user._id.toString()))];
    reading [_id] of a [null] author throws ([None]). *)
Fixpoint filterBlocked (blockedIds : list ObjectId) (l : list FeedPost)
  : option (list FeedPost) :=
  match l with
  | [] => Some []
  | p :: rest =>
      match author p with
      | None => None
      | Some a =>
          kept ← filterBlocked blockedIds rest;
          Some (if bool_decide (summary_id a ∈ blockedIds) then kept else p :: kept)
      end
  end.

Definition exploreQuery (p : Post) : bool :=
  negb (isDeleted p) && bool_decide (status p = ready)
  && bool_decide (visibility p = public).

(** [getExplorePosts]; [tGet] and [tSet] are the clock readings of
    [cache.get] and [cache.set]. *)
Definition getExplorePosts (tGet tSet : Z) (req : Request) (srv : Server)
  : Response * Server :=
  let '(db, cache) := srv in
  let page := parseIntOr (query_page req) 1 in
  let limit := parseIntOr (query_limit req) 20 in
  let skip := (page - 1) * limit in
  let cacheKey := cacheKeys.exploreFeed page in
  let '(cached, cache) := get tGet cacheKey cache in
  match cached with
  | Data cachedPage =>
      let blockedIds := blockedUsers (req_user req) in
      match filterBlocked blockedIds (page_posts cachedPage) with
      | Some kept => (ok (BPage (with_page_posts kept cachedPage)), (db, cache))
      | None => (fail 500 "Server error", (db, cache))
      end
  | _ =>
      match Post_find exploreQuery byScore skip limit db with
      | (Some found, db) =>
          let result :=
            {| page_posts := found; hasMore := None; page := page; limit := limit |} in
          let cache := set tSet cacheKey (Data result) TTL.EXPLORE_FEED cache in
          (ok (BPage result), (db, cache))
      | (None, db) => (fail 500 "Server error", (db, cache))
      end
  end.

Definition followingQuery (followingIds blocked : list ObjectId) (p : Post) : bool :=
  bool_decide (user p ∈ followingIds) && negb (bool_decide (user p ∈ blocked))
  && negb (isDeleted p) && bool_decide (status p = ready)
  && (bool_decide (visibility p = public)
      || bool_decide (visibility p = followers_only)).

(** [getFollowingFeed] *)
Definition getFollowingFeed (tGet tSet : Z) (req : Request) (srv : Server)
  : Response * Server :=
  let '(db, cache) := srv in
  let page := parseIntOr (query_page req) 1 in
  let limit := parseIntOr (query_limit req) 10 in
  let skip := (page - 1) * limit in
  let userId := user_id (req_user req) in
  let cacheKey := cacheKeys.followingFeed userId page in
  let '(cached, cache) := get tGet cacheKey cache in
  match cached with
  | Data cachedPage => (ok (BPage cachedPage), (db, cache))
  | _ =>
      match User_findById userId db with
      | (None, db) => (fail 500 "Server error", (db, cache))
      | (Some currentUser, db) =>
          let followingIds := following currentUser in
          match followingIds with
          | [] =>
              (ok (BPage {| page_posts := []; hasMore := Some false;
                            page := page; limit := limit |}),
               (db, cache))
          | _ =>
              match Post_find (followingQuery followingIds (blockedUsers currentUser))
                      byScoreThenDate skip (limit + 1) db with
              | (Some found, db) =>
                  let more := (limit <? Z.of_nat (length found)) in
                  let postsToReturn := if more then slice0 limit found else found in
                  let result :=
                    {| page_posts := postsToReturn; hasMore := Some more;
                       page := page; limit := limit |} in
                  let cache := set tSet cacheKey (Data result) TTL.FOLLOWING_FEED cache in
                  (ok (BPage result), (db, cache))
              | (None, db) => (fail 500 "Server error", (db, cache))
              end
          end
      end
  end.

(** ** [toggleLike] *)

Definition likeQuery (id : ObjectId) (p : Post) : bool :=
  bool_decide (_id p = id) && negb (isDeleted p).

Definition toggleLike (now : Z) (req : Request) (db : Db) : Response * Db :=
  let '(found, db) := Post_findOne (likeQuery (params_id req)) db in
  match found with
  | None => (fail 404 "Post not found", db)
  | Some post =>
      let userId := user_id (req_user req) in
      let isLiked := bool_decide (userId ∈ likes post) in
      let '(edited, db) :=
        if isLiked then
          let edited := set_likes (filter (fun id => id <> userId) (likes post)) post in
          let db := incrementLikeCount (_id post) (-1) db in
          (edited, track now userId (_id post) ev_unlike db)
        else
          let edited := set_likes (likes post ++ [userId]) post in
          let db := incrementLikeCount (_id post) 1 db in
          (edited, track now userId (_id post) ev_like db) in
      let db := save_likes edited db in
      (ok (BLikes (likes edited) (likeCount edited + (if isLiked then -1 else 1))), db)
  end.

(** ** Sample data *)

Definition alice : User :=
  {| user_id := "alice"; username := "alice"; followers := ["bob"; "carol"; "dave"];
     following := []; blockedUsers := [] |}.

(** Bob follows Alice's posts no more: he has blocked her. *)
Definition bob : User :=
  {| user_id := "bob"; username := "bob"; followers := [];
     following := []; blockedUsers := ["alice"] |}.

Definition carol : User :=
  {| user_id := "carol"; username := "carol"; followers := ["dave"];
     following := ["alice"]; blockedUsers := [] |}.

Definition alice_post : Post :=
  {| _id := "post-a"; user := "alice"; media := []; visibility := public;
     status := ready; scheduledFor := None; isDeleted := false;
     isReel := false; likeCount := 0; commentCount := 0; shareCount := 0;
     saveCount := 0; viewCount := 0; engagementScore := 0;
     watchTimeSum := 0; completionSum := 0; likes := ["carol"]; createdAt := 1000 |}.

Definition sample_db : Db :=
  {| posts := [alice_post]; users := [alice; bob; carol];
     notifications := []; events := []; oplog := [] |}.

Definition request_of (u : User) (id : ObjectId) : Request :=
  {| req_user := u; query_page := None; query_limit := None; params_id := id |}.

(** ** [createPost] *)

(** An element of [req.body.media]. *)
Record MediaInput := {
  in_url : option string;
  in_type : option string;
  in_publicId : option string;
  in_width : option Q;
  in_height : option Q;
  in_duration : option Q;
  in_thumbnail : option string;
  in_order : option Z
}.

(** An element of the legacy [req.body.videos]. *)
Record VideoInput := {
  vin_url : option string;
  vin_publicId : option string;
  vin_duration : option Q;
  vin_thumbnail : option string;
  vin_width : option Q;
  vin_height : option Q
}.

(** [req.body], with the types the schema expects of its fields: strings
    where it has strings, numbers where it has numbers, so that no cast
    fails.  An array-valued field is [Some] only when it is an array;
    [scheduledFor] is a timestamp in milliseconds or missing. *)
Record CreatePostBody := {
  body_media : option (list MediaInput);
  body_images : option (list (option string));
  body_videos : option (list VideoInput);
  body_image : option string;
  body_visibility : option string;
  body_scheduledFor : option Z
}.

(** An element of [mediaArray], before the schema has seen it. *)
Record MediaDraft := {
  draft_url : option string;
  draft_type : string;
  draft_publicId : option string;
  draft_width : option Q;
  draft_height : option Q;
  draft_duration : option Q;
  draft_thumbnail : option string;
  draft_order : Z
}.

(** [s || dflt] on an optional string: [undefined] and [''] are falsy. *)
Definition stringOr (s : option string) (dflt : string) : string :=
  match s with
  | Some "" | None => dflt
  | Some v => v
  end.

Definition fromUnified (idx : nat) (m : MediaInput) : MediaDraft :=
  {| draft_url := in_url m; draft_type := stringOr (in_type m) "image";
     draft_publicId := in_publicId m; draft_width := in_width m;
     draft_height := in_height m; draft_duration := in_duration m;
     draft_thumbnail := in_thumbnail m;
     draft_order := default (Z.of_nat idx) (in_order m) |}.

Definition fromImage (idx : nat) (url : option string) : MediaDraft :=
  {| draft_url := url; draft_type := "image"; draft_publicId := None;
     draft_width := None; draft_height := None; draft_duration := None;
     draft_thumbnail := None; draft_order := Z.of_nat idx |}.

(** [videos.forEach((v, idx) => mediaArray.push({..., order:
    mediaArray.length + idx}))], from index [idx] on. *)
Fixpoint pushVideos (idx : nat) (videos : list VideoInput)
    (mediaArray : list MediaDraft) : list MediaDraft :=
  match videos with
  | [] => mediaArray
  | v :: rest =>
      pushVideos (S idx) rest
        (mediaArray ++
           [{| draft_url := vin_url v; draft_type := "video";
               draft_publicId := vin_publicId v; draft_width := vin_width v;
               draft_height := vin_height v; draft_duration := vin_duration v;
               draft_thumbnail := vin_thumbnail v;
               draft_order := Z.of_nat (length mediaArray + idx) |}])
  end.

(** "Build unified media array". *)
Definition buildMediaArray (b : CreatePostBody) : list MediaDraft :=
  match body_media b with
  | Some (m :: ms) => imap fromUnified (m :: ms)
  | _ =>
      let mediaArray :=
        match body_images b with
        | Some images => imap fromImage images
        | None =>
            match body_image b with
            | Some "" | None => []
            | Some img => [fromImage 0 (Some img)]
            end
        end in
      match body_videos b with
      | Some videos => pushVideos 0 videos mediaArray
      | None => mediaArray
      end
  end.

(** The schema's checks on one [media] element: [url] is required and
    [type] is one of the enum's values. *)
Definition castMedia (m : MediaDraft) : option MediaItem :=
  match draft_url m with
  | Some "" | None => None
  | Some u =>
      t ← (if String.eqb (draft_type m) "image" then Some image
           else if String.eqb (draft_type m) "video" then Some video
           else None);
      Some {| url := u; type := t; publicId := draft_publicId m;
              width := draft_width m; height := draft_height m;
              duration := draft_duration m; thumbnail := draft_thumbnail m;
              order := draft_order m |}
  end.

Definition castVisibility (v : string) : option Visibility :=
  if String.eqb v "public" then Some public
  else if String.eqb v "followers" then Some followers_only
  else if String.eqb v "private" then Some private
  else None.

(** What the schema's validators ask of the data [createPost] builds:
    every [media] element has a non-empty [url] ([required]) and a [type]
    of its enum, and [visibility] is of its enum. *)
Definition mediaValid (m : MediaDraft) : Prop :=
  (exists u, draft_url m = Some u /\ u <> "") /\
  (draft_type m = "image" \/ draft_type m = "video").

Definition schemaAccepts (mediaArray : list MediaDraft) (visibility : string) : Prop :=
  Forall mediaValid mediaArray /\
  (visibility = "public" \/ visibility = "followers" \/ visibility = "private").

(** The truthiness of [scheduledFor]: a missing timestamp and the number
    [0] are falsy. *)
Definition truthyDate (scheduledFor : option Z) : bool :=
  match scheduledFor with
  | Some 0 | None => false
  | Some _ => true
  end.

(** [scheduledFor || null] *)
Definition dateOrNull (scheduledFor : option Z) : option Z :=
  if truthyDate scheduledFor then scheduledFor else None.

(** [Post.create(postData)] up to the insert: schema validation, defaults
    and the pre-save hook.  [None] is a rejected document. *)
Definition newPost (now : Z) (newId userId : ObjectId) (mediaArray : list MediaDraft)
    (visibility : string) (status : Status) (scheduledFor : option Z) : option Post :=
  items ← mapM castMedia mediaArray;
  vis ← castVisibility visibility;
  Some (preSave
          {| _id := newId; user := userId; media := items; visibility := vis;
             status := status;
             scheduledFor := scheduledFor; isDeleted := false; isReel := false;
             likeCount := 0; commentCount := 0; shareCount := 0; saveCount := 0;
             viewCount := 0; engagementScore := 0; watchTimeSum := 0;
             completionSum := 0; likes := []; createdAt := now |}).

(** [createPost]; [newId] is the [_id] the store gives the document. *)
Definition createPost (now : Z) (newId : ObjectId) (u : User) (b : CreatePostBody)
    (db : Db) : Response * Db :=
  let visibility := default "public" (body_visibility b) in
  let mediaArray := buildMediaArray b in
  if (length mediaArray =? 0)%nat then
    (fail 400 "At least one image or video is required", db)
  else if (10 <? length mediaArray)%nat then
    (fail 400 "Maximum 10 media items per post", db)
  else
    let scheduledFor := body_scheduledFor b in
    match newPost now newId (user_id u) mediaArray visibility
            (if truthyDate scheduledFor then scheduled else ready)
            (dateOrNull scheduledFor) with
    | None => (fail 500 "Post validation failed", db)
    | Some post =>
        let db := touch PostsC (with_posts (posts db ++ [post]) db) in
        let db := touch UsersC db in
        (ok (BPost (populate db post)), db)
    end.

Definition sample_image : MediaInput :=
  {| in_url := Some "https://cdn/1.jpg"; in_type := Some "image"; in_publicId := None;
     in_width := None; in_height := None; in_duration := None;
     in_thumbnail := None; in_order := None |}.

(** A media element whose [url] is missing. *)
Definition broken_image : MediaInput :=
  {| in_url := None; in_type := Some "image"; in_publicId := None;
     in_width := None; in_height := None; in_duration := None;
     in_thumbnail := None; in_order := None |}.

Definition body_with (items : list MediaInput) : CreatePostBody :=
  {| body_media := Some items; body_images := None; body_videos := None;
     body_image := None; body_visibility := None; body_scheduledFor := None |}.

(** ** Scheduled posts publisher ([jobs/scheduler.js]) *)

(** [{ status: 'scheduled', scheduledFor: { $lte: now } }] *)
Definition isDue (now : Z) (p : Post) : bool :=
  bool_decide (status p = scheduled)
  && match scheduledFor p with Some t => t <=? now | None => false end.

(** A due post with [.populate('user', 'username followers')]. *)
Record DuePost := { due_doc : Post; due_author : option User }.

Definition withAuthor (db : Db) (p : Post) : DuePost :=
  {| due_doc := p; due_author := findUser (user p) (users db) |}.

(** [author.followers.map(followerId => ({...}))] (the title's emoji is
    left out). *)
Definition fanOut (author : User) (post : Post) : list Notification :=
  (fun followerId =>
     {| userId := followerId; actorId := user_id author; title := "New Post";
        body := username author +:+ " shared a new post"; ntype := "share";
        data_postId := _id post |}) <$> followers author.

(** [Notification.insertMany] that goes through. *)
Definition insertMany (batch : list Notification) (db : Db) : Db :=
  touch NotificationsC
    {| posts := posts db; users := users db;
       notifications := notifications db ++ batch;
       events := events db; oplog := oplog db |}.

(** What an [insertMany] with [{ ordered: false }] does with a batch: it
    goes through, or it throws after having written some of the batch. *)
Inductive InsertOutcome :=
  | Inserted
  | Threw (written : list Notification).

(** The body of [for (const post of duePosts)], run until it throws.
    [rejects] is the environment: it gives the outcome of
    [Notification.insertMany] for each batch.  The result carries the error
    the surrounding [catch] logs, if any. *)
Fixpoint publishAll (rejects : list Notification -> InsertOutcome)
    (due : list DuePost) (db : Db) : option string * Db :=
  match due with
  | [] => (None, db)
  | d :: rest =>
      let post := set_status ready (due_doc d) in
      let db := save_status post db in
      match due_author d with
      | None => (Some "Cannot read properties of null", db)
      | Some author =>
          match followers author with
          | [] => publishAll rejects rest db
          | _ =>
              let batch := fanOut author post in
              match rejects batch with
              | Threw written => (Some "insertMany failed", insertMany written db)
              | Inserted => publishAll rejects rest (insertMany batch db)
              end
          end
      end
  end.

(** One tick of the "Scheduled Posts Publisher" cron job. *)
Definition publishScheduledPosts (rejects : list Notification -> InsertOutcome)
    (now : Z) (db : Db) : Db :=
  let duePosts := withAuthor db <$> filter (fun p => isDue now p = true) (posts db) in
  let db := touch UsersC (touch PostsC db) in
  (publishAll rejects duePosts db).2.

(** The notifications the tick sends for a due post. *)
Definition fanOutOf (db : Db) (p : Post) : list Notification :=
  match findUser (user p) (users db) with
  | Some author => fanOut author (set_status ready p)
  | None => []
  end.

(** The loop body goes through for a due post. *)
Definition fanOutSucceeds (rejects : list Notification -> InsertOutcome) (db : Db)
    (p : Post) : bool :=
  match findUser (user p) (users db) with
  | Some author =>
      match followers author with
      | [] => true
      | _ =>
          match rejects (fanOut author (set_status ready p)) with
          | Inserted => true
          | Threw _ => false
          end
      end
  | None => false
  end.

(** What a failed insert for a due post has written all the same. *)
Definition partlyWritten (rejects : list Notification -> InsertOutcome) (db : Db)
    (p : Post) : list Notification :=
  match findUser (user p) (users db) with
  | Some author =>
      match followers author with
      | [] => []
      | _ =>
          match rejects (fanOut author (set_status ready p)) with
          | Inserted => []
          | Threw written => written
          end
      end
  | None => []
  end.

(** The posts the loop has saved so far. *)
Definition markReady (done : list Post) (docs : list Post) : list Post :=
  foldl (fun docs q => updateOne (_id q) (savedStatus (set_status ready q)) docs)
        docs done.

(** Two posts scheduled for instant 59000, by Alice (three followers) and
    by Carol (one follower). *)
Definition scheduled_a : Post :=
  {| _id := "sched-a"; user := "alice"; media := []; visibility := public;
     status := scheduled; scheduledFor := Some 59000; isDeleted := false;
     isReel := false; likeCount := 0; commentCount := 0; shareCount := 0;
     saveCount := 0; viewCount := 0; engagementScore := 0;
     watchTimeSum := 0; completionSum := 0; likes := []; createdAt := 1000 |}.

Definition scheduled_c : Post :=
  {| _id := "sched-c"; user := "carol"; media := []; visibility := public;
     status := scheduled; scheduledFor := Some 59000; isDeleted := false;
     isReel := false; likeCount := 0; commentCount := 0; shareCount := 0;
     saveCount := 0; viewCount := 0; engagementScore := 0;
     watchTimeSum := 0; completionSum := 0; likes := []; createdAt := 2000 |}.

Definition scheduler_db : Db :=
  {| posts := [scheduled_a; scheduled_c]; users := [alice; bob; carol];
     notifications := []; events := []; oplog := [] |}.

(** An environment in which every insert goes through. *)
Definition neverRejects : list Notification -> InsertOutcome := fun _ => Inserted.

(** An environment in which the inserts for Alice's posts throw, nothing
    written. *)
Definition rejectsAlice : list Notification -> InsertOutcome :=
  fun batch =>
    if existsb (fun n => String.eqb (actorId n) "alice") batch
    then Threw [] else Inserted.

(** ** More of the post model ([models/Post.js]) *)

(** The [avgCompletionRate] virtual. *)
Definition avgCompletionRate (p : Post) : Q :=
  if (0 <? viewCount p) && Qgtb (completionSum p) 0
  then (completionSum p / inject_Z (viewCount p))%Q
  else 0%Q.

(** Two documents that differ at most in [engagementScore]. *)
Definition sameButScore (a b : Post) : Prop :=
  set_engagementScore 0 a = set_engagementScore 0 b.

(** What holds of the job's state throughout a run, whatever the writes
    do: the collection differs from the original in scores only, and only
    for the ids given. *)
Definition scoresOnly (ids : list ObjectId) (docs : list Post) (run : JobRun) : Prop :=
  Forall2 sameButScore docs (collection run) /\
  (forall id, (id ∉ ids) -> findById id (collection run) = findById id docs) /\
  Forall (fun op => filter_id op ∈ ids) (bulkOps run).

(** Every counter of [p] is at most that of [q]. *)
Definition countersLe (p q : Post) : Prop :=
  likeCount p <= likeCount q /\ commentCount p <= commentCount q /\
  shareCount p <= shareCount q /\ saveCount p <= saveCount q /\
  viewCount p <= viewCount q.

(** ** More of the cache service *)

(** [del(key)].  The Redis command's reply is given by [redis_del], with
    [None] for a command that throws; the in-memory entry is deleted
    whatever Redis did. *)
Definition del {D} (redis_del : RedisClient D -> string -> option (RedisClient D))
    (key : string) (cache : Cache D) : Cache D :=
  let redis' :=
    match connectedRedis cache with
    | Some client =>
        match redis_del client key with
        | Some client' => Some client'
        | None => redis cache
        end
    | None => redis cache
    end in
  {| redis := redis';
     isRedisConnected := isRedisConnected cache;
     memoryCache := delete key (memoryCache cache);
     memoryCacheTTL := delete key (memoryCacheTTL cache) |}.

(** What a value looks like after [JSON.stringify] and [JSON.parse]. *)
Definition roundTrip {D} (value : Value D) : Value D :=
  parseOrNull (JSON_stringify value).

(** The character [:] (code 58) occurs in a string. *)
Fixpoint hasColon (s : string) : bool :=
  match s with
  | EmptyString => false
  | String c rest => Ascii.eqb c (Ascii.ascii_of_nat 58) || hasColon rest
  end.

(** ** More handlers of the post controller *)

(** What a handler sends: [res.json(payload)], or
    [res.status(code).json({ message })]. *)
Inductive Reply (A : Type) : Type :=
  | Replied (payload : A)
  | Refused (code : Z) (message : string).
Arguments Replied {A} payload.
Arguments Refused {A} code message.

Definition set_isDeleted (v : bool) (p : Post) : Post :=
  {| _id := _id p; user := user p; media := media p;
     visibility := visibility p; status := status p;
     scheduledFor := scheduledFor p; isDeleted := v;
     isReel := isReel p; likeCount := likeCount p;
     commentCount := commentCount p; shareCount := shareCount p;
     saveCount := saveCount p; viewCount := viewCount p;
     engagementScore := engagementScore p; watchTimeSum := watchTimeSum p;
     completionSum := completionSum p; likes := likes p;
     createdAt := createdAt p |}.

Definition set_shareCount (v : Z) (p : Post) : Post :=
  {| _id := _id p; user := user p; media := media p;
     visibility := visibility p; status := status p;
     scheduledFor := scheduledFor p; isDeleted := isDeleted p;
     isReel := isReel p; likeCount := likeCount p;
     commentCount := commentCount p; shareCount := v;
     saveCount := saveCount p; viewCount := viewCount p;
     engagementScore := engagementScore p; watchTimeSum := watchTimeSum p;
     completionSum := completionSum p; likes := likes p;
     createdAt := createdAt p |}.

Definition set_viewCount (v : Z) (p : Post) : Post :=
  {| _id := _id p; user := user p; media := media p;
     visibility := visibility p; status := status p;
     scheduledFor := scheduledFor p; isDeleted := isDeleted p;
     isReel := isReel p; likeCount := likeCount p;
     commentCount := commentCount p; shareCount := shareCount p;
     saveCount := saveCount p; viewCount := v;
     engagementScore := engagementScore p; watchTimeSum := watchTimeSum p;
     completionSum := completionSum p; likes := likes p;
     createdAt := createdAt p |}.


(** [Post.findById]. *)
Definition Post_findById (id : ObjectId) (db : Db) : option Post * Db :=
  (findById id (posts db), touch PostsC db).

(** [Post.incrementCounter(postId, 'shareCount', amount)] *)
Definition incrementShareCount (postId : ObjectId) (amount : Z) (db : Db) : Db :=
  touch PostsC
    (with_posts (updateOne postId (fun p => set_shareCount (shareCount p + amount) p)
                   (posts db)) db).

(** [Post.incrementCounter(postId, 'viewCount')] *)
Definition incrementViewCount (postId : ObjectId) (db : Db) : Db :=
  touch PostsC
    (with_posts (updateOne postId (fun p => set_viewCount (viewCount p + 1) p)
                   (posts db)) db).

(** [post.save()] after [post.isDeleted] changed. *)
Definition savedDeleted (doc stored : Post) : Post :=
  let stored := set_isDeleted (isDeleted doc) stored in
  if detectsReel doc then set_isReel true stored else stored.

Definition save_isDeleted (doc : Post) (db : Db) : Db :=
  touch PostsC (with_posts (updateOne (_id doc) (savedDeleted doc) (posts db)) db).

(** The query of [getPosts]. *)
Definition feedQuery (blocked : list ObjectId) (p : Post) : bool :=
  negb (bool_decide (user p ∈ blocked)) && negb (isDeleted p)
  && bool_decide (status p = ready).

(** [getPosts] *)
Definition getPosts (req : Request) (db : Db) : Response * Db :=
  let page := parseIntOr (query_page req) 1 in
  let limit := parseIntOr (query_limit req) 10 in
  let skip := (page - 1) * limit in
  match Post_find (feedQuery (blockedUsers (req_user req))) byScoreThenDate
          skip (limit + 1) db with
  | (Some found, db) =>
      let more := (limit <? Z.of_nat (length found)) in
      let postsToReturn := if more then slice0 limit found else found in
      (ok (BPage {| page_posts := postsToReturn; hasMore := Some more;
                    page := page; limit := limit |}), db)
  | (None, db) => (fail 500 "Server error", db)
  end.

(** [deletePost] *)
Definition deletePost (req : Request) (db : Db) : Response * Db :=
  let '(found, db) := Post_findById (params_id req) db in
  match found with
  | None => (fail 404 "Post not found", db)
  | Some post =>
      if bool_decide (user post = user_id (req_user req)) then
        let post := set_isDeleted true post in
        let db := save_isDeleted post db in
        (ok (BMessage "Post deleted"), db)
      else (fail 403 "Not authorized", db)
  end.

(** [trackShare]; the payload is [shareCount] of [{ success, shareCount }]. *)
Definition trackShare (now : Z) (req : Request) (db : Db) : Reply Z * Db :=
  let postId := params_id req in
  let '(found, db) := Post_findOne (likeQuery postId) db in
  match found with
  | None => (Refused 404 "Post not found", db)
  | Some post =>
      let db := incrementShareCount postId 1 db in
      let db := track now (user_id (req_user req)) postId ev_share db in
      (Replied (or0 (shareCount post) + 1), db)
  end.

(** [getPostById]; the payload is the post as it was read. *)
Definition getPostById (now : Z) (req : Request) (db : Db) : Reply FeedPost * Db :=
  let '(found, db) := Post_findOne (likeQuery (params_id req)) db in
  match found with
  | None => (Refused 404 "Post not found", db)
  | Some post =>
      let populated := populate db post in
      let db := touch UsersC db in
      let db := incrementViewCount (_id post) db in
      let db := track now (user_id (req_user req)) (_id post) ev_view db in
      (Replied populated, db)
  end.






(** [{ createdAt: -1 }] *)
Definition byDate (a b : Post) : bool := createdAt b <? createdAt a.

(** The visibilities [getUserPosts] lets the requester see. *)
Definition visibleTo (isOwnProfile isFollowing : bool) (v : Visibility) : bool :=
  if isOwnProfile then true
  else if isFollowing
       then bool_decide (v = public) || bool_decide (v = followers_only)
       else bool_decide (v = public).

(** [getUserPosts]; [params_id] is [req.params.userId]. *)
Definition getUserPosts (req : Request) (db : Db) : Reply (list FeedPost) * Db :=
  let targetUserId := params_id req in
  let isOwnProfile := bool_decide (targetUserId = user_id (req_user req)) in
  let '(isFollowing, db1) :=
    if isOwnProfile then (false, db)
    else
      let '(targetUser, db1) := User_findById targetUserId db in
      (match targetUser with
       | Some t => bool_decide (user_id (req_user req) ∈ followers t)
       | None => false
       end, db1) in
  let query := fun p =>
    bool_decide (user p = targetUserId) && negb (isDeleted p)
    && bool_decide (status p = ready)
    && visibleTo isOwnProfile isFollowing (visibility p) in
  let db2 := touch PostsC db1 in
  (Replied (populate db <$> sortRanked byDate (filter (fun p => query p = true) (posts db))),
   db2).

(** [a] does not rank below [b] under [{ engagementScore: -1 }]. *)
Definition scoreDescending (a b : FeedPost) : Prop :=
  (engagementScore (doc b) <= engagementScore (doc a))%Q.

(** A private post of Alice. *)
Definition alice_private : Post :=
  {| _id := "post-p"; user := "alice"; media := []; visibility := private;
     status := ready; scheduledFor := None; isDeleted := false;
     isReel := false; likeCount := 0; commentCount := 0; shareCount := 0;
     saveCount := 0; viewCount := 0; engagementScore := 0;
     watchTimeSum := 0; completionSum := 0; likes := []; createdAt := 3000 |}.

Definition two_posts_db : Db :=
  {| posts := [alice_post; alice_private]; users := [alice; bob; carol];
     notifications := []; events := []; oplog := [] |}.



(** [a] is not older than [b]. *)
Definition dateDescending (a b : FeedPost) : Prop :=
  createdAt (doc b) <= createdAt (doc a).

(** A legacy body: no unified [media], an [images] array and a [videos]
    array. *)
Definition legacy_body (images : list (option string)) (videos : list VideoInput)
  : CreatePostBody :=
  {| body_media := None; body_images := Some images; body_videos := Some videos;
     body_image := None; body_visibility := None; body_scheduledFor := None |}.

(* ===== Properties ===== *)

(** ** Score engine *)

Lemma or0_id (x : Z) : or0 x = x.
Proof. unfold or0. destruct (Z.eqb_spec x 0); congruence. Qed.

Lemma Qgtb_true (x y : Q) : Qgtb x y = true <-> (y < x)%Q.
Proof.
  unfold Qgtb. rewrite negb_true_iff.
  split; intros H.
  - apply Qnot_le_lt. intros Hle. apply Qle_bool_iff in Hle. congruence.
  - destruct (Qle_bool x y) eqn:E; [|reflexivity].
    apply Qle_bool_iff in E. exfalso. exact (Qlt_not_le _ _ H E).
Qed.

Lemma Qgtb_false (x y : Q) : Qgtb x y = false <-> (x <= y)%Q.
Proof.
  unfold Qgtb. rewrite negb_false_iff. apply Qle_bool_iff.
Qed.

Example scenario_raw : (calculateRawScore scenario_post == 28)%Q.
Proof. vm_compute. reflexivity. Qed.

Example reel_raw : (calculateRawScore reel_post == 99 # 10)%Q.
Proof. vm_compute. reflexivity. Qed.

(** C1. The raw engagement score is
    likeCount*1.0 + commentCount*2.5 + shareCount*4.0 + saveCount*3.0 +
    viewCount*0.1, plus the reel bonus (completionSum/viewCount)*5.0
    exactly when [isReel] holds, [viewCount > 0] and [completionSum > 0];
    in every other case the completion term is 0. *)
Theorem calculateRawScore_formula (post : Post) :
  (calculateRawScore post ==
     inject_Z (likeCount post) * 1.0 + inject_Z (commentCount post) * 2.5
     + inject_Z (shareCount post) * 4.0 + inject_Z (saveCount post) * 3.0
     + inject_Z (viewCount post) * 0.1
     + (if isReel post && (0 <? viewCount post) && Qgtb (completionSum post) 0
        then completionSum post / inject_Z (viewCount post) * 5.0
        else 0))%Q.
Proof.
  unfold calculateRawScore, completionTerm.
  rewrite !or0_id.
  unfold WEIGHTS.like, WEIGHTS.comment, WEIGHTS.share, WEIGHTS.save,
    WEIGHTS.view, WEIGHTS.completion.
  rewrite Qplus_0_l. reflexivity.
Qed.

(** A reel with views and a negative [completionSum] gets no bonus: its
    score is 7.4, where the bonus taken whenever [isReel] holds and
    [viewCount > 0] would give 7.4 - 2.5 = 4.9. *)
Lemma calculateRawScore_negative_completion :
  isReel negative_reel = true /\ (0 < viewCount negative_reel) /\
  (calculateRawScore negative_reel == 7.4)%Q /\
  ~ (calculateRawScore negative_reel ==
       inject_Z (likeCount negative_reel) * 1.0
       + inject_Z (commentCount negative_reel) * 2.5
       + inject_Z (shareCount negative_reel) * 4.0
       + inject_Z (saveCount negative_reel) * 3.0
       + inject_Z (viewCount negative_reel) * 0.1
       + (if isReel negative_reel && (0 <? viewCount negative_reel)
          then completionSum negative_reel / inject_Z (viewCount negative_reel) * 5.0
          else 0))%Q.
Proof.
  split; [reflexivity|]. split; [reflexivity|].
  split; [vm_compute; reflexivity|].
  vm_compute. discriminate.
Qed.

Lemma Q2R_zero : Q2R 0 = 0%R.
Proof. unfold Q2R; simpl; lra. Qed.

Lemma completionTerm_nonneg (post : Post) : (0 <= completionTerm post)%Q.
Proof.
  unfold completionTerm.
  destruct (isReel post && (0 <? viewCount post) && Qgtb (completionSum post) 0)
    eqn:Hguard; [|apply Qle_refl].
  apply andb_prop in Hguard as [Hguard Hcs].
  apply andb_prop in Hguard as [_ Hviews].
  apply Qgtb_true in Hcs. apply Z.ltb_lt in Hviews.
  apply Qmult_le_0_compat; [|discriminate].
  apply Qlt_le_weak, Qlt_shift_div_l.
  - change 0%Q with (inject_Z 0). rewrite <- Zlt_Qlt. exact Hviews.
  - rewrite Qmult_0_l. exact Hcs.
Qed.

Lemma weighted_nonneg (n : Z) (w : Q) :
  0 <= n -> (0 <= w)%Q -> (0 <= inject_Z n * w)%Q.
Proof.
  intros Hn Hw. apply Qmult_le_0_compat; [|exact Hw].
  change 0%Q with (inject_Z 0). rewrite <- Zle_Qle. exact Hn.
Qed.

Lemma calculateRawScore_nonneg (post : Post) :
  nonNegativeCounters post -> (0 <= calculateRawScore post)%Q.
Proof.
  intros (Hl & Hc & Hsh & Hsv & Hv & _ & _).
  unfold calculateRawScore. cbv zeta. rewrite !or0_id.
  pose proof (completionTerm_nonneg post) as Hterm.
  pose proof (weighted_nonneg _ WEIGHTS.like Hl ltac:(discriminate)).
  pose proof (weighted_nonneg _ WEIGHTS.comment Hc ltac:(discriminate)).
  pose proof (weighted_nonneg _ WEIGHTS.share Hsh ltac:(discriminate)).
  pose proof (weighted_nonneg _ WEIGHTS.save Hsv ltac:(discriminate)).
  pose proof (weighted_nonneg _ WEIGHTS.view Hv ltac:(discriminate)).
  set (a := (inject_Z (likeCount post) * _)%Q) in *.
  set (b := (inject_Z (commentCount post) * _)%Q) in *.
  set (c := (inject_Z (shareCount post) * _)%Q) in *.
  set (d := (inject_Z (saveCount post) * _)%Q) in *.
  set (e := (inject_Z (viewCount post) * _)%Q) in *.
  set (t := completionTerm post) in *.
  clearbody a b c d e t. Lqa.lra.
Qed.

Lemma hoursSincePost_nonneg (now createdAt : Z) :
  createdAt <= now -> (0 <= hoursSincePost now createdAt)%R.
Proof.
  intros H. unfold hoursSincePost.
  assert (0 <= IZR (now - createdAt))%R by (apply IZR_le; lia).
  apply Rmult_le_pos; [assumption|].
  apply Rlt_le, Rinv_0_lt_compat. lra.
Qed.

Lemma hoursSincePost_lt (now1 now2 createdAt : Z) :
  now1 < now2 ->
  (hoursSincePost now1 createdAt < hoursSincePost now2 createdAt)%R.
Proof.
  intros H. unfold hoursSincePost.
  apply Rmult_lt_compat_r; [apply Rinv_0_lt_compat; lra|].
  apply IZR_lt. lia.
Qed.

Lemma decayFactor_pos (x : R) : (0 < Rpower x DECAY_EXPONENT)%R.
Proof. unfold Rpower. apply exp_pos. Qed.

Lemma decayFactor_lt (now1 now2 createdAt : Z) :
  createdAt <= now1 -> now1 < now2 ->
  (Rpower (hoursSincePost now1 createdAt + DECAY_OFFSET) DECAY_EXPONENT <
   Rpower (hoursSincePost now2 createdAt + DECAY_OFFSET) DECAY_EXPONENT)%R.
Proof.
  intros Hc Hlt.
  pose proof (hoursSincePost_nonneg _ _ Hc).
  pose proof (hoursSincePost_lt _ _ createdAt Hlt).
  unfold DECAY_OFFSET, DECAY_EXPONENT.
  apply Rlt_Rpower_l; lra.
Qed.

(** The decayed score is the raw score scaled by a positive factor that
    shrinks strictly as the clock advances. *)
Lemma applyTimeDecay_antitone (raw : R) (now1 now2 createdAt : Z) :
  createdAt <= now1 -> now1 < now2 -> (0 <= raw)%R ->
  (0 <= applyTimeDecay now1 raw createdAt)%R /\
  (applyTimeDecay now2 raw createdAt <= applyTimeDecay now1 raw createdAt)%R /\
  ((0 < raw)%R ->
   (applyTimeDecay now2 raw createdAt < applyTimeDecay now1 raw createdAt)%R).
Proof.
  intros Hc Hlt Hraw. unfold applyTimeDecay. cbv zeta.
  pose proof (decayFactor_lt _ _ _ Hc Hlt) as Hd.
  pose proof (decayFactor_pos (hoursSincePost now1 createdAt + DECAY_OFFSET)) as H1.
  pose proof (decayFactor_pos (hoursSincePost now2 createdAt + DECAY_OFFSET)) as H2.
  revert Hd H1 H2.
  generalize (Rpower (hoursSincePost now1 createdAt + DECAY_OFFSET) DECAY_EXPONENT).
  generalize (Rpower (hoursSincePost now2 createdAt + DECAY_OFFSET) DECAY_EXPONENT).
  intros d2 d1 Hd H1 H2.
  assert (Hinv : (/ d2 < / d1)%R)
    by (apply Rinv_lt_contravar; [apply Rmult_lt_0_compat|]; assumption).
  assert (Hi1 : (0 < / d1)%R) by (apply Rinv_0_lt_compat; assumption).
  unfold Rdiv. repeat split.
  - apply Rmult_le_pos; lra.
  - apply Rmult_le_compat_l; lra.
  - intros Hpos. apply Rmult_lt_compat_l; assumption.
Qed.

Lemma decayedScore_zero (now : Z) (post : Post) :
  (calculateRawScore post == 0)%Q -> decayedScore now post = 0%R.
Proof.
  intros Hz. unfold decayedScore, applyTimeDecay, Rdiv. cbv zeta.
  apply Qeq_eqR in Hz. rewrite Hz, Q2R_zero, Rmult_0_l. reflexivity.
Qed.

(** C2, as the code has it.  For non-negative counters and
    [createdAt <= now1 < now2], the decayed score is non-negative and does
    not increase from [now1] to [now2]; it decreases strictly exactly when
    the raw score is positive, and stays 0 when the raw score is 0. *)
Theorem decayedScore_decreasing (post : Post) (now1 now2 : Z) :
  nonNegativeCounters post -> createdAt post <= now1 -> now1 < now2 ->
  (0 <= decayedScore now1 post)%R /\
  (decayedScore now2 post <= decayedScore now1 post)%R /\
  ((0 < calculateRawScore post)%Q ->
   (decayedScore now2 post < decayedScore now1 post)%R) /\
  ((calculateRawScore post == 0)%Q ->
   decayedScore now2 post = decayedScore now1 post).
Proof.
  intros Hnn Hc Hlt. unfold decayedScore. cbv zeta.
  assert (Hraw : (0 <= Q2R (calculateRawScore post))%R).
  { rewrite <- Q2R_zero. apply Qle_Rle, calculateRawScore_nonneg, Hnn. }
  destruct (applyTimeDecay_antitone _ _ _ _ Hc Hlt Hraw) as (H0 & Hle & Hstrict).
  repeat split; try assumption.
  - intros Hpos. apply Hstrict. rewrite <- Q2R_zero. apply Qlt_Rlt, Hpos.
  - intros Hz. pose proof (decayedScore_zero now1 post Hz) as E1.
    pose proof (decayedScore_zero now2 post Hz) as E2.
    unfold decayedScore in E1, E2. cbv zeta in E1, E2. congruence.
Qed.

Lemma nonNegativeCounters_blank : nonNegativeCounters blank_post.
Proof. unfold nonNegativeCounters; cbn. repeat split; (lia || discriminate). Qed.

Lemma nonNegativeCounters_scenario : nonNegativeCounters scenario_post.
Proof. unfold nonNegativeCounters; cbn. repeat split; (lia || discriminate). Qed.

Lemma decayedScore_decreasing_witness :
  (0 <= decayedScore 3600000 scenario_post)%R /\
  (decayedScore 7200000 scenario_post < decayedScore 3600000 scenario_post)%R.
Proof.
  destruct (decayedScore_decreasing scenario_post 3600000 7200000
              nonNegativeCounters_scenario ltac:(cbn; lia) ltac:(lia))
    as (H0 & _ & Hstrict & _).
  split; [exact H0|]. apply Hstrict. vm_compute. reflexivity.
Defined.

(** C2 as stated fails on a post nobody has engaged with: all its counters
    are 0, its decayed score is 0 at every instant, so it does not decrease
    strictly. *)
Lemma decayedScore_not_strict :
  nonNegativeCounters blank_post /\ createdAt blank_post <= 0 /\ 0 < 3600000 /\
  ~ (decayedScore 3600000 blank_post < decayedScore 0 blank_post)%R.
Proof.
  split; [exact nonNegativeCounters_blank|].
  split; [cbn; lia|]. split; [lia|].
  rewrite !decayedScore_zero by (vm_compute; reflexivity).
  apply Rlt_irrefl.
Qed.

(** ** The posts collection *)


Lemma findById_updateOne_eq (id : ObjectId) (f : Post -> Post) (docs : list Post) :
  (forall p, _id (f p) = _id p) ->
  findById id (updateOne id f docs) = f <$> findById id docs.
Proof.
  intros Hf. induction docs as [|p rest IH]; [reflexivity|].
  cbn [updateOne findById]. destruct (decide (_id p = id)) as [E|N].
  - cbn [findById]. rewrite Hf. rewrite decide_True by exact E. reflexivity.
  - cbn [findById]. rewrite decide_False by exact N. exact IH.
Qed.

Lemma findById_updateOne_ne (id id' : ObjectId) (f : Post -> Post) (docs : list Post) :
  (forall p, _id (f p) = _id p) -> id' <> id ->
  findById id (updateOne id' f docs) = findById id docs.
Proof.
  intros Hf Hne. induction docs as [|p rest IH]; [reflexivity|].
  cbn [updateOne findById]. destruct (decide (_id p = id')) as [E|N].
  - cbn [findById]. rewrite Hf.
    rewrite !decide_False by congruence. reflexivity.
  - cbn [findById]. destruct (decide (_id p = id)); [reflexivity|exact IH].
Qed.

Lemma findById_elem (docs : list Post) (post : Post) :
  NoDup (_id <$> docs) -> post ∈ docs -> findById (_id post) docs = Some post.
Proof.
  induction docs as [|p rest IH]; intros Hnd Hin.
  - inversion Hin.
  - rewrite fmap_cons in Hnd. apply NoDup_cons in Hnd as [Hfresh Hnd].
    cbn [findById]. apply elem_of_cons in Hin as [->|Hin].
    + rewrite decide_True by reflexivity. reflexivity.
    + rewrite decide_False; [exact (IH Hnd Hin)|].
      intros E. apply Hfresh. rewrite E. apply list_elem_of_fmap. eauto.
Qed.

(** ** The scoring batch job *)

Lemma bulkWrite_app (ops1 ops2 : list BulkOp) (docs : list Post) :
  bulkWrite (ops1 ++ ops2) docs = bulkWrite ops2 (bulkWrite ops1 docs).
Proof. unfold bulkWrite. apply foldl_app. Qed.



(** The operation the job queues for one post. *)
Section ScoringJob.
Context (writes : list BulkOp -> WriteOutcome).
Hypothesis writes_go_through : forall ops, writes ops = Written.

Lemma scoreOne_pending (batch : nat) (clock : Post -> Z) (run : JobRun) (post : Post) :
  bulkWrite (bulkOps (scoreOne writes batch clock run post))
            (collection (scoreOne writes batch clock run post))
  = bulkWrite (bulkOps run ++ [{| filter_id := _id post; set_value := storedScore (clock post) post |}])
              (collection run).
Proof.
  unfold scoreOne. cbv zeta. rewrite writes_go_through.
  destruct (batch <=? length _)%nat; reflexivity.
Qed.

(** Batching is transparent: the job's writes amount to one [bulkWrite] of
    the operations of all the posts the cursor yields, in order. *)
Lemma scoring_loop_writes (batch : nat) (clock : Post -> Z) (cursor : list Post) (run : JobRun) :
  let run' := foldl (scoreOne writes batch clock) run cursor in
  bulkWrite (bulkOps run') (collection run')
  = bulkWrite (bulkOps run ++
               ((fun post => {| filter_id := _id post; set_value := storedScore (clock post) post |})
                  <$> cursor))
              (collection run).
Proof.
  revert run. induction cursor as [|post cursor IH]; intros run; cbn [foldl fmap list_fmap].
  - rewrite app_nil_r. reflexivity.
  - cbv zeta in IH. rewrite IH. rewrite !bulkWrite_app.
    rewrite scoreOne_pending. rewrite bulkWrite_app. reflexivity.
Qed.

Lemma scoring_loop_counts (batch : nat) (clock : Post -> Z) (cursor : list Post) (run : JobRun) :
  let run' := foldl (scoreOne writes batch clock) run cursor in
  (processed run' + length (bulkOps run')
   = processed run + length (bulkOps run) + length cursor)%nat /\
  errors run' = errors run.
Proof.
  revert run. induction cursor as [|post cursor IH]; intros run; cbn [foldl length].
  - split; [lia|reflexivity].
  - cbv zeta in IH. destruct (IH (scoreOne writes batch clock run post)) as [Hc He].
    rewrite Hc, He. unfold scoreOne. cbv zeta. rewrite writes_go_through.
    destruct (batch <=? _)%nat; cbn [processed bulkOps errors length];
      rewrite ?length_app; cbn [length]; split; (lia || reflexivity).
Qed.

Lemma flushRemaining_completed (run : JobRun) :
  exists run',
    flushRemaining writes run = Completed run' /\
    collection run' = bulkWrite (bulkOps run) (collection run) /\
    processed run' = (processed run + length (bulkOps run))%nat /\
    errors run' = errors run.
Proof.
  unfold flushRemaining. destruct (bulkOps run) as [|op ops] eqn:Hops.
  - exists run. cbn. repeat split; lia.
  - rewrite writes_go_through. eexists. split; [reflexivity|].
    cbn [collection processed errors]. repeat split.
Qed.

(** When every write goes through, the job completes, and what it leaves
    is one [bulkWrite] of the operations of the matched posts. *)
Lemma computeEngagementScores_completed (daysBefore : Z -> Z -> Z)
    (clock : Post -> Z) (options : Options) (now : Z) (docs : list Post) :
  let cursor :=
    filter (fun p => scoringQuery (cutoffDate daysBefore now (maxAge options)) p = true)
      docs in
  exists run,
    computeEngagementScores writes daysBefore clock options now docs = Completed run /\
    collection run
    = bulkWrite
        ((fun post => {| filter_id := _id post; set_value := storedScore (clock post) post |})
           <$> cursor)
        docs /\
    processed run = length cursor /\
    errors run = 0%nat.
Proof.
  cbv zeta. unfold computeEngagementScores. cbv zeta.
  set (cursor := filter _ docs).
  set (start := {| bulkOps := []; processed := 0; errors := 0; collection := docs |}).
  destruct (flushRemaining_completed (foldl (scoreOne writes (batchSize options) clock) start cursor))
    as (run & Hrun & Hcoll & Hproc & Herr).
  exists run. split; [exact Hrun|].
  pose proof (scoring_loop_writes (batchSize options) clock cursor start) as Hw.
  destruct (scoring_loop_counts (batchSize options) clock cursor start) as [Hc He].
  cbv zeta in Hw, Hc, He.
  split; [rewrite Hcoll; exact Hw|].
  split.
  - rewrite Hproc.
    change (processed start) with 0%nat in Hc.
    change (bulkOps start) with (@nil BulkOp) in Hc.
    cbn [length] in Hc. lia.
  - rewrite Herr. exact He.
Qed.
End ScoringJob.

Lemma NoDup_ids_filter (P : Post -> Prop) `{forall p, Decision (P p)} (docs : list Post) :
  NoDup (_id <$> docs) -> NoDup (_id <$> filter P docs).
Proof.
  intros Hnd. apply (sublist_NoDup _ _ Hnd).
  apply fmap_sublist, sublist_filter.
Qed.


Lemma Q2R_hundredths (k : Z) : Q2R (inject_Z k / 100) = (IZR k / 100)%R.
Proof.
  rewrite Q2R_div by discriminate.
  unfold Q2R; cbn. lra.
Qed.




Lemma Rpower_4_decay : Rpower 4 DECAY_EXPONENT = 8%R.
Proof.
  unfold DECAY_EXPONENT.
  replace (3 / 2)%R with (1 + / 2)%R by lra.
  rewrite Rpower_plus, Rpower_1, Rpower_sqrt by lra.
  replace 4%R with (2 * 2)%R at 2 by lra.
  rewrite sqrt_square by lra. lra.
Qed.

Lemma decayedScore_liked_once : decayedScore 7200000 liked_once = (1 / 8)%R.
Proof.
  unfold decayedScore, applyTimeDecay, hoursSincePost, DECAY_OFFSET. cbv zeta.
  assert (Hraw : Q2R (calculateRawScore liked_once) = 1%R).
  { rewrite (Qeq_eqR _ 1) by (vm_compute; reflexivity).
    unfold Q2R. cbn [Qnum Qden]. rewrite Rinv_1. lra. }
  rewrite Hraw.
  change (7200000 - createdAt liked_once) with 7200000.
  replace (IZR 7200000 / (1000 * 60 * 60) + 2)%R with 4%R by lra.
  rewrite Rpower_4_decay. reflexivity.
Qed.

(** The rounding is lossy and the bound is met: a post with one like, two
    hours old, has decayed score 0.125 and is stored with 0.13. *)
Example storedScore_lossy :
  decayedScore 7200000 liked_once = (125 / 1000)%R /\
  storedScore 7200000 liked_once = (inject_Z 13 / 100)%Q /\
  (Q2R (storedScore 7200000 liked_once) - decayedScore 7200000 liked_once
   = 5 / 1000)%R.
Proof.
  assert (Hround : Math_round (decayedScore 7200000 liked_once * 100) = 13).
  { rewrite decayedScore_liked_once. unfold Math_round.
    symmetry. apply Int_part_spec. lra. }
  assert (Hst : storedScore 7200000 liked_once = (inject_Z 13 / 100)%Q).
  { unfold storedScore. cbv zeta. rewrite Hround. reflexivity. }
  split; [rewrite decayedScore_liked_once; lra|].
  split; [exact Hst|].
  rewrite Hst, Q2R_hundredths, decayedScore_liked_once. lra.
Qed.

(** ** Cache service *)

Section CacheFacts.
Context {D : Type}.
Implicit Types (cache : Cache D) (key : string).

Lemma get_memory now key cache :
  isRedisConnected cache = false -> get now key cache = memoryGet now key cache.
Proof. intros H. unfold get, connectedRedis. rewrite H. reflexivity. Qed.

Lemma set_memory now key (value : Value D) ttl cache :
  isRedisConnected cache = false ->
  set now key value ttl cache = memorySet now key (JSON_stringify value) ttl cache.
Proof. intros H. unfold set, connectedRedis. rewrite H. reflexivity. Qed.

Lemma memoryGet_connected now key cache :
  isRedisConnected (memoryGet now key cache).2 = isRedisConnected cache.
Proof. unfold memoryGet. cbv zeta. destruct (expired _ _); reflexivity. Qed.

Lemma memoryGet_stored_null now key cache :
  stored key cache = Null ->
  (memoryGet now key cache).1 = Null /\
  stored key (memoryGet now key cache).2 = Null.
Proof.
  intros Hs. unfold memoryGet. cbv zeta.
  destruct (expired _ _); cbn [fst snd].
  - split; [reflexivity|]. unfold stored. cbn [memoryCache].
    rewrite lookup_delete_eq. reflexivity.
  - split; exact Hs.
Qed.

Lemma memoryGet_live now key cache (text : option (JsonText D)) (e : Z) :
  memoryCache cache !! key = Some text ->
  memoryCacheTTL cache !! key = Some e ->
  now <= e ->
  memoryGet now key cache = (parseOrNull text, cache).
Proof.
  intros Hm Ht Hle. unfold memoryGet. cbv zeta. rewrite Ht, Hm.
  unfold expired. replace (e <? now) with false by (symmetry; apply Z.ltb_ge; lia).
  rewrite andb_false_r. reflexivity.
Qed.

Lemma memoryGet_expired now key cache (e : Z) :
  memoryCacheTTL cache !! key = Some e -> e <> 0 -> e < now ->
  (memoryGet now key cache).1 = Null.
Proof.
  intros Ht Hnz Hlt. unfold memoryGet. cbv zeta. rewrite Ht.
  unfold expired.
  replace (e =? 0) with false by (symmetry; apply Z.eqb_neq; exact Hnz).
  replace (e <? now) with true by (symmetry; apply Z.ltb_lt; exact Hlt).
  reflexivity.
Qed.

End CacheFacts.

(** *** [cached] over both stores *)

Section CachedFacts.
Context {D W : Type}.
Context (holds : RedisClient D -> gmap string (option (JsonText D) * Z) -> Prop).
Implicit Types (cache : Cache D) (key : string) (fn : W -> Value D * W).

Lemma get_unconnected now key cache :
  connectedRedis cache = None -> get now key cache = memoryGet now key cache.
Proof. intros H. unfold get. rewrite H. reflexivity. Qed.

Lemma set_unconnected now key (value : Value D) ttl cache :
  connectedRedis cache = None ->
  set now key value ttl cache = memorySet now key (JSON_stringify value) ttl cache.
Proof. intros H. unfold set. rewrite H. reflexivity. Qed.

Lemma memoryGet_redis now key cache :
  connectedRedis (memoryGet now key cache).2 = connectedRedis cache.
Proof. unfold memoryGet. cbv zeta. destruct (expired _ _); reflexivity. Qed.

Lemma get_redis now key cache :
  connectedRedis (get now key cache).2 = connectedRedis cache.
Proof.
  unfold get. destruct (connectedRedis cache) as [client|] eqn:Hc.
  - destruct (redis_get client now key); [exact Hc|].
    rewrite memoryGet_redis. exact Hc.
  - rewrite memoryGet_redis. exact Hc.
Qed.

Lemma connectedRedis_flag cache client :
  connectedRedis cache = Some client -> isRedisConnected cache = true.
Proof. unfold connectedRedis. destruct (isRedisConnected cache); [reflexivity|discriminate]. Qed.

(** A miss runs the callback once and stores its result. *)
Lemma cached_on_miss tGet tSet key fn ttl cache (n : nat) (w : W) :
  (get tGet key cache).1 = Null ->
  cached tGet tSet key (counted fn) ttl (cache, (n, w))
  = ((fn w).1, (set tSet key (fn w).1 ttl (get tGet key cache).2, (S n, (fn w).2))).
Proof.
  intros Hmiss. unfold cached.
  destruct (get tGet key cache) as [hit cache'].
  cbn [fst snd] in *. subst hit.
  unfold counted. cbn [fst snd]. destruct (fn w) as [result w']. reflexivity.
Qed.

(** A hit returns what was read and leaves the callback's world alone. *)
Lemma cached_on_hit tGet tSet key fn ttl cache (cw : nat * W) (d : D) :
  get tGet key cache = (Data d, cache) ->
  cached tGet tSet key (counted fn) ttl (cache, cw) = (Data d, (cache, cw)).
Proof. intros Hget. unfold cached. rewrite Hget. reflexivity. Qed.

(** A read of a key under which neither store has data is a miss, and
    leaves it so. *)
Lemma get_uncached now key cache :
  uncached holds key cache ->
  (get now key cache).1 = Null /\ uncached holds key (get now key cache).2.
Proof.
  intros [Hstored Hredis].
  assert (Hmem : (memoryGet now key cache).1 = Null /\
                 uncached holds key (memoryGet now key cache).2).
  { destruct (memoryGet_stored_null now key cache Hstored) as [Hnull Hstored'].
    split; [exact Hnull|]. split; [exact Hstored'|].
    intros client. rewrite memoryGet_redis. apply Hredis. }
  unfold get. destruct (connectedRedis cache) as [client|] eqn:Hc; [|exact Hmem].
  destruct (redis_get client now key) as [reply|] eqn:Hreply; [|exact Hmem].
  cbn [fst snd]. split.
  - destruct (Hredis client eq_refl) as (Hspec & contents & Hholds & Hnodata).
    rewrite (redis_get_reply holds Hspec _ _ _ _ _ Hholds Hreply). apply Hnodata.
  - split; [exact Hstored|]. rewrite Hc. exact Hredis.
Qed.

(** Writing [null] under such a key leaves it so, whichever store takes
    the write. *)
Lemma set_null_uncached now key (value : Value D) ttl cache :
  parseOrNull (JSON_stringify value) = Null ->
  uncached holds key cache ->
  uncached holds key (set now key value ttl cache).
Proof.
  intros Hvalue [Hstored Hredis].
  assert (Hmem : uncached holds key (memorySet now key (JSON_stringify value) ttl cache)).
  { split.
    - unfold stored, memorySet. cbn [memoryCache]. rewrite lookup_insert_eq. exact Hvalue.
    - exact Hredis. }
  unfold set. cbv zeta.
  destruct (connectedRedis cache) as [client|] eqn:Hc; [|exact Hmem].
  destruct (redis_setex client now key ttl (JSON_stringify value)) as [client'|] eqn:Hsetex;
    [|exact Hmem].
  destruct (Hredis client eq_refl) as (Hspec & contents & Hholds & Hnodata).
  destruct (redis_setex_reply holds Hspec _ _ _ _ _ _ _ Hholds Hsetex) as [_ Hholds'].
  split; [exact Hstored|].
  intros client0. unfold connectedRedis. cbn [isRedisConnected redis].
  rewrite (connectedRedis_flag cache client Hc). intros [= <-].
  split; [exact Hspec|].
  exists (<[key := (JSON_stringify value, now + ttl * 1000)]> contents).
  split; [exact Hholds'|].
  intros t. unfold redisReply. rewrite lookup_insert_eq.
  destruct (t <? now + ttl * 1000); [exact Hvalue|reflexivity].
Qed.

(** While the callback answers [null], every call is a miss. *)
Lemma cachedRepeatedly_uncached times key fn ttl cache (n : nat) (w : W) :
  (forall w, (fn w).1 = Null) ->
  uncached holds key cache ->
  let run := cachedRepeatedly times key (counted fn) ttl (cache, (n, w)) in
  run.1 = replicate (length times) Null /\
  run.2.2.1 = (n + length times)%nat.
Proof.
  revert cache n w. induction times as [|[tGet tSet] times IH];
    intros cache n w Hnull Hun; cbv zeta.
  - cbn. split; [reflexivity|lia].
  - cbn [cachedRepeatedly].
    destruct (get_uncached tGet key cache Hun) as [Hmiss Hun'].
    rewrite (cached_on_miss tGet tSet key fn ttl cache n w Hmiss).
    rewrite Hnull.
    set (cache' := set tSet key Null ttl _).
    specialize (IH cache' (S n) (fn w).2 Hnull).
    cbv zeta in IH.
    destruct (cachedRepeatedly times key (counted fn) ttl (cache', (S n, (fn w).2)))
      as [results st] eqn:Hrun.
    cbn [fst snd length replicate] in *.
    destruct IH as [IH1 IH2].
    + subst cache'. apply set_null_uncached; [reflexivity|exact Hun'].
    + split; [congruence|lia].
Qed.

(** After a first read that misses in the in-process store and a write of
    [null], neither store has data. *)
Lemma uncached_after_miss tGet tSet key ttl cache :
  connectedRedis cache = None ->
  uncached holds key (set tSet key Null ttl (get tGet key cache).2).
Proof.
  intros Hc.
  assert (Hc' : connectedRedis (get tGet key cache).2 = None)
    by (rewrite get_redis; exact Hc).
  rewrite set_unconnected by exact Hc'.
  split.
  - unfold stored, memorySet. cbn [memoryCache]. rewrite lookup_insert_eq. reflexivity.
  - intros client. change (connectedRedis (memorySet tSet key (JSON_stringify Null) ttl
                                             (get tGet key cache).2))
      with (connectedRedis (get tGet key cache).2).
    rewrite Hc'. discriminate.
Qed.
End CachedFacts.

Lemma redisServer_isRedis {D : Type} : isRedis (@serves D).
Proof.
  split.
  - intros client contents now key reply [writes ->] Hreply.
    destruct writes as [|n]; cbn in Hreply; congruence.
  - intros client contents now key ttl text client' [writes ->] Hsetex.
    destruct writes as [|n]; cbn in Hsetex; [discriminate|].
    destruct (Z.ltb_spec 0 ttl) as [Hpos|_]; [|discriminate].
    injection Hsetex as <-. split; [exact Hpos|]. exists n. reflexivity.
Qed.

Lemma redisReadOnly_isRedis {D : Type} :
  isRedis (fun (client : RedisClient D) contents => client = redisReadOnly /\ contents = ∅).
Proof.
  split.
  - intros client contents now key reply [-> ->] Hreply.
    cbn in Hreply. injection Hreply as <-. unfold redisReply.
    rewrite lookup_empty. reflexivity.
  - intros client contents now key ttl text client' [-> ->] Hsetex. discriminate.
Qed.

(** C10, as the code has it.  When [computeFn] answers [null], a call of
    [cached] that misses returns [null] and establishes no hit, whichever
    store serves the calls.  Start from a key under which no store has
    data: the in-process store serves and the first read misses, or Redis
    is connected and neither Redis nor the in-process fallback has data
    under the key.  Then however many calls for the same key follow, at
    whatever clock readings (also within the TTL window), and whether the
    Redis commands answer or throw, each call returns [null] and runs
    [computeFn] again. *)
Theorem cached_null_never_hits {D W : Type}
    (holds : RedisClient D -> gmap string (option (JsonText D) * Z) -> Prop)
    (key : string) (fn : W -> Value D * W) (ttl : Z) (cache : Cache D) (w : W)
    (tGet tSet : Z) (times : list (Z * Z)) :
  (forall w, (fn w).1 = Null) ->
  (connectedRedis cache = None /\ (get tGet key cache).1 = Null) \/
  uncached holds key cache ->
  let run :=
    cachedRepeatedly ((tGet, tSet) :: times) key (counted fn) ttl (cache, (0%nat, w)) in
  run.1 = replicate (S (length times)) Null /\
  run.2.2.1 = S (length times).
Proof.
  intros Hnull Hstart. cbv zeta.
  assert (Hfirst : (get tGet key cache).1 = Null /\
                   uncached holds key (set tSet key Null ttl (get tGet key cache).2)).
  { destruct Hstart as [[Hc Hmiss]|Hun].
    - split; [exact Hmiss|]. apply uncached_after_miss, Hc.
    - destruct (get_uncached holds tGet key cache Hun) as [Hmiss Hun'].
      split; [exact Hmiss|]. apply set_null_uncached; [reflexivity|exact Hun']. }
  destruct Hfirst as [Hmiss Hun].
  cbn [cachedRepeatedly].
  rewrite (cached_on_miss tGet tSet key fn ttl cache 0 w Hmiss).
  rewrite Hnull.
  set (cache' := set tSet key Null ttl _) in *.
  destruct (cachedRepeatedly_uncached holds times key fn ttl cache' 1 (fn w).2 Hnull Hun)
    as [H1 H2].
  destruct (cachedRepeatedly times key (counted fn) ttl (cache', (1%nat, (fn w).2)))
    as [results st].
  cbn [fst snd replicate] in *. split; [congruence|lia].
Qed.

(** Three calls against a Redis that takes two writes and then loses its
    connection: the third call is served by the in-process store. *)
Lemma cached_null_never_hits_witness :
  let run :=
    cachedRepeatedly [(1000, 1000); (2000, 2000); (3000, 3000)] "feed:explore:1"
      (counted alwaysNull) 300 (redisCache (redisServer 2 ∅), (0%nat, tt)) in
  run.1 = [Null; Null; Null] /\ run.2.2.1 = 3%nat.
Proof.
  apply (cached_null_never_hits serves "feed:explore:1" alwaysNull 300
           (redisCache (redisServer 2 ∅)) tt 1000 1000 [(2000, 2000); (3000, 3000)]).
  - intros w. reflexivity.
  - right. split; [reflexivity|].
    intros client [= <-]. split; [exact redisServer_isRedis|].
    exists ∅. split; [exists 2%nat; reflexivity|].
    intros now. reflexivity.
Defined.

(** With the in-process store alone the same three calls go the same
    way. *)
Example cached_null_in_process :
  let run :=
    cachedRepeatedly [(1000, 1000); (2000, 2000); (3000, 3000)] "feed:explore:1"
      (counted alwaysNull) 300 (emptyCache, (0%nat, tt)) in
  run.1 = [Null; Null; Null] /\ run.2.2.1 = 3%nat.
Proof. vm_compute. split; reflexivity. Qed.

(** C10 as stated fails when the fallback store has an older entry: the
    first call is served by Redis, misses and runs [computeFn], which
    answers [null]; the second call, within the TTL window, finds Redis
    gone, reads the in-process store and returns the older entry without
    running [computeFn]. *)
Lemma cached_null_then_stale_hit :
  let run :=
    cachedRepeatedly [(1000, 1000); (2000, 2000)] "feed:explore:1"
      (counted alwaysNull) 300 (staleCache, (0%nat, tt)) in
  2000 <= 1000 + 300 * 1000 /\
  run.1 = [Null; Data 7] /\ run.2.2.1 = 1%nat.
Proof. vm_compute. repeat split; discriminate. Qed.

(** C5, as the code has it.  Let one store serve the calls: the
    in-process store, or a connected Redis whose [SETEX] of the first call
    and whose [GET]s of the later calls answer.  Let a first call of
    [cached] miss and let [computeFn] answer with a value that
    [JSON.stringify] renders as a text other than [null]: not [null],
    [undefined], [NaN], an infinity or a function.  The entry is stored at
    clock reading [tSet] and expires at [tSet + ttl * 1000].  Then a
    second call that reads the cache before the expiry (in the in-process
    store: no later than the expiry, which is an instant other than 0)
    returns the stored value, the result as JSON reads it back, without
    running [computeFn] (one run in total), and a third call that reads the
    cache after the expiry (on Redis: at the expiry or later) runs
    [computeFn] again (two runs in total). *)
Theorem cached_once_within_ttl {D W : Type}
    (holds : RedisClient D -> gmap string (option (JsonText D) * Z) -> Prop)
    (key : string) (fn : W -> Value D * W) (ttl : Z) (cache : Cache D) (w : W)
    (tGet tSet tGet2 tSet2 tGet3 tSet3 : Z) (d : D) :
  (get tGet key cache).1 = Null ->
  JSON_stringify (fn w).1 = Some (TData d) ->
  (connectedRedis cache = None /\
   tSet + ttl * 1000 <> 0 /\ tGet2 <= tSet + ttl * 1000 /\ tSet + ttl * 1000 < tGet3) \/
  (servedByRedis holds key (Some (TData d)) ttl tSet tGet2 tGet3 cache /\
   tGet2 < tSet + ttl * 1000 /\ tSet + ttl * 1000 <= tGet3) ->
  let first := cached tGet tSet key (counted fn) ttl (cache, (0%nat, w)) in
  let second := cached tGet2 tSet2 key (counted fn) ttl first.2 in
  let third := cached tGet3 tSet3 key (counted fn) ttl second.2 in
  first.1 = (fn w).1 /\ first.2.2.1 = 1%nat /\
  second.1 = Data d /\ second.2 = first.2 /\
  third.2.2.1 = 2%nat.
Proof.
  intros Hmiss Hdata Hstore. cbv zeta.
  rewrite (cached_on_miss tGet tSet key fn ttl cache 0 w Hmiss).
  cbn [fst snd].
  set (cache0 := (get tGet key cache).2).
  set (cache1 := set tSet key (fn w).1 ttl cache0).
  assert (Hreads :
            get tGet2 key cache1 = (Data d, cache1) /\ (get tGet3 key cache1).1 = Null).
  { destruct Hstore as [(Hc & Hnz & Hin & Hout)|[Hredis [Hin Hout]]].
    - assert (Hc0 : connectedRedis cache0 = None)
        by (subst cache0; rewrite get_redis; exact Hc).
      assert (Hset : cache1 = memorySet tSet key (Some (TData d)) ttl cache0).
      { subst cache1. rewrite set_unconnected by exact Hc0. rewrite Hdata. reflexivity. }
      assert (Hc1 : connectedRedis cache1 = None) by (rewrite Hset; exact Hc0).
      assert (Hm : memoryCache cache1 !! key = Some (Some (TData d))).
      { rewrite Hset. cbn [memorySet memoryCache]. apply lookup_insert_eq. }
      assert (Ht : memoryCacheTTL cache1 !! key = Some (tSet + ttl * 1000)).
      { rewrite Hset. cbn [memorySet memoryCacheTTL]. apply lookup_insert_eq. }
      rewrite !get_unconnected by exact Hc1. split.
      + exact (memoryGet_live tGet2 key cache1 _ _ Hm Ht Hin).
      + exact (memoryGet_expired tGet3 key cache1 _ Ht Hnz Hout).
    - destruct Hredis as (client & contents & client1 & Hc & Hspec & Hholds & Hsetex
                          & [reply2 Hget2] & [reply3 Hget3]).
      assert (Hc0 : connectedRedis cache0 = Some client)
        by (subst cache0; rewrite get_redis; exact Hc).
      assert (Hc1 : connectedRedis cache1 = Some client1).
      { subst cache1. unfold set. cbv zeta. rewrite Hc0, Hdata, Hsetex.
        unfold connectedRedis. cbn [isRedisConnected redis].
        rewrite (connectedRedis_flag cache0 client Hc0). reflexivity. }
      destruct (redis_setex_reply holds Hspec _ _ _ _ _ _ _ Hholds Hsetex) as [_ Hholds1].
      apply (redis_get_reply holds Hspec _ _ _ _ _ Hholds1) in Hget2 as Hr2.
      apply (redis_get_reply holds Hspec _ _ _ _ _ Hholds1) in Hget3 as Hr3.
      unfold redisReply in Hr2, Hr3. rewrite lookup_insert_eq in Hr2, Hr3.
      replace (tGet2 <? tSet + ttl * 1000) with true in Hr2
        by (symmetry; apply Z.ltb_lt; exact Hin).
      replace (tGet3 <? tSet + ttl * 1000) with false in Hr3
        by (symmetry; apply Z.ltb_ge; exact Hout).
      unfold get. rewrite Hc1, Hget2, Hget3, Hr2, Hr3. split; reflexivity. }
  destruct Hreads as [Hhit Hgone].
  rewrite (cached_on_hit tGet2 tSet2 key fn ttl cache1 (1%nat, (fn w).2) d Hhit).
  cbn [fst snd].
  rewrite (cached_on_miss tGet3 tSet3 key fn ttl cache1 1 (fn w).2 Hgone).
  cbn [fst snd]. repeat split; reflexivity.
Qed.

(** The three calls against a Redis that answers. *)
Lemma cached_once_within_ttl_witness :
  let first := cached 1000 1000 "feed:explore:1" (counted always42) 300
                 (redisCache (redisServer 3 ∅), (0%nat, tt)) in
  let second := cached 2000 2000 "feed:explore:1" (counted always42) 300 first.2 in
  let third := cached 400000 400000 "feed:explore:1" (counted always42) 300 second.2 in
  first.1 = Data 42 /\ first.2.2.1 = 1%nat /\
  second.1 = Data 42 /\ second.2 = first.2 /\
  third.2.2.1 = 2%nat.
Proof.
  apply (cached_once_within_ttl serves "feed:explore:1" always42 300
           (redisCache (redisServer 3 ∅)) tt 1000 1000 2000 2000 400000 400000 42).
  - reflexivity.
  - reflexivity.
  - right. split; [|lia].
    exists (redisServer 3 ∅), ∅,
      (redisServer 2 (<["feed:explore:1" := (Some (TData 42), 1000 + 300 * 1000)]> ∅)).
    split; [reflexivity|]. split; [exact redisServer_isRedis|].
    split; [exists 3%nat; reflexivity|].
    split; [reflexivity|]. split; eexists; reflexivity.
Defined.

(** With the in-process store alone the same three calls go the same
    way. *)
Example cached_once_in_process :
  let first := cached 1000 1000 "feed:explore:1" (counted always42) 300
                 (emptyCache, (0%nat, tt)) in
  let second := cached 2000 2000 "feed:explore:1" (counted always42) 300 first.2 in
  let third := cached 400000 400000 "feed:explore:1" (counted always42) 300 second.2 in
  first.1 = Data 42 /\ first.2.2.1 = 1%nat /\
  second.1 = Data 42 /\ second.2.2.1 = 1%nat /\
  third.2.2.1 = 2%nat.
Proof. vm_compute. repeat split; reflexivity. Qed.

(** C5 as stated fails for a callback that answers [null]: two calls
    within the TTL window run it twice. *)
Lemma cached_twice_runs_null_twice :
  let first := cached 1000 1000 "feed:explore:1" (counted alwaysNull) 300
                 (emptyCache, (0%nat, tt)) in
  let second := cached 2000 2000 "feed:explore:1" (counted alwaysNull) 300 first.2 in
  2000 <= 1000 + 300 * 1000 /\ first.2.2.1 = 1%nat /\ second.2.2.1 = 2%nat.
Proof. vm_compute. repeat split; discriminate. Qed.

(** The same happens for a callback that answers [NaN], which is stored
    as the text [null]. *)
Example cached_twice_runs_nan_twice :
  let first := cached 1000 1000 "feed:explore:1" (counted alwaysNaN) 300
                 (emptyCache, (0%nat, tt)) in
  let second := cached 2000 2000 "feed:explore:1" (counted alwaysNaN) 300 first.2 in
  2000 <= 1000 + 300 * 1000 /\ first.2.2.1 = 1%nat /\ second.2.2.1 = 2%nat.
Proof. vm_compute. repeat split; discriminate. Qed.

(** It also happens, for a callback that answers data, when the stores
    change between the write and the read: a connected Redis that refuses
    the write sends the entry to the in-process store, and the second call
    asks Redis, which has nothing. *)
Example cached_twice_runs_store_switch :
  let first := cached 1000 1000 "feed:explore:1" (counted always42) 300
                 (redisCache redisReadOnly, (0%nat, tt)) in
  let second := cached 2000 2000 "feed:explore:1" (counted always42) 300 first.2 in
  2000 <= 1000 + 300 * 1000 /\ first.1 = Data 42 /\
  first.2.2.1 = 1%nat /\ second.2.2.1 = 2%nat.
Proof. vm_compute. repeat split; discriminate. Qed.

(** ** Feed handlers *)

Lemma filterBlocked_unblocked (blockedIds : list ObjectId) (l kept : list FeedPost) :
  filterBlocked blockedIds l = Some kept ->
  forall p, p ∈ kept ->
    p ∈ l /\ exists a, author p = Some a /\ summary_id a ∉ blockedIds.
Proof.
  revert kept. induction l as [|q rest IH]; intros kept Hf p Hin.
  - cbn in Hf. injection Hf as <-. inversion Hin.
  - cbn [filterBlocked] in Hf. destruct (author q) as [a|] eqn:Ha; [|discriminate].
    destruct (filterBlocked blockedIds rest) as [kept'|]; [|discriminate].
    cbn in Hf. injection Hf as <-.
    destruct (bool_decide (summary_id a ∈ blockedIds)) eqn:Hb.
    + destruct (IH kept' eq_refl p Hin) as [Hp Hex].
      split; [apply list_elem_of_further, Hp|exact Hex].
    + apply elem_of_cons in Hin as [->|Hin].
      * split; [apply list_elem_of_here|].
        exists a. split; [exact Ha|]. apply bool_decide_eq_false in Hb. exact Hb.
      * destruct (IH kept' eq_refl p Hin) as [Hp Hex].
        split; [apply list_elem_of_further, Hp|exact Hex].
Qed.

(** The cache-hit path of the explore feed filters: whatever page the
    cache holds, no post of a blocked author is returned, and the cache
    entry itself is left as it was read. *)
Lemma getExplorePosts_hit_filters (tGet tSet : Z) (req : Request) (db : Db)
    (cache cache' : Cache FeedPage) (cachedPage : FeedPage) :
  get tGet (cacheKeys.exploreFeed (parseIntOr (query_page req) 1)) cache
  = (Data cachedPage, cache') ->
  let out := getExplorePosts tGet tSet req (db, cache) in
  out.2 = (db, cache') /\
  (out.1 = fail 500 "Server error" \/
   exists kept,
     out.1 = ok (BPage (with_page_posts kept cachedPage)) /\
     forall p, p ∈ kept ->
       p ∈ page_posts cachedPage /\
       exists a, author p = Some a /\ summary_id a ∉ blockedUsers (req_user req)).
Proof.
  intros Hget. cbv zeta. unfold getExplorePosts. rewrite Hget.
  destruct (filterBlocked _ _) as [kept|] eqn:Hf; cbn [fst snd].
  - split; [reflexivity|]. right. exists kept. split; [reflexivity|].
    exact (filterBlocked_unblocked _ _ _ Hf).
  - split; [reflexivity|]. left. reflexivity.
Qed.

(** C4 at a failing input.  Bob has blocked Alice; the explore cache is
    empty.  Bob's request for page 1 takes the cache-miss path, which
    answers with the page as queried: Alice's post is in it.  The page is
    cached unfiltered, and the same request repeated within the TTL takes
    the cache-hit path, which removes the post. *)
Theorem getExplorePosts_miss_returns_blocked :
  let post := populate sample_db alice_post in
  let shared := {| page_posts := [post]; hasMore := None; page := 1; limit := 20 |} in
  let first := getExplorePosts 1000 1000 (request_of bob "") (sample_db, emptyCache) in
  let second := getExplorePosts 2000 2000 (request_of bob "") first.2 in
  user alice_post ∈ blockedUsers bob /\
  first.1 = ok (BPage shared) /\
  stored (cacheKeys.exploreFeed 1) first.2.2 = Data shared /\
  second.1 = ok (BPage (with_page_posts [] shared)).
Proof.
  cbv zeta. split; [apply list_elem_of_here|].
  vm_compute. repeat split; reflexivity.
Qed.

(** C7. For a user who follows nobody, the following feed on a cache miss
    answers [{posts: [], hasMore: false, page, limit}] straight after
    reading the user: the only store call is the one on the users
    collection, the posts are not queried and nothing is written to the
    cache. *)
Theorem getFollowingFeed_follows_nobody (tGet tSet : Z) (req : Request)
    (db : Db) (cache : Cache FeedPage) (currentUser : User) :
  let key := cacheKeys.followingFeed (user_id (req_user req))
               (parseIntOr (query_page req) 1) in
  (forall cachedPage, (get tGet key cache).1 <> Data cachedPage) ->
  findUser (user_id (req_user req)) (users db) = Some currentUser ->
  following currentUser = [] ->
  let out := getFollowingFeed tGet tSet req (db, cache) in
  out.1 = ok (BPage {| page_posts := []; hasMore := Some false;
                       page := parseIntOr (query_page req) 1;
                       limit := parseIntOr (query_limit req) 10 |}) /\
  out.2 = (touch UsersC db, (get tGet key cache).2) /\
  oplog out.2.1 = oplog db ++ [UsersC] /\
  posts out.2.1 = posts db.
Proof.
  cbv zeta. intros Hmiss Huser Hnone.
  unfold getFollowingFeed, User_findById.
  destruct (get tGet _ cache) as [cached cache'] eqn:Hget. cbn [fst snd] in *.
  rewrite Huser, Hnone.
  destruct cached as [| |cachedPage|rendered]; cbn [fst snd]; auto.
  exfalso. exact (Hmiss cachedPage eq_refl).
Qed.

Lemma getFollowingFeed_follows_nobody_witness :
  let out := getFollowingFeed 1000 1000 (request_of bob "") (sample_db, emptyCache) in
  out.1 = ok (BPage {| page_posts := []; hasMore := Some false; page := 1; limit := 10 |}) /\
  oplog out.2.1 = [UsersC] /\
  posts out.2.1 = [alice_post].
Proof.
  destruct (getFollowingFeed_follows_nobody 1000 1000 (request_of bob "")
              sample_db emptyCache bob) as (Hres & _ & Hlog & Hposts).
  - intros cachedPage. vm_compute. discriminate.
  - reflexivity.
  - reflexivity.
  - cbv zeta. split; [exact Hres|]. split; [exact Hlog|exact Hposts].
Defined.

(** ** [toggleLike] *)

Lemma updateOne_ids (id : ObjectId) (f : Post -> Post) (docs : list Post) :
  (forall p, _id (f p) = _id p) ->
  _id <$> updateOne id f docs = _id <$> docs.
Proof.
  intros Hf. induction docs as [|p rest IH]; [reflexivity|].
  cbn [updateOne]. destruct (decide (_id p = id)).
  - rewrite !fmap_cons, Hf. reflexivity.
  - rewrite !fmap_cons, IH. reflexivity.
Qed.

Lemma findOne_likeQuery_fresh (id : ObjectId) (docs : list Post) :
  id ∉ _id <$> docs -> findOne (likeQuery id) docs = None.
Proof.
  induction docs as [|p rest IH]; intros Hfresh; [reflexivity|].
  rewrite fmap_cons in Hfresh. apply not_elem_of_cons in Hfresh as [Hne Hfresh].
  cbn [findOne]. unfold likeQuery at 1.
  rewrite bool_decide_eq_false_2 by congruence. exact (IH Hfresh).
Qed.

(** With unique ids, the query of [toggleLike] finds the document with the
    given id unless it is soft-deleted. *)
Lemma findOne_likeQuery (id : ObjectId) (docs : list Post) :
  NoDup (_id <$> docs) ->
  findOne (likeQuery id) docs
  = p ← findById id docs; if isDeleted p then None else Some p.
Proof.
  induction docs as [|p rest IH]; intros Hnd; [reflexivity|].
  rewrite fmap_cons in Hnd. apply NoDup_cons in Hnd as [Hfresh Hnd].
  cbn [findOne findById]. unfold likeQuery at 1.
  destruct (decide (_id p = id)) as [E|N].
  - rewrite bool_decide_eq_true_2 by exact E. cbn.
    destruct (isDeleted p); [|reflexivity]. cbn.
    apply findOne_likeQuery_fresh. rewrite <- E. exact Hfresh.
  - rewrite bool_decide_eq_false_2 by exact N. cbn. exact (IH Hnd).
Qed.

Lemma findOne_likeQuery_Some (id : ObjectId) (docs : list Post) (post : Post) :
  NoDup (_id <$> docs) ->
  findOne (likeQuery id) docs = Some post ->
  findById id docs = Some post /\ _id post = id /\ isDeleted post = false.
Proof.
  intros Hnd. rewrite findOne_likeQuery by exact Hnd.
  destruct (findById id docs) as [p|] eqn:Hfind; [|discriminate].
  cbn. destruct (isDeleted p) eqn:Hdel; [discriminate|].
  intros [= <-]. repeat split; [|exact Hdel].
  clear Hnd Hdel. induction docs as [|q rest IH]; [discriminate|].
  cbn [findById] in Hfind. destruct (decide (_id q = id)); [congruence|auto].
Qed.

(** The effect of one [toggleLike] on the stored post. *)
Lemma toggleLike_effect (now : Z) (req : Request) (db : Db) (post : Post) :
  NoDup (_id <$> posts db) ->
  findOne (likeQuery (params_id req)) (posts db) = Some post ->
  let u := user_id (req_user req) in
  let db' := (toggleLike now req db).2 in
  NoDup (_id <$> posts db') /\
  exists post',
    findOne (likeQuery (params_id req)) (posts db') = Some post' /\
    likeCount post' = likeCount post + (if bool_decide (u ∈ likes post) then -1 else 1) /\
    likes post' = (if bool_decide (u ∈ likes post)
                   then filter (fun id => id <> u) (likes post)
                   else likes post ++ [u]).
Proof.
  intros Hnd Hfind. cbv zeta.
  destruct (findOne_likeQuery_Some _ _ _ Hnd Hfind) as (Hby & Hid & Hdel).
  unfold toggleLike, Post_findOne. rewrite Hfind.
  set (u := user_id (req_user req)).
  set (incf := fun amount (p : Post) => set_likeCount (likeCount p + amount) p).
  set (savef := savedLikes).
  assert (Hincf : forall a p, _id (incf a p) = _id p) by reflexivity.
  assert (Hsavef : forall e p, _id (savef e p) = _id p).
  { intros e p. unfold savef, savedLikes. cbv zeta. destruct (detectsReel e); reflexivity. }
  assert (Hgen : forall amount edited,
            _id edited = _id post ->
            let docs' := updateOne (_id edited) (savef edited)
                           (updateOne (_id post) (incf amount) (posts db)) in
            NoDup (_id <$> docs') /\
            exists post',
              findOne (likeQuery (params_id req)) docs' = Some post' /\
              likeCount post' = likeCount post + amount /\
              likes post' = likes edited).
  { intros amount edited He. cbv zeta. rewrite He.
    split.
    - rewrite !updateOne_ids by auto. exact Hnd.
    - exists (savef edited (incf amount post)).
      split; [|split].
      + rewrite findOne_likeQuery by (rewrite !updateOne_ids by auto; exact Hnd).
        rewrite <- Hid.
        rewrite !findById_updateOne_eq by auto.
        rewrite Hid, Hby. cbn [fmap option_fmap option_map mbind option_bind].
        replace (isDeleted (savef edited (incf amount post))) with false; [reflexivity|].
        unfold savef, savedLikes. cbv zeta. destruct (detectsReel edited); cbn; congruence.
      + unfold savef, savedLikes. cbv zeta. destruct (detectsReel edited); reflexivity.
      + unfold savef, savedLikes. cbv zeta. destruct (detectsReel edited); reflexivity. }
  destruct (bool_decide (u ∈ likes post)) eqn:Hliked; cbn [fst snd].
  - exact (Hgen (-1) (set_likes (filter (fun id => id <> u) (likes post)) post) eq_refl).
  - exact (Hgen 1 (set_likes (likes post ++ [u]) post) eq_refl).
Qed.

(** C6. For every user and every post that is not soft-deleted, two
    [toggleLike] requests in a row leave the post with the same likers
    (as a set) and the same [likeCount] as before. *)
Theorem toggleLike_twice (now1 now2 : Z) (req : Request) (db : Db) (post : Post) :
  NoDup (_id <$> posts db) ->
  findOne (likeQuery (params_id req)) (posts db) = Some post ->
  let db1 := (toggleLike now1 req db).2 in
  let db2 := (toggleLike now2 req db1).2 in
  exists post2,
    findOne (likeQuery (params_id req)) (posts db2) = Some post2 /\
    (forall v, v ∈ likes post2 <-> v ∈ likes post) /\
    likeCount post2 = likeCount post.
Proof.
  intros Hnd Hfind. cbv zeta.
  destruct (toggleLike_effect now1 req db post Hnd Hfind) as (Hnd1 & post1 & Hfind1 & Hc1 & Hl1).
  destruct (toggleLike_effect now2 req _ post1 Hnd1 Hfind1) as (_ & post2 & Hfind2 & Hc2 & Hl2).
  exists post2. split; [exact Hfind2|].
  set (u := user_id (req_user req)) in *.
  destruct (bool_decide (u ∈ likes post)) eqn:Hliked.
  - apply bool_decide_eq_true in Hliked.
    assert (Hnot : u ∉ likes post1).
    { rewrite Hl1. intros Hin. apply list_elem_of_filter in Hin as [Hne _]. congruence. }
    rewrite bool_decide_eq_false_2 in Hc2, Hl2 by exact Hnot.
    split; [|lia].
    intros v. rewrite Hl2, Hl1, elem_of_app, list_elem_of_filter, list_elem_of_singleton.
    split.
    + intros [[_ Hv]| ->]; assumption.
    + intros Hv. destruct (decide (v = u)); [right|left]; auto.
  - apply bool_decide_eq_false in Hliked.
    assert (Hin : u ∈ likes post1).
    { rewrite Hl1. apply elem_of_app. right. apply list_elem_of_here. }
    rewrite bool_decide_eq_true_2 in Hc2, Hl2 by exact Hin.
    split; [|lia].
    intros v. rewrite Hl2, Hl1, list_elem_of_filter, elem_of_app, list_elem_of_singleton.
    split.
    + intros [Hne [Hv| ->]]; [exact Hv|congruence].
    + intros Hv. split; [congruence|left; exact Hv].
Qed.

Lemma toggleLike_twice_witness :
  let db1 := (toggleLike 5000 (request_of carol "post-a") sample_db).2 in
  let db2 := (toggleLike 6000 (request_of carol "post-a") db1).2 in
  exists post2,
    findOne (likeQuery "post-a") (posts db2) = Some post2 /\
    (forall v, v ∈ likes post2 <-> v ∈ likes alice_post) /\
    likeCount post2 = likeCount alice_post.
Proof.
  apply (toggleLike_twice 5000 6000 (request_of carol "post-a") sample_db alice_post).
  - apply NoDup_singleton.
  - reflexivity.
Defined.

(** ** [createPost] *)

Lemma castMedia_valid (m : MediaDraft) : is_Some (castMedia m) <-> mediaValid m.
Proof.
  unfold castMedia, mediaValid. split.
  - intros [item Hitem].
    destruct (draft_url m) as [[|c u]|]; [discriminate| |discriminate].
    split; [exists (String c u); split; [reflexivity|discriminate]|].
    destruct (String.eqb_spec (draft_type m) "image") as [->|_]; [left; reflexivity|].
    destruct (String.eqb_spec (draft_type m) "video") as [->|_]; [right; reflexivity|].
    discriminate.
  - intros [(u & -> & Hu) Ht].
    destruct u as [|c u]; [congruence|].
    destruct Ht as [-> | ->]; cbn; eexists; reflexivity.
Qed.

Lemma castMedia_url (m : MediaDraft) (item : MediaItem) :
  castMedia m = Some item -> draft_url m = Some (url item).
Proof.
  unfold castMedia. destruct (draft_url m) as [[|c u]|]; [discriminate| |discriminate].
  destruct (if String.eqb _ _ then _ else _) as [t|]; [|discriminate].
  cbn. intros [= <-]. reflexivity.
Qed.

Lemma castVisibility_valid (v : string) :
  is_Some (castVisibility v) <-> (v = "public" \/ v = "followers" \/ v = "private").
Proof.
  unfold castVisibility. split.
  - intros [vis Hvis].
    destruct (String.eqb_spec v "public") as [->|_]; [auto|].
    destruct (String.eqb_spec v "followers") as [->|_]; [auto|].
    destruct (String.eqb_spec v "private") as [->|_]; [auto|].
    discriminate.
  - intros [-> | [-> | ->]]; cbn; eexists; reflexivity.
Qed.

Lemma mapM_castMedia_urls (mediaArray : list MediaDraft) (items : list MediaItem) :
  mapM castMedia mediaArray = Some items ->
  draft_url <$> mediaArray = (fun item => Some (url item)) <$> items.
Proof.
  intros H. apply mapM_Some in H.
  induction H as [|m item ms items Hm _ IH]; [reflexivity|].
  cbn [fmap list_fmap]. rewrite (castMedia_url m item Hm). f_equal. exact IH.
Qed.

(** The documents [Post.create] accepts are the ones the validators
    describe. *)
Lemma newPost_accepts (now : Z) (newId userId : ObjectId) (mediaArray : list MediaDraft)
    (visibility : string) (st : Status) (scheduledFor : option Z) :
  is_Some (newPost now newId userId mediaArray visibility st scheduledFor)
  <-> schemaAccepts mediaArray visibility.
Proof.
  unfold newPost, schemaAccepts. split.
  - intros [post Hpost].
    destruct (mapM castMedia mediaArray) as [items|] eqn:Hitems; [|discriminate].
    destruct (castVisibility visibility) as [vis|] eqn:Hvis; [|discriminate].
    split.
    + assert (Hs : is_Some (mapM castMedia mediaArray)) by (rewrite Hitems; eauto).
      apply mapM_is_Some in Hs.
      eapply Forall_impl; [exact Hs|]. intros m Hm. apply castMedia_valid, Hm.
    + apply castVisibility_valid. rewrite Hvis. eauto.
  - intros [Hmedia Hvis].
    assert (Hs : is_Some (mapM castMedia mediaArray)).
    { apply mapM_is_Some. eapply Forall_impl; [exact Hmedia|].
      intros m Hm. apply castMedia_valid, Hm. }
    destruct Hs as [items ->].
    apply castVisibility_valid in Hvis as [vis ->].
    cbn. eauto.
Qed.

Lemma newPost_fields (now : Z) (newId userId : ObjectId) (mediaArray : list MediaDraft)
    (visibility : string) (st : Status) (date : option Z) (post : Post) :
  newPost now newId userId mediaArray visibility st date = Some post ->
  _id post = newId /\ user post = userId /\ status post = st /\
  scheduledFor post = date /\ createdAt post = now /\
  draft_url <$> mediaArray = (fun item => Some (url item)) <$> media post.
Proof.
  unfold newPost. intros Hnew.
  destruct (mapM castMedia mediaArray) as [items|] eqn:Hitems; [|discriminate].
  destruct (castVisibility visibility) as [vis|]; [|discriminate].
  cbn in Hnew. injection Hnew as <-.
  apply mapM_castMedia_urls in Hitems.
  unfold preSave. destruct (detectsReel _); cbn; auto 10.
Qed.

(** C8, as the code has it.  [createPost] answers 400 exactly when the
    normalized media list is empty or has more than 10 items, and then
    creates nothing.  With 1 to 10 items no media-count error is raised
    and the handler goes on to [Post.create].  For a body whose fields have
    the types the schema expects, the post is created, with the media in
    the order of the list, exactly when every media item has a non-empty
    [url] and a [type] 'image' or 'video' and [visibility] is 'public',
    'followers' or 'private'; otherwise the request fails with status 500
    and nothing is created. *)
Theorem createPost_media_count (now : Z) (newId : ObjectId) (u : User)
    (b : CreatePostBody) (db : Db) :
  let mediaArray := buildMediaArray b in
  let n := length mediaArray in
  let out := createPost now newId u b db in
  (statusCode out.1 = 400 <-> (n = 0 \/ 10 < n)%nat) /\
  (statusCode out.1 = 400 -> posts out.2 = posts db) /\
  ((1 <= n <= 10)%nat ->
   (schemaAccepts mediaArray (default "public" (body_visibility b)) ->
    statusCode out.1 = 200 /\
    exists post,
      posts out.2 = posts db ++ [post] /\
      _id post = newId /\ user post = user_id u /\ createdAt post = now /\
      draft_url <$> mediaArray = (fun item => Some (url item)) <$> media post /\
      exists populated, out.1 = ok (BPost populated) /\ doc populated = post) /\
   (~ schemaAccepts mediaArray (default "public" (body_visibility b)) ->
    statusCode out.1 = 500 /\ posts out.2 = posts db)).
Proof.
  cbv zeta. unfold createPost. cbv zeta.
  destruct (Nat.eqb_spec (length (buildMediaArray b)) 0) as [E0|N0].
  { cbn [fst snd statusCode fail]. split; [|split]; [split| |]; auto; lia. }
  destruct (Nat.ltb_spec 10 (length (buildMediaArray b))) as [L|L].
  { cbn [fst snd statusCode fail]. split; [|split]; [split| |]; auto; lia. }
  pose proof (newPost_accepts now newId (user_id u) (buildMediaArray b)
                (default "public" (body_visibility b))
                (if truthyDate (body_scheduledFor b) then scheduled else ready)
                (dateOrNull (body_scheduledFor b))) as Hacc.
  destruct (newPost _ _ _ _ _ _ _) as [post|] eqn:Hnew; cbn [fst snd statusCode fail ok].
  - split; [|split].
    + split; [discriminate|lia].
    + discriminate.
    + intros _. split.
      * intros _. split; [reflexivity|]. exists post.
        destruct (newPost_fields _ _ _ _ _ _ _ _ Hnew) as (Hid & Hu & _ & _ & Hc & Hurls).
        repeat (split; [first [reflexivity|assumption]|]).
        eexists. split; reflexivity.
      * intros Hno. exfalso. apply Hno, Hacc. eauto.
  - split; [|split].
    + split; [discriminate|lia].
    + discriminate.
    + intros _. split.
      * intros Hyes. apply Hacc in Hyes. destruct Hyes as [? [=]].
      * intros _. split; reflexivity.
Qed.

(** C8 as stated fails for one media item without a [url]: the count check
    passes, the schema rejects the document, no post is created and the
    answer is a 500. *)
Lemma createPost_one_item_not_created :
  let out := createPost 1000 "post-b" alice (body_with [broken_image]) sample_db in
  length (buildMediaArray (body_with [broken_image])) = 1%nat /\
  statusCode out.1 = 500 /\
  posts out.2 = posts sample_db.
Proof. vm_compute. repeat split; reflexivity. Qed.

Example createPost_one_item_created :
  let out := createPost 1000 "post-b" alice (body_with [sample_image]) sample_db in
  statusCode out.1 = 200 /\ _id <$> posts out.2 = ["post-a"; "post-b"].
Proof. vm_compute. split; reflexivity. Qed.

(** A [scheduledFor] of [0] is falsy: the post is stored as 'ready', with
    no date. *)
Example createPost_zero_date :
  let b := {| body_media := Some [sample_image]; body_images := None;
              body_videos := None; body_image := None; body_visibility := None;
              body_scheduledFor := Some 0 |} in
  let out := createPost 1000 "post-b" alice b sample_db in
  (fun p => (status p, scheduledFor p)) <$> findById "post-b" (posts out.2)
  = Some (ready, None).
Proof. vm_compute. reflexivity. Qed.

(** ** Scheduled posts publisher *)

Lemma savedStatus_id (d x : Post) : _id (savedStatus d x) = _id x.
Proof. unfold savedStatus. cbv zeta. destruct (detectsReel d); reflexivity. Qed.

Lemma savedStatus_ready (q x : Post) :
  status (savedStatus (set_status ready q) x) = ready.
Proof. unfold savedStatus. cbv zeta. destruct (detectsReel _); reflexivity. Qed.

Lemma markReady_app (done1 done2 docs : list Post) :
  markReady (done1 ++ done2) docs = markReady done2 (markReady done1 docs).
Proof. unfold markReady. apply foldl_app. Qed.

Lemma markReady_cons (q : Post) (done docs : list Post) :
  markReady (q :: done) docs
  = markReady done (updateOne (_id q) (savedStatus (set_status ready q)) docs).
Proof. reflexivity. Qed.

Lemma findById_markReady_other (id : ObjectId) (done docs : list Post) :
  id ∉ _id <$> done -> findById id (markReady done docs) = findById id docs.
Proof.
  revert docs. induction done as [|q done IH]; intros docs Hnot; [reflexivity|].
  rewrite fmap_cons in Hnot. apply not_elem_of_cons in Hnot as [Hne Hnot].
  rewrite markReady_cons, IH by exact Hnot.
  apply findById_updateOne_ne; [apply savedStatus_id|congruence].
Qed.

Lemma findById_markReady_stays (id : ObjectId) (done docs : list Post) (x : Post) :
  findById id docs = Some x -> status x = ready ->
  exists x', findById id (markReady done docs) = Some x' /\ status x' = ready.
Proof.
  revert docs x. induction done as [|q done IH]; intros docs x Hfind Hready.
  - exists x. split; assumption.
  - rewrite markReady_cons. destruct (decide (_id q = id)) as [E|N].
    + apply (IH _ (savedStatus (set_status ready q) x)).
      * rewrite E, findById_updateOne_eq by apply savedStatus_id.
        rewrite Hfind. reflexivity.
      * apply savedStatus_ready.
    + apply (IH _ x); [|exact Hready].
      rewrite findById_updateOne_ne; [exact Hfind|apply savedStatus_id|exact N].
Qed.

Lemma findById_markReady_in (q : Post) (done docs : list Post) (x : Post) :
  q ∈ done -> findById (_id q) docs = Some x ->
  exists x', findById (_id q) (markReady done docs) = Some x' /\ status x' = ready.
Proof.
  revert docs x. induction done as [|a done IH]; intros docs x Hin Hfind.
  - inversion Hin.
  - rewrite markReady_cons. destruct (decide (_id a = _id q)) as [E|N].
    + apply (findById_markReady_stays _ _ _ (savedStatus (set_status ready a) x)).
      * rewrite E, findById_updateOne_eq by apply savedStatus_id.
        rewrite Hfind. reflexivity.
      * apply savedStatus_ready.
    + apply elem_of_cons in Hin as [->|Hin]; [congruence|].
      apply (IH _ x Hin).
      rewrite findById_updateOne_ne; [exact Hfind|apply savedStatus_id|exact N].
Qed.

(** As long as the loop body goes through, the loop saves each post and
    appends its notifications. *)
Lemma publishAll_prefix (rejects : list Notification -> InsertOutcome) (dbu : Db)
    (pre rest : list Post) (db0 : Db) :
  (forall q, q ∈ pre -> fanOutSucceeds rejects dbu q = true) ->
  exists db1,
    publishAll rejects (withAuthor dbu <$> (pre ++ rest)) db0
    = publishAll rejects (withAuthor dbu <$> rest) db1 /\
    posts db1 = markReady pre (posts db0) /\
    notifications db1 = notifications db0 ++ (pre ≫= fanOutOf dbu).
Proof.
  revert db0. induction pre as [|q pre IH]; intros db0 Hok.
  - exists db0. cbn. rewrite app_nil_r. auto.
  - assert (Hq : fanOutSucceeds rejects dbu q = true) by (apply Hok, list_elem_of_here).
    assert (Hpre : forall q', q' ∈ pre -> fanOutSucceeds rejects dbu q' = true)
      by (intros q' Hin; apply Hok, list_elem_of_further, Hin).
    rewrite <- app_comm_cons, fmap_cons, markReady_cons, bind_cons.
    cbn [publishAll withAuthor due_doc due_author].
    unfold fanOutSucceeds in Hq. unfold fanOutOf at 1.
    destruct (findUser (user q) (users dbu)) as [a|]; [|discriminate].
    unfold fanOut at 2 3. unfold fanOut in Hq.
    destruct (followers a) as [|f fs] eqn:Hf.
    + destruct (IH (save_status (set_status ready q) db0) Hpre) as (db1 & Hrun & Hposts & Hnotes).
      exists db1. split; [exact Hrun|]. split; [exact Hposts|exact Hnotes].
    + unfold fanOut. rewrite Hf.
      destruct (rejects _) eqn:Hout; [|discriminate].
      destruct (IH (insertMany
                      ((fun followerId =>
                          {| userId := followerId; actorId := user_id a;
                             title := "New Post";
                             body := username a +:+ " shared a new post";
                             ntype := "share";
                             data_postId := _id (set_status ready q) |}) <$> f :: fs)
                      (save_status (set_status ready q) db0)) Hpre)
        as (db1 & Hrun & Hposts & Hnotes).
      exists db1. split; [exact Hrun|]. split; [exact Hposts|].
      rewrite Hnotes. cbn [insertMany touch notifications save_status with_posts].
      rewrite <- app_assoc. reflexivity.
Qed.

(** A loop body that throws ends the loop: the post at hand has been
    saved, the remaining posts are not looked at. *)
Lemma publishAll_failure (rejects : list Notification -> InsertOutcome) (dbu : Db)
    (p : Post) (rest : list Post) (db1 : Db) :
  fanOutSucceeds rejects dbu p = false ->
  let out := publishAll rejects (withAuthor dbu <$> (p :: rest)) db1 in
  out.1 <> None /\
  posts out.2 = markReady [p] (posts db1) /\
  notifications out.2 = notifications db1 ++ partlyWritten rejects dbu p.
Proof.
  intros Hfail. cbv zeta. rewrite fmap_cons.
  cbn [publishAll withAuthor due_doc due_author].
  unfold fanOutSucceeds in Hfail. unfold partlyWritten.
  destruct (findUser (user p) (users dbu)) as [a|].
  - unfold fanOut in *. destruct (followers a) as [|f fs]; [discriminate|].
    destruct (rejects _) as [|written]; [discriminate|].
    cbn. repeat split. discriminate.
  - cbn. rewrite app_nil_r. repeat split. discriminate.
Qed.

Lemma fanOut_per_follower (author : User) (post : Post) :
  userId <$> fanOut author post = followers author.
Proof.
  unfold fanOut. rewrite <- list_fmap_compose.
  induction (followers author) as [|f fs IH]; [reflexivity|].
  cbn. f_equal. exact IH.
Qed.

Lemma due_is_scheduled (now : Z) (docs : list Post) (q : Post) :
  q ∈ filter (fun p => isDue now p = true) docs ->
  q ∈ docs /\ status q = scheduled.
Proof.
  intros Hin. apply list_elem_of_filter in Hin as [Hdue Hin].
  split; [exact Hin|]. unfold isDue in Hdue.
  apply andb_prop in Hdue as [Hs _]. apply bool_decide_eq_true in Hs. exact Hs.
Qed.

(** C3, as the code has it.  One tick runs the due posts in order inside
    a single try/catch.  If the loop body goes through for every due post,
    each of them is stored as 'ready' and the notifications gained are
    those of the due posts in order, one per follower of the author.  If
    it throws for a due post [p] (its author is missing, or the insert of
    its notifications fails), the tick ends there: the due posts up to and
    including [p] are stored as 'ready', the notifications gained are those
    of the posts before [p] and whatever the failed insert wrote, and every
    due post after [p] is left exactly as it was, still 'scheduled'. *)
Theorem publishScheduledPosts_tick (rejects : list Notification -> InsertOutcome) (now : Z)
    (db : Db) :
  NoDup (_id <$> posts db) ->
  let due := filter (fun p => isDue now p = true) (posts db) in
  let db' := publishScheduledPosts rejects now db in
  ((forall q, q ∈ due -> fanOutSucceeds rejects db q = true) ->
   (forall q, q ∈ due ->
      exists q', findById (_id q) (posts db') = Some q' /\ status q' = ready) /\
   notifications db' = notifications db ++ (due ≫= fanOutOf db)) /\
  (forall pre p rest, due = pre ++ p :: rest ->
     (forall q, q ∈ pre -> fanOutSucceeds rejects db q = true) ->
     fanOutSucceeds rejects db p = false ->
     (forall q, q ∈ pre ++ [p] ->
        exists q', findById (_id q) (posts db') = Some q' /\ status q' = ready) /\
     (forall q, q ∈ rest ->
        findById (_id q) (posts db') = Some q /\ status q = scheduled) /\
     notifications db'
     = notifications db ++ (pre ≫= fanOutOf db) ++ partlyWritten rejects db p) /\
  (forall author post, userId <$> fanOut author post = followers author).
Proof.
  intros Hnd. cbv zeta. unfold publishScheduledPosts.
  set (due := filter (fun p => isDue now p = true) (posts db)).
  set (db0 := touch UsersC (touch PostsC db)).
  assert (Hstored : forall q, q ∈ due -> findById (_id q) (posts db0) = Some q).
  { intros q Hin. apply due_is_scheduled in Hin as [Hin _].
    apply (findById_elem (posts db) q Hnd Hin). }
  split; [|split].
  - intros Hok.
    destruct (publishAll_prefix rejects db due [] db0 Hok) as (db1 & Hrun & Hposts & Hnotes).
    rewrite app_nil_r in Hrun. rewrite Hrun. cbn [publishAll fmap list_fmap snd].
    split.
    + intros q Hin. rewrite Hposts.
      exact (findById_markReady_in q due _ q Hin (Hstored q Hin)).
    + exact Hnotes.
  - intros pre p rest Hsplit Hok Hfail.
    destruct (publishAll_prefix rejects db pre (p :: rest) db0 Hok)
      as (db1 & Hrun & Hposts & Hnotes).
    rewrite Hsplit, Hrun.
    destruct (publishAll_failure rejects db p rest db1 Hfail) as (_ & Hposts' & Hnotes').
    rewrite Hposts', Hnotes', Hposts, <- markReady_app.
    assert (Hnd' : NoDup (_id <$> (pre ++ [p]) ++ rest)).
    { rewrite <- app_assoc. cbn [app]. rewrite <- Hsplit.
      apply NoDup_ids_filter, Hnd. }
    rewrite fmap_app in Hnd'. apply NoDup_app in Hnd' as (_ & Hdisj & _).
    split; [|split].
    + intros q Hin.
      apply (findById_markReady_in q (pre ++ [p]) _ q Hin).
      apply Hstored. rewrite Hsplit.
      apply elem_of_app in Hin as [Hin|Hin].
      * apply elem_of_app. left. exact Hin.
      * apply list_elem_of_singleton in Hin as ->.
        apply elem_of_app. right. apply list_elem_of_here.
    + intros q Hin.
      assert (Hdue : q ∈ due).
      { rewrite Hsplit. apply elem_of_app. right. apply list_elem_of_further, Hin. }
      split; [|exact (proj2 (due_is_scheduled _ _ _ Hdue))].
      rewrite findById_markReady_other; [exact (Hstored q Hdue)|].
      intros Hmem. apply (Hdisj (_id q) Hmem).
      apply list_elem_of_fmap. exists q. auto.
    + rewrite Hnotes, <- app_assoc. reflexivity.
  - exact fanOut_per_follower.
Qed.

(** The spec's scenario: a post scheduled one second ago whose author has
    three followers becomes 'ready' and three notifications are enqueued
    for it (Carol's post adds one more). *)
Lemma publishScheduledPosts_tick_witness :
  let db' := publishScheduledPosts neverRejects 60000 scheduler_db in
  (exists q', findById "sched-a" (posts db') = Some q' /\ status q' = ready) /\
  notifications db'
  = fanOut alice (set_status ready scheduled_a)
    ++ fanOut carol (set_status ready scheduled_c) /\
  userId <$> fanOut alice (set_status ready scheduled_a) = ["bob"; "carol"; "dave"].
Proof.
  destruct (publishScheduledPosts_tick neverRejects 60000 scheduler_db)
    as ((Hready & Hnotes) & _ & Hper).
  - apply NoDup_cons. split; [|apply NoDup_singleton].
    intros Hin. apply list_elem_of_singleton in Hin. discriminate.
  - intros q Hin. apply list_elem_of_filter in Hin as [_ Hin].
    apply elem_of_cons in Hin as [->|Hin]; [reflexivity|].
    apply list_elem_of_singleton in Hin as ->. reflexivity.
  - cbv zeta. split; [|split].
    + apply (Hready scheduled_a). apply list_elem_of_here.
    + exact Hnotes.
    + exact (Hper alice (set_status ready scheduled_a)).
Defined.

(** C3 as stated fails when the insert for the first due post throws: the
    second due post, whose own fan-out would go through, stays
    'scheduled' in that tick and nothing is enqueued for it. *)
Lemma publishScheduledPosts_failure_blocks :
  let db' := publishScheduledPosts rejectsAlice 60000 scheduler_db in
  filter (fun p => isDue 60000 p = true) (posts scheduler_db)
  = [scheduled_a; scheduled_c] /\
  fanOutSucceeds rejectsAlice scheduler_db scheduled_c = true /\
  findById "sched-c" (posts db') = Some scheduled_c /\
  status scheduled_c = scheduled /\
  notifications db' = [].
Proof. vm_compute. repeat split; reflexivity. Qed.

(** ** More on the score engine *)

Lemma decayFactor_now (createdAt : Z) :
  Rpower (hoursSincePost createdAt createdAt + DECAY_OFFSET) DECAY_EXPONENT
  = (2 * sqrt 2)%R.
Proof.
  unfold hoursSincePost, DECAY_OFFSET, DECAY_EXPONENT.
  rewrite Z.sub_diag.
  replace (0 / (1000 * 60 * 60) + 2)%R with 2%R by lra.
  replace (3 / 2)%R with (1 + / 2)%R by lra.
  rewrite Rpower_plus, Rpower_1, Rpower_sqrt by lra. reflexivity.
Qed.

Lemma decayFactor_le (now createdAt : Z) :
  createdAt <= now ->
  (2 * sqrt 2 <= Rpower (hoursSincePost now createdAt + DECAY_OFFSET) DECAY_EXPONENT)%R.
Proof.
  intros Hc. rewrite <- (decayFactor_now createdAt).
  destruct (Z.eq_dec createdAt now) as [->|Hne]; [apply Rle_refl|].
  apply Rlt_le, decayFactor_lt; lia.
Qed.

(** X1. Ranking by decayed score.  At one clock reading, of two posts with
    the same positive raw score the one created later scores strictly
    higher, and of two posts created at the same instant the one with the
    higher raw score scores strictly higher. *)
Theorem applyTimeDecay_ranking (now created1 created2 : Z) (raw1 raw2 : R) :
  created1 < created2 -> created2 <= now -> (0 < raw1 < raw2)%R ->
  (applyTimeDecay now raw1 created1 < applyTimeDecay now raw1 created2)%R /\
  (applyTimeDecay now raw1 created1 < applyTimeDecay now raw2 created1)%R.
Proof.
  intros Hc Hnow [Hpos Hraw]. unfold applyTimeDecay. cbv zeta.
  assert (Hh : (0 <= hoursSincePost now created2 < hoursSincePost now created1)%R).
  { split; [apply hoursSincePost_nonneg, Hnow|].
    unfold hoursSincePost. apply Rmult_lt_compat_r; [apply Rinv_0_lt_compat; lra|].
    apply IZR_lt. lia. }
  assert (Hd : (Rpower (hoursSincePost now created2 + DECAY_OFFSET) DECAY_EXPONENT
                < Rpower (hoursSincePost now created1 + DECAY_OFFSET) DECAY_EXPONENT)%R).
  { unfold DECAY_OFFSET, DECAY_EXPONENT. apply Rlt_Rpower_l; lra. }
  pose proof (decayFactor_pos (hoursSincePost now created1 + DECAY_OFFSET)) as H1.
  pose proof (decayFactor_pos (hoursSincePost now created2 + DECAY_OFFSET)) as H2.
  revert Hd H1 H2.
  generalize (Rpower (hoursSincePost now created1 + DECAY_OFFSET) DECAY_EXPONENT).
  generalize (Rpower (hoursSincePost now created2 + DECAY_OFFSET) DECAY_EXPONENT).
  intros d2 d1 Hd H1 H2.
  assert (Hinv : (/ d1 < / d2)%R)
    by (apply Rinv_lt_contravar; [apply Rmult_lt_0_compat|]; assumption).
  assert (Hi1 : (0 < / d1)%R) by (apply Rinv_0_lt_compat; assumption).
  unfold Rdiv. split.
  - apply Rmult_lt_compat_l; assumption.
  - apply Rmult_lt_compat_r; assumption.
Qed.

Lemma applyTimeDecay_ranking_witness :
  (applyTimeDecay 7200000 1 0 < applyTimeDecay 7200000 1 3600000)%R /\
  (applyTimeDecay 7200000 1 0 < applyTimeDecay 7200000 2 0)%R.
Proof.
  apply (applyTimeDecay_ranking 7200000 0 3600000 1 2); [lia|lia|lra].
Defined.

(** X2. The boost of a new post is finite and is the largest value the
    decayed score takes: at the instant of creation the score is
    raw / (2 * sqrt 2), and at no later instant does it exceed that. *)
Theorem applyTimeDecay_initial_boost (now createdAt : Z) (raw : R) :
  createdAt <= now -> (0 <= raw)%R ->
  applyTimeDecay createdAt raw createdAt = (raw / (2 * sqrt 2))%R /\
  (applyTimeDecay now raw createdAt <= raw / (2 * sqrt 2))%R.
Proof.
  intros Hc Hraw. unfold applyTimeDecay. cbv zeta.
  rewrite decayFactor_now. split; [reflexivity|].
  pose proof (decayFactor_le now createdAt Hc) as Hle.
  assert (Hs : (0 < 2 * sqrt 2)%R).
  { apply Rmult_lt_0_compat; [lra|]. apply sqrt_lt_R0. lra. }
  revert Hle. generalize (Rpower (hoursSincePost now createdAt + DECAY_OFFSET) DECAY_EXPONENT).
  intros d Hle. unfold Rdiv. apply Rmult_le_compat_l; [exact Hraw|].
  apply Rinv_le_contravar; assumption.
Qed.

Lemma applyTimeDecay_initial_boost_witness :
  applyTimeDecay 0 28 0 = (28 / (2 * sqrt 2))%R /\
  (applyTimeDecay 3600000 28 0 <= 28 / (2 * sqrt 2))%R.
Proof.
  apply (applyTimeDecay_initial_boost 3600000 0 28); [lia|lra].
Defined.

(** X3. For posts without a reel bonus, the raw score is monotone in the
    counters: if no counter of [p] exceeds that of [q], the raw score of
    [p] does not exceed that of [q]. *)
Theorem calculateRawScore_monotone (p q : Post) :
  isReel p = false -> isReel q = false -> countersLe p q ->
  (calculateRawScore p <= calculateRawScore q)%Q.
Proof.
  intros Hp Hq (Hl & Hc & Hsh & Hsv & Hv).
  unfold calculateRawScore, completionTerm. cbv zeta.
  rewrite Hp, Hq, !or0_id. cbn [andb].
  unfold WEIGHTS.like, WEIGHTS.comment, WEIGHTS.share, WEIGHTS.save, WEIGHTS.view.
  rewrite Zle_Qle in Hl, Hc, Hsh, Hsv, Hv.
  revert Hl Hc Hsh Hsv Hv.
  generalize (inject_Z (likeCount p)) (inject_Z (likeCount q))
             (inject_Z (commentCount p)) (inject_Z (commentCount q))
             (inject_Z (shareCount p)) (inject_Z (shareCount q))
             (inject_Z (saveCount p)) (inject_Z (saveCount q))
             (inject_Z (viewCount p)) (inject_Z (viewCount q)).
  intros. Lqa.lra.
Qed.

Lemma calculateRawScore_monotone_witness :
  (calculateRawScore blank_post <= calculateRawScore scenario_post)%Q.
Proof.
  apply (calculateRawScore_monotone blank_post scenario_post).
  - reflexivity.
  - reflexivity.
  - unfold countersLe. cbn. lia.
Defined.

Lemma Math_round_nonneg (x : R) : (0 <= x)%R -> 0 <= Math_round x.
Proof.
  intros Hx. unfold Math_round.
  destruct (base_Int_part (x + / 2)) as [_ Hgt].
  assert (Hlt : (IZR (-1) < IZR (Int_part (x + / 2)))%R) by lra.
  apply lt_IZR in Hlt. lia.
Qed.

Lemma decayedScore_nonneg (now : Z) (post : Post) :
  nonNegativeCounters post -> (0 <= decayedScore now post)%R.
Proof.
  intros Hnn. unfold decayedScore, applyTimeDecay. cbv zeta.
  assert (Hraw : (0 <= Q2R (calculateRawScore post))%R).
  { rewrite <- Q2R_zero. apply Qle_Rle, calculateRawScore_nonneg, Hnn. }
  pose proof (decayFactor_pos (hoursSincePost now (createdAt post) + DECAY_OFFSET)) as Hd.
  apply Rmult_le_pos; [exact Hraw|]. apply Rlt_le, Rinv_0_lt_compat, Hd.
Qed.

(** X4. The score the job stores is never negative for a post that is
    not dated ahead of the clock and whose counters are not negative. *)
Theorem storedScore_nonneg (now : Z) (post : Post) :
  createdAt post <= now ->
  nonNegativeCounters post -> (0 <= storedScore now post)%Q.
Proof.
  intros _ Hnn. unfold storedScore. cbv zeta.
  assert (Hk : 0 <= Math_round (decayedScore now post * 100)).
  { apply Math_round_nonneg.
    apply Rmult_le_pos; [apply decayedScore_nonneg, Hnn|lra]. }
  apply Qle_shift_div_l; [reflexivity|].
  rewrite Qmult_0_l. change 0%Q with (inject_Z 0). rewrite <- Zle_Qle. exact Hk.
Qed.

Lemma storedScore_nonneg_witness : (0 <= storedScore 7200000 liked_once)%Q.
Proof.
  apply (storedScore_nonneg 7200000 liked_once).
  - vm_compute. discriminate.
  - unfold nonNegativeCounters; cbn. repeat split; (lia || discriminate).
Defined.

(** ** More on the scoring batch job *)

Lemma sameButScore_updateOne (id : ObjectId) (v : Q) (a b : list Post) :
  Forall2 sameButScore a b ->
  Forall2 sameButScore a (updateOne id (set_engagementScore v) b).
Proof.
  induction 1 as [|x y a b Hxy Hab IH]; [constructor|].
  cbn [updateOne]. destruct (decide (_id y = id)).
  - constructor; [|exact Hab]. unfold sameButScore in *. rewrite Hxy. reflexivity.
  - constructor; assumption.
Qed.

Lemma sameButScore_bulkWrite (ops : list BulkOp) (a b : list Post) :
  Forall2 sameButScore a b -> Forall2 sameButScore a (bulkWrite ops b).
Proof.
  revert b. induction ops as [|op ops IH]; intros b Hab; [exact Hab|].
  change (bulkWrite (op :: ops) b)
    with (bulkWrite ops (updateOne (filter_id op) (set_engagementScore (set_value op)) b)).
  apply IH, sameButScore_updateOne, Hab.
Qed.

Lemma ids_determine (docs : list Post) (p q : Post) :
  NoDup (_id <$> docs) -> p ∈ docs -> q ∈ docs -> _id p = _id q -> p = q.
Proof.
  intros Hnd Hp Hq E.
  pose proof (findById_elem docs p Hnd Hp) as Fp.
  pose proof (findById_elem docs q Hnd Hq) as Fq.
  rewrite E in Fp. congruence.
Qed.

Lemma findById_updateOne_score (id id' : ObjectId) (v : Q) (docs : list Post) :
  id <> id' ->
  findById id (updateOne id' (set_engagementScore v) docs) = findById id docs.
Proof.
  intros Hne. induction docs as [|p docs IH]; [reflexivity|].
  cbn [updateOne]. destruct (decide (_id p = id')) as [E|E].
  - cbn [findById]. rewrite !decide_False by (cbn; congruence). reflexivity.
  - cbn [findById]. destruct (decide (_id p = id)); [reflexivity|exact IH].
Qed.

Lemma findById_bulkWrite_frame (id : ObjectId) (ops : list BulkOp) (docs : list Post) :
  Forall (fun op => filter_id op <> id) ops ->
  findById id (bulkWrite ops docs) = findById id docs.
Proof.
  revert docs. induction ops as [|op ops IH]; intros docs Hops; [reflexivity|].
  apply Forall_cons in Hops as [Hop Hops].
  change (bulkWrite (op :: ops) docs)
    with (bulkWrite ops (updateOne (filter_id op) (set_engagementScore (set_value op)) docs)).
  rewrite (IH _ Hops). apply findById_updateOne_score. congruence.
Qed.

Lemma bulkWrite_scoresOnly (ids : list ObjectId) (docs current : list Post)
    (ops : list BulkOp) :
  Forall2 sameButScore docs current ->
  (forall id, (id ∉ ids) -> findById id current = findById id docs) ->
  Forall (fun op => filter_id op ∈ ids) ops ->
  Forall2 sameButScore docs (bulkWrite ops current) /\
  (forall id, (id ∉ ids) -> findById id (bulkWrite ops current) = findById id docs).
Proof.
  intros Hsame Hother Hops. split.
  - apply sameButScore_bulkWrite, Hsame.
  - intros id Hid. rewrite findById_bulkWrite_frame; [apply Hother, Hid|].
    eapply Forall_impl; [exact Hops|]. intros op Hop E. apply Hid. rewrite <- E. exact Hop.
Qed.

Lemma scoreOne_scoresOnly (writes : list BulkOp -> WriteOutcome) (batch : nat) (clock : Post -> Z)
    (ids : list ObjectId) (docs : list Post) (run : JobRun) (post : Post) :
  _id post ∈ ids -> scoresOnly ids docs run ->
  scoresOnly ids docs (scoreOne writes batch clock run post).
Proof.
  intros Hid (Hsame & Hother & Hops).
  assert (Hops' : Forall (fun op => filter_id op ∈ ids)
                    (bulkOps run ++ [{| filter_id := _id post;
                                        set_value := storedScore (clock post) post |}])).
  { apply Forall_app. split; [exact Hops|]. constructor; [exact Hid|constructor]. }
  unfold scoreOne. cbv zeta.
  destruct (batch <=? _)%nat; [|split; [exact Hsame|split; [exact Hother|exact Hops']]].
  destruct (writes _) as [|n].
  - destruct (bulkWrite_scoresOnly ids docs (collection run) _ Hsame Hother Hops')
      as [Hsame' Hother'].
    split; [exact Hsame'|]. split; [exact Hother'|constructor].
  - assert (Htake : Forall (fun op => filter_id op ∈ ids)
                      (take n (bulkOps run ++ [{| filter_id := _id post;
                                                  set_value := storedScore (clock post) post |}])))
      by (apply Forall_take; exact Hops').
    destruct (bulkWrite_scoresOnly ids docs (collection run) _ Hsame Hother Htake)
      as [Hsame' Hother'].
    split; [exact Hsame'|]. split; [exact Hother'|exact Hops'].
Qed.

Lemma scoring_loop_scoresOnly (writes : list BulkOp -> WriteOutcome) (batch : nat)
    (clock : Post -> Z) (ids : list ObjectId) (docs : list Post) (cursor : list Post)
    (run : JobRun) :
  Forall (fun p => _id p ∈ ids) cursor -> scoresOnly ids docs run ->
  scoresOnly ids docs (foldl (scoreOne writes batch clock) run cursor).
Proof.
  revert run. induction cursor as [|post cursor IH]; intros run Hc Hrun; [exact Hrun|].
  apply Forall_cons in Hc as [Hpost Hc]. cbn [foldl].
  apply IH; [exact Hc|]. apply scoreOne_scoresOnly; assumption.
Qed.

Lemma sameButScore_refl (docs : list Post) : Forall2 sameButScore docs docs.
Proof. induction docs; constructor; [reflexivity|assumption]. Qed.

(** X5. What the scoring job leaves alone.  However the job ends, and
    whatever its writes do (each goes through or throws part-way), the
    documents of the collection stay in place and nothing but
    [engagementScore] changes; a post its query does not match (deleted,
    not 'ready', or created before the cutoff the server's calendar gives
    for [maxAge] days ago) keeps the score it had. *)
Theorem computeEngagementScores_frame (writes : list BulkOp -> WriteOutcome)
    (daysBefore : Z -> Z -> Z) (clock : Post -> Z) (options : Options) (now : Z)
    (docs : list Post) :
  NoDup (_id <$> docs) ->
  let docs' :=
    collectionAfter (computeEngagementScores writes daysBefore clock options now docs) in
  Forall2 sameButScore docs docs' /\
  forall post, post ∈ docs ->
    scoringQuery (cutoffDate daysBefore now (maxAge options)) post = false ->
    findById (_id post) docs' = Some post.
Proof.
  intros Hnd. cbv zeta. unfold computeEngagementScores. cbv zeta.
  set (cursor := filter _ docs).
  set (ids := _id <$> cursor).
  set (start := {| bulkOps := []; processed := 0; errors := 0; collection := docs |}).
  assert (Hloop : scoresOnly ids docs
                    (foldl (scoreOne writes (batchSize options) clock) start cursor)).
  { apply scoring_loop_scoresOnly.
    - apply Forall_forall. intros p Hp. subst ids.
      apply list_elem_of_fmap. exists p. split; [reflexivity|exact Hp].
    - split; [apply sameButScore_refl|]. split; [reflexivity|constructor]. }
  destruct Hloop as (Hsame & Hother & Hops).
  assert (Hend : Forall2 sameButScore docs
                   (collectionAfter
                      (flushRemaining writes
                         (foldl (scoreOne writes (batchSize options) clock) start cursor))) /\
                 forall id, (id ∉ ids) ->
                   findById id
                     (collectionAfter
                        (flushRemaining writes
                           (foldl (scoreOne writes (batchSize options) clock) start cursor)))
                   = findById id docs).
  { unfold flushRemaining.
    destruct (bulkOps _) as [|op ops] eqn:Hpending; [split; assumption|].
    destruct (writes (op :: ops)) as [|n]; cbn [collectionAfter collection].
    - apply (bulkWrite_scoresOnly ids); assumption.
    - apply (bulkWrite_scoresOnly ids); [assumption..|]. apply Forall_take, Hops. }
  destruct Hend as [Hsame' Hother']. split; [exact Hsame'|].
  intros post Hin Hq. rewrite Hother'; [apply findById_elem; assumption|].
  subst ids. intros Hmem.
  apply list_elem_of_fmap in Hmem as (q & Hid & Hq').
  apply list_elem_of_filter in Hq' as [Hmatch Hq'].
  assert (post = q) by (apply (ids_determine docs); assumption).
  subst q. congruence.
Qed.

Lemma computeEngagementScores_frame_witness :
  findById "p0"
    (collectionAfter (computeEngagementScores neverWritten utcDaysBefore
                        (fun _ => 40 * msPerDay) defaultOptions
                        (40 * msPerDay) [liked_once]))
  = Some liked_once.
Proof.
  destruct (computeEngagementScores_frame neverWritten utcDaysBefore
              (fun _ => 40 * msPerDay) defaultOptions (40 * msPerDay) [liked_once])
    as [_ Hkeep].
  - apply NoDup_singleton.
  - apply (Hkeep liked_once); [apply list_elem_of_here|].
    vm_compute. reflexivity.
Defined.

(** X6. The job's report and its batching.  In a run in which the writes
    go through and no post the cursor yields is dated ahead of the clock,
    the job completes with [processed] the number of posts the query
    matches and [errors] 0, and the batch size changes when the writes are
    flushed, never what ends up in the collection. *)
Theorem computeEngagementScores_counts (writes : list BulkOp -> WriteOutcome)
    (daysBefore : Z -> Z -> Z) (clock : Post -> Z) (options : Options) (now : Z)
    (docs : list Post) :
  (forall ops, writes ops = Written) ->
  (forall q, q ∈ docs ->
     scoringQuery (cutoffDate daysBefore now (maxAge options)) q = true ->
     createdAt q <= clock q) ->
  exists run,
    computeEngagementScores writes daysBefore clock options now docs = Completed run /\
    processed run
    = length (filter (fun p => scoringQuery (cutoffDate daysBefore now (maxAge options)) p = true)
                docs) /\
    errors run = 0%nat /\
    forall batch,
      collectionAfter
        (computeEngagementScores writes daysBefore clock
           {| batchSize := batch; maxAge := maxAge options;
              verbose := verbose options |} now docs)
      = collection run.
Proof.
  intros Hw _.
  destruct (computeEngagementScores_completed writes Hw daysBefore clock options now docs)
    as (run & Hrun & Hcoll & Hproc & Herr).
  exists run. split; [exact Hrun|]. split; [exact Hproc|]. split; [exact Herr|].
  intros batch.
  destruct (computeEngagementScores_completed writes Hw daysBefore clock
              {| batchSize := batch; maxAge := maxAge options; verbose := verbose options |}
              now docs)
    as (run' & Hrun' & Hcoll' & _).
  rewrite Hrun'. cbn [collectionAfter maxAge] in *. rewrite Hcoll', Hcoll. reflexivity.
Qed.

Lemma computeEngagementScores_counts_witness :
  exists run,
    computeEngagementScores alwaysWritten utcDaysBefore (fun _ => 7200000)
      defaultOptions 7200000 [liked_once; scenario_post]
    = Completed run /\
    processed run = 2%nat /\ errors run = 0%nat.
Proof.
  destruct (computeEngagementScores_counts alwaysWritten utcDaysBefore (fun _ => 7200000)
              defaultOptions 7200000 [liked_once; scenario_post])
    as (run & Hrun & Hproc & Herr & _).
  - intros ops. reflexivity.
  - intros q Hq _.
    apply elem_of_cons in Hq as [->|Hq]; [cbn; lia|].
    apply list_elem_of_singleton in Hq. subst q. cbn. lia.
  - exists run. split; [exact Hrun|]. split; [exact Hproc|exact Herr].
Defined.

(** When a write throws, the per-post [catch] counts it, the batch is
    kept, and the final write rethrows: the job ends without a report. *)
Example computeEngagementScores_fatal :
  computeEngagementScores neverWritten utcDaysBefore (fun _ => 7200000)
    {| batchSize := 1; maxAge := 30; verbose := false |} 7200000
    [liked_once; scenario_post]
  = Fatal [liked_once; scenario_post] /\
  errors (foldl (scoreOne neverWritten 1 (fun _ => 7200000))
            {| bulkOps := []; processed := 0; errors := 0;
               collection := [liked_once; scenario_post] |}
            [liked_once; scenario_post])
  = 2%nat.
Proof.
  split.
  - unfold computeEngagementScores. cbv zeta.
    change (filter _ [liked_once; scenario_post]) with [liked_once; scenario_post].
    reflexivity.
  - reflexivity.
Qed.

(** ** More on the cache service *)

(** X7. Round trip through the in-process store.  A value written with
    [set] at clock reading [tSet] is read back by [get], as JSON renders it
    ([undefined] comes back as [null]), at every reading up to the expiry
    [tSet + ttl * 1000]; past the expiry the read is a miss. *)
Theorem set_then_get {D : Type} (tSet now : Z) (key : string) (value : Value D)
    (ttl : Z) (cache : Cache D) :
  isRedisConnected cache = false ->
  tSet + ttl * 1000 <> 0 ->
  (now <= tSet + ttl * 1000 ->
   (get now key (set tSet key value ttl cache)).1 = roundTrip value) /\
  (tSet + ttl * 1000 < now ->
   (get now key (set tSet key value ttl cache)).1 = Null).
Proof.
  intros Hoff Hnz. rewrite set_memory by exact Hoff.
  set (cache1 := memorySet tSet key (JSON_stringify value) ttl cache).
  assert (Hoff1 : isRedisConnected cache1 = false) by exact Hoff.
  assert (Hm : memoryCache cache1 !! key = Some (JSON_stringify value))
    by (subst cache1; cbn [memorySet memoryCache]; apply lookup_insert_eq).
  assert (Ht : memoryCacheTTL cache1 !! key = Some (tSet + ttl * 1000))
    by (subst cache1; cbn [memorySet memoryCacheTTL]; apply lookup_insert_eq).
  rewrite get_memory by exact Hoff1. split; intros Hnow.
  - rewrite (memoryGet_live now key cache1 _ _ Hm Ht Hnow). reflexivity.
  - exact (memoryGet_expired now key cache1 _ Ht Hnz Hnow).
Qed.

Lemma set_then_get_witness :
  (get 2000 "post:1" (set 1000 "post:1" (Data 42) 60 emptyCache)).1 = Data 42 /\
  (get 70000 "post:1" (set 1000 "post:1" (Data 42) 60 emptyCache)).1 = Null.
Proof.
  destruct (set_then_get 1000 2000 "post:1" (Data 42) 60 emptyCache eq_refl
              ltac:(lia)) as [Hlive _].
  destruct (set_then_get 1000 70000 "post:1" (Data 42) 60 emptyCache eq_refl
              ltac:(lia)) as [_ Hdead].
  split; [apply Hlive; lia|apply Hdead; lia].
Defined.

Lemma memoryGet_other_key {D : Type} (now : Z) (key' : string)
    (cache cache' : Cache D) :
  memoryCache cache' !! key' = memoryCache cache !! key' ->
  memoryCacheTTL cache' !! key' = memoryCacheTTL cache !! key' ->
  (memoryGet now key' cache').1 = (memoryGet now key' cache).1.
Proof.
  intros Hm Ht. unfold memoryGet. cbv zeta. rewrite Hm, Ht.
  destruct (expired _ _); reflexivity.
Qed.

(** X8. Keys do not interfere in the in-process store: writing or
    deleting one key changes nothing about what a read of another key
    returns. *)
Theorem other_keys_untouched {D : Type} (tSet now : Z) (key key' : string)
    (value : Value D) (ttl : Z)
    (redis_del : RedisClient D -> string -> option (RedisClient D))
    (cache : Cache D) :
  isRedisConnected cache = false -> key <> key' ->
  (get now key' (set tSet key value ttl cache)).1 = (get now key' cache).1 /\
  (get now key' (del redis_del key cache)).1 = (get now key' cache).1.
Proof.
  intros Hoff Hne. split.
  - rewrite set_memory by exact Hoff.
    rewrite !get_memory by exact Hoff.
    apply memoryGet_other_key; cbn [memorySet memoryCache memoryCacheTTL];
      apply lookup_insert_ne; exact Hne.
  - rewrite !get_memory by exact Hoff.
    apply memoryGet_other_key; cbn [del memoryCache memoryCacheTTL];
      apply lookup_delete_ne; exact Hne.
Qed.

Lemma other_keys_untouched_witness :
  (get 2000 "post:1"
     (set 1500 "post:2" (Data 7) 60 (set 1000 "post:1" (Data 42) 60 emptyCache))).1
  = (get 2000 "post:1" (set 1000 "post:1" (Data 42) 60 emptyCache)).1.
Proof.
  apply (other_keys_untouched 1500 2000 "post:2" "post:1" (Data 7) 60
           (fun client _ => Some client)
           (set 1000 "post:1" (Data 42) 60 emptyCache)).
  - reflexivity.
  - discriminate.
Defined.

(** X9. After [del], a read of the key is a miss at every clock reading,
    whatever was stored and however fresh it was. *)
Theorem del_then_get {D : Type} (now : Z) (key : string)
    (redis_del : RedisClient D -> string -> option (RedisClient D))
    (cache : Cache D) :
  isRedisConnected cache = false ->
  get now key (del redis_del key cache) = (Null, del redis_del key cache).
Proof.
  intros Hoff. rewrite get_memory by exact Hoff.
  unfold memoryGet. cbv zeta. cbn [del memoryCache memoryCacheTTL].
  rewrite !lookup_delete_eq. reflexivity.
Qed.

Lemma del_then_get_witness :
  (get 2000 "post:1"
     (del (fun client _ => Some client) "post:1"
        (set 1000 "post:1" (Data 42) 60 emptyCache))).1 = Null.
Proof.
  rewrite (del_then_get 2000 "post:1" (fun client _ => Some client)
             (set 1000 "post:1" (Data 42) 60 emptyCache) eq_refl).
  reflexivity.
Defined.

(** X10. Reads do not disturb later reads.  [get] may purge an expired
    entry, but with a clock that does not run backwards no read, of the
    same key or of another, changes what a later read returns. *)
Theorem get_then_get {D : Type} (now later : Z) (key key' : string)
    (cache : Cache D) :
  isRedisConnected cache = false -> now <= later ->
  (get later key' (get now key cache).2).1 = (get later key' cache).1.
Proof.
  intros Hoff Hle.
  assert (Hoff' : isRedisConnected (get now key cache).2 = false).
  { rewrite get_memory by exact Hoff. rewrite memoryGet_connected. exact Hoff. }
  rewrite (get_memory later key' _ Hoff'), (get_memory later key' cache Hoff).
  rewrite get_memory by exact Hoff.
  unfold memoryGet at 2. cbv zeta.
  destruct (expired (memoryCacheTTL cache !! key) now) eqn:Hexp; [|reflexivity].
  cbn [snd]. destruct (decide (key = key')) as [<-|Hne].
  - unfold memoryGet. cbv zeta. cbn [memoryCache memoryCacheTTL].
    rewrite !lookup_delete_eq. cbn [expired fst].
    unfold expired in *. destruct (memoryCacheTTL cache !! key) as [e|]; [|discriminate].
    apply andb_prop in Hexp as [Hnz Hlt]. apply Z.ltb_lt in Hlt.
    rewrite Hnz. replace (e <? later) with true by (symmetry; apply Z.ltb_lt; lia).
    reflexivity.
  - apply memoryGet_other_key; cbn [memoryCache memoryCacheTTL];
      apply lookup_delete_ne; exact Hne.
Qed.

Lemma get_then_get_witness :
  (get 90000 "post:1"
     (get 80000 "post:1" (set 1000 "post:1" (Data 42) 60 emptyCache)).2).1
  = (get 90000 "post:1" (set 1000 "post:1" (Data 42) 60 emptyCache)).1.
Proof.
  apply (get_then_get 80000 90000 "post:1" "post:1"
           (set 1000 "post:1" (Data 42) 60 emptyCache)); [reflexivity|lia].
Defined.

(** ** Cache keys *)

Lemma hasColon_app (s t : string) : hasColon (s +:+ t) = hasColon s || hasColon t.
Proof.
  induction s as [|c s IH]; [reflexivity|].
  change (String c s +:+ t) with (String c (s +:+ t)).
  cbn [hasColon]. rewrite IH, orb_assoc. reflexivity.
Qed.

Lemma pretty_N_go_no_colon (x : N) (s : string) :
  hasColon s = false -> hasColon (pretty_N_go x s) = false.
Proof.
  revert s. induction (N.lt_wf_0 x) as [x _ IH]; intros s Hs.
  assert (x = 0 \/ 0 < x)%N as [->|Hpos] by lia.
  - rewrite pretty_N_go_0. exact Hs.
  - rewrite pretty_N_go_step by exact Hpos. apply IH.
    + apply N.div_lt; [exact Hpos|reflexivity].
    + cbn [hasColon]. rewrite Hs, orb_false_r.
      unfold pretty_N_char. repeat case_match; reflexivity.
Qed.

Lemma pretty_Z_no_colon (page : Z) : hasColon (pretty page) = false.
Proof.
  assert (HN : forall n : N, hasColon (pretty n) = false).
  { intros n. unfold pretty, pretty_N. case_decide; [reflexivity|].
    apply pretty_N_go_no_colon. reflexivity. }
  destruct page as [|p|p]; [reflexivity|exact (HN (N.pos p))|].
  change (pretty (Z.neg p)) with ("-" +:+ pretty (N.pos p)).
  rewrite hasColon_app, HN. reflexivity.
Qed.

Lemma colon_split (u1 u2 n1 n2 : string) :
  hasColon n1 = false -> hasColon n2 = false ->
  u1 +:+ ":" +:+ n1 = u2 +:+ ":" +:+ n2 -> u1 = u2 /\ n1 = n2.
Proof.
  intros H1 H2. revert u2. induction u1 as [|c u1 IH]; intros [|d u2] E; cbn in E.
  - injection E as E. auto.
  - injection E as Ec E. change ("" +:+ n1) with n1 in E. subst n1.
    rewrite hasColon_app in H1. cbn in H1. rewrite orb_true_r in H1. discriminate.
  - injection E as Ec E. change ("" +:+ n2) with n2 in E. subst n2.
    rewrite hasColon_app in H2. cbn in H2. rewrite orb_true_r in H2. discriminate.
  - injection E as Ec E. destruct (IH u2 E) as [-> ->]. subst d. auto.
Qed.

(** X11. Cache keys do not collide: keys of the following, explore and
    reels feeds are pairwise different, and two keys of the same feed are
    equal only for the same page (and, for the following feed, the same
    user), so no request is served another user's or another page's
    entry. *)
Theorem cacheKeys_distinct (u1 u2 : ObjectId) (p1 p2 : Z) :
  (cacheKeys.followingFeed u1 p1 = cacheKeys.followingFeed u2 p2 ->
   u1 = u2 /\ p1 = p2) /\
  (cacheKeys.exploreFeed p1 = cacheKeys.exploreFeed p2 -> p1 = p2) /\
  (cacheKeys.reelsFeed p1 = cacheKeys.reelsFeed p2 -> p1 = p2) /\
  cacheKeys.exploreFeed p1 <> cacheKeys.reelsFeed p2 /\
  cacheKeys.exploreFeed p1 <> cacheKeys.followingFeed u2 p2 /\
  cacheKeys.reelsFeed p1 <> cacheKeys.followingFeed u2 p2.
Proof.
  unfold cacheKeys.followingFeed, cacheKeys.exploreFeed, cacheKeys.reelsFeed.
  split; [|split; [|split; [|split; [|split]]]].
  - intros E. injection E as E.
    apply colon_split in E as [-> E]; [|apply pretty_Z_no_colon..].
    split; [reflexivity|]. apply (inj pretty), E.
  - intros E. injection E as E. apply (inj pretty), E.
  - intros E. injection E as E. apply (inj pretty), E.
  - intros E. cbv [String.append] in E. discriminate E.
  - intros E. cbv [String.append] in E. discriminate E.
  - intros E. cbv [String.append] in E. discriminate E.
Qed.

(** ** More on the feed queries *)

Lemma insertRanked_perm {A} (above : A -> A -> bool) (x : A) (l : list A) :
  insertRanked above x l ≡ₚ x :: l.
Proof.
  induction l as [|y l IH]; [reflexivity|].
  cbn [insertRanked]. destruct (above y x); [|reflexivity].
  rewrite IH. apply perm_swap.
Qed.

Lemma sortRanked_perm {A} (above : A -> A -> bool) (l : list A) :
  sortRanked above l ≡ₚ l.
Proof.
  induction l as [|x l IH]; [reflexivity|].
  unfold sortRanked in *. cbn [foldr]. rewrite insertRanked_perm, IH. reflexivity.
Qed.

Section Ranking.
Context {A : Type} (above : A -> A -> bool).
Hypothesis above_asym : forall a b, above a b = true -> above b a = false.
Hypothesis above_ntrans :
  forall a b c, above b a = false -> above c b = false -> above c a = false.

Lemma insertRanked_sorted (x : A) (l : list A) :
  StronglySorted (fun a b => above b a = false) l ->
  StronglySorted (fun a b => above b a = false) (insertRanked above x l).
Proof.
  induction l as [|y l IH]; intros Hs.
  - repeat constructor.
  - apply StronglySorted_cons in Hs as [Hy Hl]. cbn [insertRanked].
    destruct (above y x) eqn:Hyx.
    + apply StronglySorted_cons. split; [|exact (IH Hl)].
      rewrite insertRanked_perm. constructor; [apply above_asym, Hyx|exact Hy].
    + apply StronglySorted_cons. split.
      * constructor; [exact Hyx|].
        eapply Forall_impl; [exact Hy|]. intros z Hz. cbn in Hz.
        exact (above_ntrans x y z Hyx Hz).
      * apply StronglySorted_cons. split; assumption.
Qed.

Lemma sortRanked_sorted (l : list A) :
  StronglySorted (fun a b => above b a = false) (sortRanked above l).
Proof.
  induction l as [|x l IH]; [constructor|].
  unfold sortRanked in *. cbn [foldr]. apply insertRanked_sorted, IH.
Qed.
End Ranking.

Lemma StronglySorted_weaken {A} (R R' : A -> A -> Prop) (l : list A) :
  (forall a b, R a b -> R' a b) -> StronglySorted R l -> StronglySorted R' l.
Proof.
  intros Himp. induction 1 as [|x l Hs IH Hall]; constructor; [exact IH|].
  eapply Forall_impl; [exact Hall|]. intros b. apply Himp.
Qed.

Lemma StronglySorted_populate (R : Post -> Post -> Prop) (db : Db) (l : list Post) :
  StronglySorted R l ->
  StronglySorted (fun a b => R (doc a) (doc b)) (populate db <$> l).
Proof.
  induction 1 as [|x l Hs IH Hall]; [constructor|].
  rewrite fmap_cons. constructor; [exact IH|].
  apply Forall_fmap. eapply Forall_impl; [exact Hall|]. intros b Hb. exact Hb.
Qed.

Lemma byScore_false (a b : Post) :
  byScore b a = false <-> (engagementScore b <= engagementScore a)%Q.
Proof. unfold byScore. apply Qgtb_false. Qed.

Lemma byScoreThenDate_false (a b : Post) :
  byScoreThenDate b a = false <->
  (engagementScore b <= engagementScore a)%Q /\
  ((engagementScore b == engagementScore a)%Q -> createdAt b <= createdAt a).
Proof.
  unfold byScoreThenDate. rewrite orb_false_iff, Qgtb_false, andb_false_iff.
  split.
  - intros [Hle [Hne|Hd]]; split; try exact Hle.
    + intros Heq. apply Qeq_bool_iff in Heq. congruence.
    + intros _. apply Z.ltb_ge in Hd. exact Hd.
  - intros [Hle Hd]. split; [exact Hle|].
    destruct (Qeq_bool (engagementScore b) (engagementScore a)) eqn:E; [|left; reflexivity].
    right. apply Z.ltb_ge, Hd, Qeq_bool_iff, E.
Qed.

Lemma byScore_asym (a b : Post) : byScore a b = true -> byScore b a = false.
Proof.
  unfold byScore. rewrite Qgtb_true, Qgtb_false. apply Qlt_le_weak.
Qed.

Lemma byScore_ntrans (a b c : Post) :
  byScore b a = false -> byScore c b = false -> byScore c a = false.
Proof. rewrite !byScore_false. intros H1 H2. exact (Qle_trans _ _ _ H2 H1). Qed.

Lemma byScoreThenDate_asym (a b : Post) :
  byScoreThenDate a b = true -> byScoreThenDate b a = false.
Proof.
  intros H. apply byScoreThenDate_false.
  unfold byScoreThenDate in H. apply orb_true_iff in H as [H|H].
  - apply Qgtb_true in H. split; [apply Qlt_le_weak, H|].
    intros Heq. rewrite Heq in H. exfalso. exact (Qlt_irrefl _ H).
  - apply andb_prop in H as [Heq Hd]. apply Qeq_bool_iff in Heq.
    apply Z.ltb_lt in Hd. split; [rewrite Heq; apply Qle_refl|]. intros _. lia.
Qed.

Lemma byScoreThenDate_ntrans (a b c : Post) :
  byScoreThenDate b a = false -> byScoreThenDate c b = false ->
  byScoreThenDate c a = false.
Proof.
  rewrite !byScoreThenDate_false. intros [H1 D1] [H2 D2].
  split; [exact (Qle_trans _ _ _ H2 H1)|].
  intros Heq.
  assert (Hcb : (engagementScore c == engagementScore b)%Q).
  { apply Qle_antisym; [exact H2|]. rewrite Heq. exact H1. }
  assert (Hba : (engagementScore b == engagementScore a)%Q).
  { rewrite <- Hcb. exact Heq. }
  specialize (D1 Hba). specialize (D2 Hcb). lia.
Qed.

(** What the query chain returns when the store accepts it. *)
Lemma Post_find_found (query : Post -> bool) (above : Post -> Post -> bool)
    (skip limit : Z) (db db' : Db) (found : list FeedPost) :
  Post_find query above skip limit db = (Some found, db') ->
  0 <= skip /\ db' = touch PostsC db /\
  found = populate db <$>
            applyLimit limit
              (drop (Z.to_nat skip)
                 (sortRanked above (filter (fun p => query p = true) (posts db)))).
Proof.
  unfold Post_find. cbv zeta. destruct (Z.ltb_spec skip 0); [discriminate|].
  intros [= <- <-]. auto.
Qed.

Lemma applyLimit_sublist {A} (n : Z) (l : list A) : applyLimit n l `sublist_of` l.
Proof. unfold applyLimit. destruct (n =? 0); [reflexivity|apply sublist_take]. Qed.

Lemma slice0_sublist {A} (n : Z) (l : list A) : slice0 n l `sublist_of` l.
Proof. unfold slice0. destruct (n <? 0); apply sublist_take. Qed.

Lemma StronglySorted_sublist {A} (R : A -> A -> Prop) (k l : list A) :
  k `sublist_of` l -> StronglySorted R l -> StronglySorted R k.
Proof.
  induction 1 as [|x k l Hkl IH|x k l Hkl IH]; intros Hs.
  - constructor.
  - apply StronglySorted_cons in Hs as [Hall Hs].
    apply StronglySorted_cons. split; [|exact (IH Hs)].
    apply Forall_forall. intros y Hy. rewrite Forall_forall in Hall.
    apply Hall. eapply sublist_subseteq; eassumption.
  - apply StronglySorted_cons in Hs as [_ Hs]. exact (IH Hs).
Qed.

(** The posts of a page built from [Post_find] come from the collection,
    match the query and keep the order of the sort. *)
Lemma Post_find_sound (query : Post -> bool) (above : Post -> Post -> bool)
    (skip limit : Z) (db db' : Db) (found shown : list FeedPost) :
  (forall a b, above a b = true -> above b a = false) ->
  (forall a b c, above b a = false -> above c b = false -> above c a = false) ->
  Post_find query above skip limit db = (Some found, db') ->
  shown `sublist_of` found ->
  (forall fp, fp ∈ shown ->
     doc fp ∈ posts db /\ query (doc fp) = true /\ fp = populate db (doc fp)) /\
  StronglySorted (fun a b => above (doc b) (doc a) = false) shown.
Proof.
  intros Hasym Hntrans Hfind Hsub.
  apply Post_find_found in Hfind as (_ & _ & ->).
  set (sorted := sortRanked above _) in *.
  assert (Hpage : applyLimit limit (drop (Z.to_nat skip) sorted) `sublist_of` sorted).
  { etrans; [apply applyLimit_sublist|apply sublist_drop]. }
  split.
  - intros fp Hin. eapply sublist_subseteq in Hin; [|exact Hsub].
    apply list_elem_of_fmap in Hin as (p & -> & Hp).
    eapply sublist_subseteq in Hp; [|exact Hpage].
    subst sorted. rewrite sortRanked_perm in Hp.
    apply list_elem_of_filter in Hp as [Hq Hp]. auto.
  - eapply StronglySorted_sublist; [exact Hsub|].
    apply (StronglySorted_populate (fun a b => above b a = false)).
    eapply StronglySorted_sublist; [exact Hpage|].
    apply sortRanked_sorted; assumption.
Qed.

Lemma overfetch_more {A} (l : list A) (skip limit : Z) :
  0 <= skip -> 0 < limit ->
  ((limit <? Z.of_nat (length (applyLimit (limit + 1) (drop (Z.to_nat skip) l)))) = true)
  <-> (skip + limit < Z.of_nat (length l)).
Proof.
  intros Hs Hl. unfold applyLimit.
  replace (limit + 1 =? 0) with false by (symmetry; apply Z.eqb_neq; lia).
  rewrite length_take, length_drop, Z.ltb_lt. lia.
Qed.

Lemma overfetch_page_length {A} (limit : Z) (found : list A) :
  0 < limit ->
  Z.of_nat (length (if limit <? Z.of_nat (length found)
                    then slice0 limit found else found)) <= limit.
Proof.
  intros Hl. destruct (Z.ltb_spec limit (Z.of_nat (length found))); [|lia].
  unfold slice0. replace (limit <? 0) with false by (symmetry; apply Z.ltb_ge; lia).
  rewrite length_take. lia.
Qed.

Lemma overfetch_page_sublist {A} (limit : Z) (found : list A) :
  (if limit <? Z.of_nat (length found) then slice0 limit found else found)
  `sublist_of` found.
Proof. destruct (limit <? _); [apply slice0_sublist|reflexivity]. Qed.

Lemma feedQuery_true (blocked : list ObjectId) (p : Post) :
  feedQuery blocked p = true ->
  (user p ∉ blocked) /\ isDeleted p = false /\ status p = ready.
Proof.
  unfold feedQuery. intros H.
  apply andb_prop in H as [H Hs]. apply andb_prop in H as [Hb Hd].
  apply negb_true_iff in Hb, Hd.
  apply bool_decide_eq_false in Hb. apply bool_decide_eq_true in Hs. auto.
Qed.

Lemma scoreDescending_of_date :
  forall a b : FeedPost, byScoreThenDate (doc b) (doc a) = false -> scoreDescending a b.
Proof. intros a b H. apply byScoreThenDate_false in H. exact (proj1 H). Qed.

(** X12. The main feed.  A page answered by [getPosts] holds only posts
    of the collection that are 'ready', not soft-deleted and not written by
    a user the requester has blocked, ordered by [engagementScore] from
    high to low.  For a positive [limit] the page has at most [limit]
    posts, and [hasMore] is true exactly when more matching posts exist
    beyond this page. *)
Theorem getPosts_page (req : Request) (db : Db) (pg : FeedPage) :
  (getPosts req db).1 = ok (BPage pg) ->
  let limit := parseIntOr (query_limit req) 10 in
  let skip := (parseIntOr (query_page req) 1 - 1) * limit in
  let matching :=
    filter (fun p => feedQuery (blockedUsers (req_user req)) p = true) (posts db) in
  (forall fp, fp ∈ page_posts pg ->
     doc fp ∈ posts db /\ (user (doc fp) ∉ blockedUsers (req_user req)) /\
     isDeleted (doc fp) = false /\ status (doc fp) = ready) /\
  StronglySorted scoreDescending (page_posts pg) /\
  (0 < limit ->
   Z.of_nat (length (page_posts pg)) <= limit /\
   ((hasMore pg = Some true) <-> (skip + limit < Z.of_nat (length matching)))).
Proof.
  cbv zeta. unfold getPosts. cbv zeta.
  destruct (Post_find _ _ _ _ db) as [[found|] db'] eqn:Hfind; [|discriminate].
  cbn [fst]. intros [= <-]. cbn [page_posts hasMore].
  destruct (Post_find_sound _ _ _ _ _ _ _ _ byScoreThenDate_asym
              byScoreThenDate_ntrans Hfind
              (overfetch_page_sublist (parseIntOr (query_limit req) 10) found))
    as [Hmem Hsorted].
  split; [|split].
  - intros fp Hin. destruct (Hmem fp Hin) as (Hdoc & Hq & _).
    apply feedQuery_true in Hq. tauto.
  - eapply StronglySorted_weaken; [|exact Hsorted]. apply scoreDescending_of_date.
  - intros Hl. split; [apply overfetch_page_length, Hl|].
    apply Post_find_found in Hfind as (Hskip & _ & ->).
    rewrite length_fmap.
    split.
    + intros [= Hmore]. apply overfetch_more in Hmore; [|assumption..].
      rewrite sortRanked_perm in Hmore. exact Hmore.
    + intros Hlt. f_equal. apply overfetch_more; [assumption..|].
      rewrite sortRanked_perm. exact Hlt.
Qed.

Lemma getPosts_page_witness :
  exists pg,
    (getPosts (request_of carol "") two_posts_db).1 = ok (BPage pg) /\
    (forall fp, fp ∈ page_posts pg -> status (doc fp) = ready) /\
    StronglySorted scoreDescending (page_posts pg).
Proof.
  eexists. split; [reflexivity|].
  destruct (getPosts_page (request_of carol "") two_posts_db _ eq_refl)
    as (Hmem & Hsorted & _).
  split; [|exact Hsorted]. intros fp Hin. apply (Hmem fp Hin).
Defined.

Lemma parseIntOr_nonzero (q : option Z) (dflt : Z) :
  dflt <> 0 -> parseIntOr q dflt <> 0.
Proof.
  intros Hd. unfold parseIntOr. destruct q as [n|]; [|exact Hd].
  destruct (Z.eqb_spec n 0); assumption.
Qed.

Lemma exploreQuery_true (p : Post) :
  exploreQuery p = true ->
  isDeleted p = false /\ status p = ready /\ visibility p = public.
Proof.
  unfold exploreQuery. intros H.
  apply andb_prop in H as [H Hv]. apply andb_prop in H as [Hd Hs].
  apply negb_true_iff in Hd.
  apply bool_decide_eq_true in Hs, Hv. auto.
Qed.

Lemma followingQuery_true (followingIds blocked : list ObjectId) (p : Post) :
  followingQuery followingIds blocked p = true ->
  user p ∈ followingIds /\ (user p ∉ blocked) /\ isDeleted p = false /\
  status p = ready /\ visibility p <> private.
Proof.
  unfold followingQuery. intros H.
  apply andb_prop in H as [H Hv]. apply andb_prop in H as [H Hs].
  apply andb_prop in H as [H Hd]. apply andb_prop in H as [Hf Hb].
  apply negb_true_iff in Hb, Hd.
  apply bool_decide_eq_true in Hf, Hs. apply bool_decide_eq_false in Hb.
  repeat split; try assumption.
  apply orb_true_iff in Hv as [Hv|Hv]; apply bool_decide_eq_true in Hv;
    rewrite Hv; discriminate.
Qed.

Lemma explore_found (skip limit : Z) (db db' : Db) (found : list FeedPost) :
  limit <> 0 ->
  Post_find exploreQuery byScore skip limit db = (Some found, db') ->
  (forall fp, fp ∈ found ->
     doc fp ∈ posts db /\ isDeleted (doc fp) = false /\
     status (doc fp) = ready /\ visibility (doc fp) = public) /\
  StronglySorted scoreDescending found /\
  Z.of_nat (length found) <= Z.abs limit.
Proof.
  intros Hnz Hfind.
  destruct (Post_find_sound _ _ _ _ _ _ _ found byScore_asym byScore_ntrans Hfind)
    as [Hmem Hsorted]; [reflexivity|].
  split; [|split].
  - intros fp Hin. destruct (Hmem fp Hin) as (Hdoc & Hq & _).
    apply exploreQuery_true in Hq. tauto.
  - eapply StronglySorted_weaken; [|exact Hsorted].
    intros a b H. apply byScore_false in H. exact H.
  - apply Post_find_found in Hfind as (_ & _ & ->).
    rewrite length_fmap. unfold applyLimit.
    replace (limit =? 0) with false by (symmetry; apply Z.eqb_neq; exact Hnz).
    rewrite length_take. lia.
Qed.

(** X13. The explore feed on a cache miss.  The page answered holds only
    posts of the collection that are public, 'ready' and not soft-deleted,
    ordered by [engagementScore] from high to low, and never more of them
    than the absolute value of [limit]. *)
Theorem getExplorePosts_miss_page (tGet tSet : Z) (req : Request) (db : Db)
    (cache : Cache FeedPage) (pg : FeedPage) :
  (forall c, (get tGet (cacheKeys.exploreFeed (parseIntOr (query_page req) 1)) cache).1
             <> Data c) ->
  (getExplorePosts tGet tSet req (db, cache)).1 = ok (BPage pg) ->
  (forall fp, fp ∈ page_posts pg ->
     doc fp ∈ posts db /\ isDeleted (doc fp) = false /\
     status (doc fp) = ready /\ visibility (doc fp) = public) /\
  StronglySorted scoreDescending (page_posts pg) /\
  Z.of_nat (length (page_posts pg)) <= Z.abs (parseIntOr (query_limit req) 20).
Proof.
  intros Hmiss. unfold getExplorePosts.
  destruct (get tGet _ cache) as [cached cache'] eqn:Hget. cbn [fst] in Hmiss.
  pose proof (parseIntOr_nonzero (query_limit req) 20 ltac:(discriminate)) as Hnz.
  destruct cached as [| |c|rendered]; [| |exfalso; exact (Hmiss c eq_refl)|];
    (destruct (Post_find _ _ _ _ db) as [[found|] db0] eqn:Hfind; [|discriminate]);
    cbn [fst]; intros [= <-]; cbn [page_posts];
    exact (explore_found _ _ _ _ _ Hnz Hfind).
Qed.

Lemma getExplorePosts_miss_page_witness :
  exists pg,
    (getExplorePosts 1000 1000 (request_of carol "") (two_posts_db, emptyCache)).1
    = ok (BPage pg) /\
    (forall fp, fp ∈ page_posts pg -> visibility (doc fp) = public) /\
    Z.of_nat (length (page_posts pg)) <= 20.
Proof.
  eexists. split; [reflexivity|].
  destruct (getExplorePosts_miss_page 1000 1000 (request_of carol "") two_posts_db
              emptyCache _ ltac:(intros c; vm_compute; discriminate) eq_refl)
    as (Hmem & _ & Hlen).
  split; [|exact Hlen]. intros fp Hin. apply (Hmem fp Hin).
Defined.

Lemma following_found (followingIds blocked : list ObjectId) (skip limit : Z)
    (db db' : Db) (found : list FeedPost) :
  Post_find (followingQuery followingIds blocked) byScoreThenDate skip (limit + 1) db
  = (Some found, db') ->
  let shown := if limit <? Z.of_nat (length found) then slice0 limit found else found in
  (forall fp, fp ∈ shown ->
     doc fp ∈ posts db /\ user (doc fp) ∈ followingIds /\
     (user (doc fp) ∉ blocked) /\ isDeleted (doc fp) = false /\
     status (doc fp) = ready /\ visibility (doc fp) <> private) /\
  StronglySorted scoreDescending shown /\
  (0 < limit -> Z.of_nat (length shown) <= limit).
Proof.
  intros Hfind. cbv zeta.
  destruct (Post_find_sound _ _ _ _ _ _ _ _ byScoreThenDate_asym
              byScoreThenDate_ntrans Hfind (overfetch_page_sublist limit found))
    as [Hmem Hsorted].
  split; [|split].
  - intros fp Hin. destruct (Hmem fp Hin) as (Hdoc & Hq & _).
    apply followingQuery_true in Hq. tauto.
  - eapply StronglySorted_weaken; [|exact Hsorted]. apply scoreDescending_of_date.
  - apply overfetch_page_length.
Qed.

(** X14. The following feed on a cache miss.  Every post of the page
    answered is in the collection, is written by a user the requester
    follows and has not blocked, is 'ready', not soft-deleted and not
    private; the page is ordered by [engagementScore] from high to low and,
    for a positive [limit], has at most [limit] posts. *)
Theorem getFollowingFeed_miss_page (tGet tSet : Z) (req : Request) (db : Db)
    (cache : Cache FeedPage) (currentUser : User) (pg : FeedPage) :
  (forall c, (get tGet (cacheKeys.followingFeed (user_id (req_user req))
                          (parseIntOr (query_page req) 1)) cache).1 <> Data c) ->
  findUser (user_id (req_user req)) (users db) = Some currentUser ->
  (getFollowingFeed tGet tSet req (db, cache)).1 = ok (BPage pg) ->
  (forall fp, fp ∈ page_posts pg ->
     doc fp ∈ posts db /\ user (doc fp) ∈ following currentUser /\
     (user (doc fp) ∉ blockedUsers currentUser) /\ isDeleted (doc fp) = false /\
     status (doc fp) = ready /\ visibility (doc fp) <> private) /\
  StronglySorted scoreDescending (page_posts pg) /\
  (0 < parseIntOr (query_limit req) 10 ->
   Z.of_nat (length (page_posts pg)) <= parseIntOr (query_limit req) 10).
Proof.
  intros Hmiss Huser. unfold getFollowingFeed, User_findById.
  destruct (get tGet _ cache) as [cached cache'] eqn:Hget. cbn [fst] in Hmiss.
  rewrite Huser.
  destruct cached as [| |c|rendered]; [| |exfalso; exact (Hmiss c eq_refl)|];
    (destruct (following currentUser) as [|f fs] eqn:Hfollowing;
     [cbn [fst]; intros [= <-]; cbn [page_posts];
      split; [intros fp Hin; inversion Hin|split; [constructor|cbn; lia]]|]);
    (destruct (Post_find _ _ _ _ (touch UsersC db)) as [[found|] db0] eqn:Hfind;
     [|discriminate]);
    cbn [fst]; intros [= <-]; cbn [page_posts];
    exact (following_found _ _ _ _ _ _ _ Hfind).
Qed.

Lemma getFollowingFeed_miss_page_witness :
  exists pg,
    (getFollowingFeed 1000 1000 (request_of carol "") (two_posts_db, emptyCache)).1
    = ok (BPage pg) /\
    (forall fp, fp ∈ page_posts pg -> visibility (doc fp) <> private) /\
    Z.of_nat (length (page_posts pg)) <= 10.
Proof.
  eexists. split; [reflexivity|].
  destruct (getFollowingFeed_miss_page 1000 1000 (request_of carol "") two_posts_db
              emptyCache carol _ ltac:(intros c; vm_compute; discriminate)
              eq_refl eq_refl)
    as (Hmem & _ & Hlen).
  split; [|apply Hlen; reflexivity]. intros fp Hin. apply (Hmem fp Hin).
Defined.

(** X15. The following feed is served from the cache.  Once a request
    has been answered with a page built from the store (in-process cache,
    the user follows somebody), the same request repeated no later than
    five minutes after the page was stored gets that very page, whatever
    has happened to the store in between, and makes no store call. *)
Theorem getFollowingFeed_cached_page (tGet tSet tGet2 tSet2 : Z) (req : Request)
    (db db2 : Db) (cache : Cache FeedPage) (currentUser : User) (pg : FeedPage) :
  isRedisConnected cache = false ->
  (forall c, (get tGet (cacheKeys.followingFeed (user_id (req_user req))
                          (parseIntOr (query_page req) 1)) cache).1 <> Data c) ->
  findUser (user_id (req_user req)) (users db) = Some currentUser ->
  following currentUser <> [] ->
  (getFollowingFeed tGet tSet req (db, cache)).1 = ok (BPage pg) ->
  tGet2 <= tSet + TTL.FOLLOWING_FEED * 1000 ->
  let cache1 := (getFollowingFeed tGet tSet req (db, cache)).2.2 in
  getFollowingFeed tGet2 tSet2 req (db2, cache1) = (ok (BPage pg), (db2, cache1)).
Proof.
  intros Hoff Hmiss Huser Hfollows Hfirst Hfresh. cbv zeta.
  set (key := cacheKeys.followingFeed (user_id (req_user req))
                (parseIntOr (query_page req) 1)) in *.
  assert (Hcache : exists cache0,
            isRedisConnected cache0 = false /\
            (getFollowingFeed tGet tSet req (db, cache)).2.2
            = set tSet key (Data pg) TTL.FOLLOWING_FEED cache0).
  { revert Hfirst. unfold getFollowingFeed, User_findById. fold key.
    destruct (get tGet key cache) as [cached cache'] eqn:Hget. cbn [fst] in Hmiss.
    assert (Hoff' : isRedisConnected cache' = false).
    { rewrite get_memory in Hget by exact Hoff.
      pose proof (memoryGet_connected tGet key cache) as Hc.
      rewrite Hget in Hc. cbn [snd] in Hc. congruence. }
    rewrite Huser.
    destruct (following currentUser) as [|f fs]; [congruence|].
    destruct cached as [| |c|rendered]; [| |exfalso; exact (Hmiss c eq_refl)|];
      (destruct (Post_find _ _ _ _ (touch UsersC db)) as [[found|] db0]; [|discriminate]);
      cbn [fst snd]; intros [= <-]; exists cache'; auto. }
  destruct Hcache as (cache0 & Hoff0 & ->).
  rewrite set_memory by exact Hoff0.
  set (cache1 := memorySet tSet key _ _ cache0).
  assert (Hget2 : get tGet2 key cache1 = (Data pg, cache1)).
  { rewrite get_memory by exact Hoff0.
    apply (memoryGet_live tGet2 key cache1 (Some (TData pg))
             (tSet + TTL.FOLLOWING_FEED * 1000)).
    - subst cache1. cbn [memorySet memoryCache]. apply lookup_insert_eq.
    - subst cache1. cbn [memorySet memoryCacheTTL]. apply lookup_insert_eq.
    - exact Hfresh. }
  unfold getFollowingFeed. fold key. rewrite Hget2. reflexivity.
Qed.

Lemma getFollowingFeed_cached_page_witness :
  exists pg,
    (getFollowingFeed 1000 1000 (request_of carol "") (two_posts_db, emptyCache)).1
    = ok (BPage pg) /\
    (getFollowingFeed 200000 200000 (request_of carol "")
       (sample_db,
        (getFollowingFeed 1000 1000 (request_of carol "") (two_posts_db, emptyCache)).2.2)).1
    = ok (BPage pg).
Proof.
  eexists. split; [reflexivity|].
  rewrite (getFollowingFeed_cached_page 1000 1000 200000 200000 (request_of carol "")
             two_posts_db sample_db emptyCache carol _ eq_refl
             ltac:(intros c; vm_compute; discriminate) eq_refl
             ltac:(discriminate) eq_refl ltac:(vm_compute; discriminate)).
  reflexivity.
Defined.

(** ** More on the post handlers *)

Lemma findById_id (id : ObjectId) (docs : list Post) (p : Post) :
  findById id docs = Some p -> _id p = id.
Proof.
  induction docs as [|q docs IH]; [discriminate|].
  cbn [findById]. destruct (decide (_id q = id)); [congruence|exact IH].
Qed.

Lemma findOne_likeQuery_deleted (id : ObjectId) (docs : list Post) (p : Post) :
  NoDup (_id <$> docs) -> findById id docs = Some p -> isDeleted p = true ->
  findOne (likeQuery id) docs = None.
Proof.
  intros Hnd Hfind Hdel. rewrite findOne_likeQuery by exact Hnd.
  rewrite Hfind. cbn. rewrite Hdel. reflexivity.
Qed.

(** X16. What [toggleLike] answers and logs.  For a post that is found,
    the answer carries the new list of likers and a [likeCount] equal to
    the one now stored, and exactly one event is appended to the log:
    'like' if the user was not among the likers, 'unlike' if they were. *)
Theorem toggleLike_reply (now : Z) (req : Request) (db : Db) (post : Post) :
  NoDup (_id <$> posts db) ->
  findOne (likeQuery (params_id req)) (posts db) = Some post ->
  let u := user_id (req_user req) in
  let out := toggleLike now req db in
  exists post',
    findById (params_id req) (posts out.2) = Some post' /\
    out.1 = ok (BLikes (likes post') (likeCount post')) /\
    events out.2
    = events db ++ [{| ev_userId := u; ev_postId := params_id req;
                       eventType := if bool_decide (u ∈ likes post)
                                    then ev_unlike else ev_like;
                       ev_createdAt := now |}].
Proof.
  intros Hnd Hfind. cbv zeta.
  destruct (toggleLike_effect now req db post Hnd Hfind)
    as (Hnd' & post' & Hfind' & Hcount & Hlikes).
  destruct (findOne_likeQuery_Some _ _ _ Hnd' Hfind') as (Hby' & _ & _).
  destruct (findOne_likeQuery_Some _ _ _ Hnd Hfind) as (_ & Hid & _).
  exists post'. split; [exact Hby'|].
  rewrite Hcount, Hlikes. clear Hnd' Hfind' Hby' Hcount Hlikes.
  unfold toggleLike, Post_findOne. rewrite Hfind, <- Hid.
  destruct (bool_decide (user_id (req_user req) ∈ likes post));
    split; reflexivity.
Qed.

Lemma toggleLike_reply_witness :
  exists post',
    findById "post-a" (posts (toggleLike 5000 (request_of bob "post-a") sample_db).2)
    = Some post' /\
    (toggleLike 5000 (request_of bob "post-a") sample_db).1
    = ok (BLikes (likes post') (likeCount post')) /\
    eventType <$> events (toggleLike 5000 (request_of bob "post-a") sample_db).2
    = [ev_like].
Proof.
  destruct (toggleLike_reply 5000 (request_of bob "post-a") sample_db alice_post
              ltac:(apply NoDup_singleton) eq_refl) as (post' & Hfind & Hreply & Hev).
  exists post'. split; [exact Hfind|]. split; [exact Hreply|].
  rewrite Hev. reflexivity.
Defined.

Lemma savedDeleted_id (d x : Post) : _id (savedDeleted d x) = _id x.
Proof. unfold savedDeleted. cbv zeta. destruct (detectsReel d); reflexivity. Qed.

Lemma savedDeleted_isDeleted (d x : Post) :
  isDeleted (savedDeleted d x) = isDeleted d.
Proof. unfold savedDeleted. cbv zeta. destruct (detectsReel d); reflexivity. Qed.

(** X17. Soft delete.  Only the author of a post can delete it: anybody
    else gets 403 and the collection stays as it is.  After the author's
    [deletePost] the stored post is flagged [isDeleted], the other posts
    are as before, and [toggleLike], [trackShare] and [getPostById] answer
    404 for that post for every user. *)
Theorem deletePost_hides (req : Request) (db : Db) (post : Post) :
  NoDup (_id <$> posts db) ->
  findById (params_id req) (posts db) = Some post ->
  let out := deletePost req db in
  (user post <> user_id (req_user req) ->
   out.1 = fail 403 "Not authorized" /\ posts out.2 = posts db) /\
  (user post = user_id (req_user req) ->
   out.1 = ok (BMessage "Post deleted") /\
   (exists post', findById (params_id req) (posts out.2) = Some post' /\
                  isDeleted post' = true) /\
   (forall id, id <> params_id req ->
      findById id (posts out.2) = findById id (posts db)) /\
   (forall now req', params_id req' = params_id req ->
      (toggleLike now req' out.2).1 = fail 404 "Post not found" /\
      (trackShare now req' out.2).1 = Refused 404 "Post not found" /\
      (getPostById now req' out.2).1 = Refused 404 "Post not found")).
Proof.
  intros Hnd Hfind. cbv zeta.
  pose proof (findById_id _ _ _ Hfind) as Hid.
  unfold deletePost, Post_findById. rewrite Hfind. split; intros Howner.
  - rewrite bool_decide_eq_false_2 by exact Howner. split; reflexivity.
  - rewrite bool_decide_eq_true_2 by exact Howner.
    cbn [fst snd save_isDeleted touch with_posts posts set_isDeleted _id].
    rewrite Hid.
    set (docs' := updateOne (params_id req) _ (posts db)).
    assert (Hfind' : findById (params_id req) docs'
                     = Some (savedDeleted (set_isDeleted true post) post)).
    { subst docs'. rewrite findById_updateOne_eq by apply savedDeleted_id.
      rewrite Hfind. reflexivity. }
    assert (Hnd' : NoDup (_id <$> docs')).
    { subst docs'. rewrite updateOne_ids by apply savedDeleted_id. exact Hnd. }
    assert (Hgone : findOne (likeQuery (params_id req)) docs' = None).
    { apply (findOne_likeQuery_deleted _ _ _ Hnd' Hfind').
      apply savedDeleted_isDeleted. }
    split; [reflexivity|]. split; [|split].
    + eexists. split; [exact Hfind'|]. apply savedDeleted_isDeleted.
    + intros id Hne. subst docs'.
      apply findById_updateOne_ne; [apply savedDeleted_id|congruence].
    + intros now req' Hsame.
      unfold toggleLike, trackShare, getPostById, Post_findOne. cbv zeta.
      cbn [posts touch with_posts]. rewrite Hsame.
      replace (posts (save_isDeleted (set_isDeleted true post) (touch PostsC db)))
        with docs'
        by (subst docs'; cbn [posts touch with_posts save_isDeleted set_isDeleted _id];
            rewrite Hid; reflexivity).
      rewrite Hgone. auto.
Qed.

Lemma deletePost_hides_witness :
  let out := deletePost (request_of alice "post-a") sample_db in
  out.1 = ok (BMessage "Post deleted") /\
  (toggleLike 5000 (request_of carol "post-a") out.2).1 = fail 404 "Post not found".
Proof.
  destruct (deletePost_hides (request_of alice "post-a") sample_db alice_post
              ltac:(apply NoDup_singleton) eq_refl) as [_ Howner].
  destruct (Howner eq_refl) as (Hreply & _ & _ & Hgone).
  cbv zeta. split; [exact Hreply|].
  exact (proj1 (Hgone 5000 (request_of carol "post-a") eq_refl)).
Defined.

(** X18. [trackShare] counts a share once.  For a post that is found,
    the stored [shareCount] goes up by exactly 1, nothing else of the post
    changes, the answer carries the new stored count, and one 'share' event
    is appended to the log. *)
Theorem trackShare_counts (now : Z) (req : Request) (db : Db) (post : Post) :
  NoDup (_id <$> posts db) ->
  findOne (likeQuery (params_id req)) (posts db) = Some post ->
  let out := trackShare now req db in
  out.1 = Replied (shareCount post + 1) /\
  findById (params_id req) (posts out.2)
  = Some (set_shareCount (shareCount post + 1) post) /\
  events out.2
  = events db ++ [{| ev_userId := user_id (req_user req); ev_postId := params_id req;
                     eventType := ev_share; ev_createdAt := now |}].
Proof.
  intros Hnd Hfind. cbv zeta.
  destruct (findOne_likeQuery_Some _ _ _ Hnd Hfind) as (Hby & _ & _).
  unfold trackShare, Post_findOne. rewrite Hfind.
  cbn [fst snd incrementShareCount track touch with_posts posts events].
  rewrite or0_id. split; [reflexivity|]. split; [|reflexivity].
  rewrite findById_updateOne_eq by reflexivity. rewrite Hby. reflexivity.
Qed.

Lemma trackShare_counts_witness :
  (trackShare 5000 (request_of bob "post-a") sample_db).1 = Replied 1 /\
  shareCount <$> findById "post-a" (posts (trackShare 5000 (request_of bob "post-a") sample_db).2)
  = Some 1.
Proof.
  destruct (trackShare_counts 5000 (request_of bob "post-a") sample_db alice_post
              ltac:(apply NoDup_singleton) eq_refl) as (Hreply & Hstored & _).
  split; [exact Hreply|].
  cbn [params_id request_of] in Hstored. rewrite Hstored. reflexivity.
Defined.

(** X19. [getPostById] counts a view once.  For a post that is found,
    the answer is the post as it was read, with the view count from before
    this view; the stored [viewCount] goes up by exactly 1 and one 'view'
    event is appended to the log. *)
Theorem getPostById_counts (now : Z) (req : Request) (db : Db) (post : Post) :
  NoDup (_id <$> posts db) ->
  findOne (likeQuery (params_id req)) (posts db) = Some post ->
  let out := getPostById now req db in
  (exists populated, out.1 = Replied populated /\ doc populated = post) /\
  findById (params_id req) (posts out.2)
  = Some (set_viewCount (viewCount post + 1) post) /\
  events out.2
  = events db ++ [{| ev_userId := user_id (req_user req); ev_postId := params_id req;
                     eventType := ev_view; ev_createdAt := now |}].
Proof.
  intros Hnd Hfind. cbv zeta.
  destruct (findOne_likeQuery_Some _ _ _ Hnd Hfind) as (Hby & Hid & _).
  unfold getPostById, Post_findOne. rewrite Hfind.
  cbn [fst snd incrementViewCount track touch with_posts posts events].
  rewrite Hid. split; [eexists; split; reflexivity|]. split; [|reflexivity].
  rewrite findById_updateOne_eq by reflexivity. rewrite Hby. reflexivity.
Qed.

Lemma getPostById_counts_witness :
  viewCount <$> findById "post-a" (posts (getPostById 5000 (request_of bob "post-a") sample_db).2)
  = Some 1.
Proof.
  destruct (getPostById_counts 5000 (request_of bob "post-a") sample_db alice_post
              ltac:(apply NoDup_singleton) eq_refl) as (_ & Hstored & _).
  cbn [params_id request_of] in Hstored. rewrite Hstored. reflexivity.
Defined.




Lemma byDate_false (a b : Post) : byDate b a = false <-> createdAt b <= createdAt a.
Proof. unfold byDate. rewrite Z.ltb_ge. reflexivity. Qed.

(** X21. Whose posts [getUserPosts] shows.  The list answered holds only
    posts of the requested user that are 'ready' and not soft-deleted,
    newest first.  A private post is in it only when the requester asks
    for their own profile, and a followers-only post only for the own
    profile or when the requester is among the followers of the requested
    user. *)
Theorem getUserPosts_visibility (req : Request) (db : Db) :
  exists shown,
    (getUserPosts req db).1 = Replied shown /\
    StronglySorted dateDescending shown /\
    forall fp, fp ∈ shown ->
      doc fp ∈ posts db /\ user (doc fp) = params_id req /\
      isDeleted (doc fp) = false /\ status (doc fp) = ready /\
      (visibility (doc fp) = private -> params_id req = user_id (req_user req)) /\
      (visibility (doc fp) = followers_only ->
       params_id req = user_id (req_user req) \/
       exists target, findUser (params_id req) (users db) = Some target /\
                      user_id (req_user req) ∈ followers target).
Proof.
  unfold getUserPosts, User_findById. cbv zeta.
  set (own := bool_decide (params_id req = user_id (req_user req))).
  set (st := if own then (false, db) else _).
  destruct st as [isFollowing db1] eqn:Hst.
  eexists. split; [reflexivity|]. split.
  - apply (StronglySorted_populate (fun a b => createdAt b <= createdAt a)).
    eapply StronglySorted_weaken;
      [|apply (sortRanked_sorted byDate)].
    + intros a b H. apply byDate_false in H. exact H.
    + intros a b H. unfold byDate in *. apply Z.ltb_lt in H. apply Z.ltb_ge. lia.
    + intros a b c. rewrite !byDate_false. lia.
  - intros fp Hin. apply list_elem_of_fmap in Hin as (p & -> & Hp).
    rewrite sortRanked_perm in Hp. apply list_elem_of_filter in Hp as [Hq Hp].
    cbn [doc populate].
    apply andb_prop in Hq as [Hq Hvis]. apply andb_prop in Hq as [Hq Hs].
    apply andb_prop in Hq as [Hu Hd].
    apply bool_decide_eq_true in Hu, Hs. apply negb_true_iff in Hd.
    split; [exact Hp|]. split; [exact Hu|]. split; [exact Hd|]. split; [exact Hs|].
    unfold visibleTo in Hvis. subst st own.
    destruct (bool_decide (params_id req = user_id (req_user req))) eqn:Hown.
    + apply bool_decide_eq_true in Hown. auto.
    + injection Hst as <- <-.
      destruct (findUser (params_id req) (users db)) as [t|] eqn:Ht.
      * destruct (bool_decide (user_id (req_user req) ∈ followers t)) eqn:Hfol.
        -- apply bool_decide_eq_true in Hfol.
           apply orb_true_iff in Hvis as [Hv|Hv]; apply bool_decide_eq_true in Hv;
             rewrite Hv; (split; [discriminate|]); intros; try discriminate.
           right. exists t. auto.
        -- apply bool_decide_eq_true in Hvis. rewrite Hvis.
           split; discriminate.
      * apply bool_decide_eq_true in Hvis. rewrite Hvis. split; discriminate.
Qed.

(** ** More on the publisher *)

(** Whatever happens in the loop, the posts it has saved are a prefix of
    the due posts. *)
Lemma publishAll_saved (rejects : list Notification -> InsertOutcome) (dbu : Db)
    (due : list Post) (db0 : Db) :
  exists done rest,
    due = done ++ rest /\
    posts (publishAll rejects (withAuthor dbu <$> due) db0).2
    = markReady done (posts db0).
Proof.
  revert db0. induction due as [|q due IH]; intros db0.
  - exists [], []. split; reflexivity.
  - rewrite fmap_cons. cbn [publishAll withAuthor due_doc due_author].
    destruct (findUser (user q) (users dbu)) as [a|].
    + destruct (followers a) as [|f fs] eqn:Hf.
      * destruct (IH (save_status (set_status ready q) db0)) as (done & rest & -> & Hposts).
        exists (q :: done), rest. split; [reflexivity|]. rewrite Hposts. reflexivity.
      * destruct (rejects _) as [|written].
        -- destruct (IH (insertMany (fanOut a (set_status ready q))
                           (save_status (set_status ready q) db0)))
             as (done & rest & -> & Hposts).
           exists (q :: done), rest. split; [reflexivity|]. rewrite Hposts. reflexivity.
        -- exists [q], due. split; reflexivity.
    + exists [q], due. split; reflexivity.
Qed.

Lemma isDue_scheduled (now : Z) (p : Post) : isDue now p = true -> status p = scheduled.
Proof.
  unfold isDue. intros H. apply andb_prop in H as [H _].
  apply bool_decide_eq_true in H. exact H.
Qed.

Lemma isDue_ready (now : Z) (p : Post) : status p = ready -> isDue now p = false.
Proof. unfold isDue. intros ->. reflexivity. Qed.

Lemma markReady_ids (done docs : list Post) :
  _id <$> markReady done docs = _id <$> docs.
Proof.
  revert docs. induction done as [|q done IH]; intros docs; [reflexivity|].
  rewrite markReady_cons, IH. apply updateOne_ids. intros p. apply savedStatus_id.
Qed.

Lemma not_due_kept (rejects : list Notification -> InsertOutcome) (now : Z)
    (db : Db) (q : Post) :
  NoDup (_id <$> posts db) -> q ∈ posts db -> isDue now q = false ->
  findById (_id q) (posts (publishScheduledPosts rejects now db)) = Some q.
Proof.
  intros Hnd Hin Hnot. unfold publishScheduledPosts.
  set (due := filter (fun p => isDue now p = true) (posts db)).
  destruct (publishAll_saved rejects db due (touch UsersC (touch PostsC db)))
    as (done & rest & Hsplit & Hposts).
  rewrite Hposts. cbn [posts touch].
  rewrite findById_markReady_other; [apply findById_elem; assumption|].
  intros Hmem. apply list_elem_of_fmap in Hmem as (p & Hid & Hp).
  assert (Hdue : p ∈ due) by (rewrite Hsplit; apply elem_of_app; left; exact Hp).
  apply list_elem_of_filter in Hdue as [Hdue Hp'].
  assert (q = p) by (apply (ids_determine (posts db)); assumption).
  subst p. congruence.
Qed.

(** X22. What a publisher tick leaves alone.  Whether or not the tick
    runs into a failure, a post that is not due (not 'scheduled', without
    a date, or scheduled for later) is stored afterwards exactly as it was
    before, and the collection holds the same ids in the same order. *)
Theorem publishScheduledPosts_frame (rejects : list Notification -> InsertOutcome)
    (now : Z) (db : Db) (q : Post) :
  NoDup (_id <$> posts db) -> q ∈ posts db -> isDue now q = false ->
  let db' := publishScheduledPosts rejects now db in
  findById (_id q) (posts db') = Some q /\ _id <$> posts db' = _id <$> posts db.
Proof.
  intros Hnd Hin Hnot. cbv zeta. split; [apply not_due_kept; assumption|].
  unfold publishScheduledPosts.
  destruct (publishAll_saved rejects db
              (filter (fun p => isDue now p = true) (posts db))
              (touch UsersC (touch PostsC db))) as (done & rest & _ & Hposts).
  rewrite Hposts. apply markReady_ids.
Qed.

Lemma publishScheduledPosts_frame_witness :
  findById "post-a"
    (posts (publishScheduledPosts rejectsAlice 60000
              {| posts := [scheduled_a; alice_post]; users := [alice; bob; carol];
                 notifications := []; events := []; oplog := [] |}))
  = Some alice_post.
Proof.
  refine (proj1 (publishScheduledPosts_frame rejectsAlice 60000
           {| posts := [scheduled_a; alice_post]; users := [alice; bob; carol];
              notifications := []; events := []; oplog := [] |} alice_post _ _ _)).
  - apply NoDup_cons. split; [|apply NoDup_singleton].
    intros Hin. apply list_elem_of_singleton in Hin. discriminate.
  - apply list_elem_of_further, list_elem_of_here.
  - reflexivity.
Defined.

Lemma filter_nothing {A} (P : A -> Prop) `{forall x, Decision (P x)} (l : list A) :
  (forall x, x ∈ l -> ~ P x) -> filter P l = [].
Proof.
  induction l as [|x l IH]; intros Hnone; [reflexivity|].
  rewrite filter_cons_False by (apply Hnone, list_elem_of_here).
  apply IH. intros y Hy. apply Hnone, list_elem_of_further, Hy.
Qed.

Lemma publishAll_nothing_due (rejects : list Notification -> InsertOutcome)
    (now : Z) (db : Db) :
  filter (fun p => isDue now p = true) (posts db) = [] ->
  posts (publishScheduledPosts rejects now db) = posts db /\
  notifications (publishScheduledPosts rejects now db) = notifications db.
Proof.
  intros Hnone. unfold publishScheduledPosts. rewrite Hnone. split; reflexivity.
Qed.

(** X23. The publisher does not notify twice.  After a tick in which
    every due post went through, a further tick at the same or an earlier
    clock reading finds nothing due: it changes no post and enqueues no
    notification, whatever the inserts would do. *)
Theorem publishScheduledPosts_once (rejects rejects' : list Notification -> InsertOutcome)
    (now now' : Z) (db : Db) :
  NoDup (_id <$> posts db) ->
  (forall q, q ∈ filter (fun p => isDue now p = true) (posts db) ->
     fanOutSucceeds rejects db q = true) ->
  now' <= now ->
  let db1 := publishScheduledPosts rejects now db in
  posts (publishScheduledPosts rejects' now' db1) = posts db1 /\
  notifications (publishScheduledPosts rejects' now' db1) = notifications db1.
Proof.
  intros Hnd Hok Hle. cbv zeta. apply publishAll_nothing_due.
  set (due := filter (fun p => isDue now p = true) (posts db)) in *.
  assert (Hposts : posts (publishScheduledPosts rejects now db)
                   = markReady due (posts db)).
  { unfold publishScheduledPosts. fold due.
    destruct (publishAll_prefix rejects db due [] (touch UsersC (touch PostsC db)) Hok)
      as (db1 & Hrun & Hposts & _).
    rewrite app_nil_r in Hrun. rewrite Hrun. exact Hposts. }
  rewrite Hposts.
  assert (Hnd1 : NoDup (_id <$> markReady due (posts db)))
    by (rewrite markReady_ids; exact Hnd).
  apply filter_nothing. intros b Hb Hdue'.
  pose proof (findById_elem _ b Hnd1 Hb) as Hfb.
  destruct (decide (_id b ∈ _id <$> due)) as [Hmem|Hnot].
  - apply list_elem_of_fmap in Hmem as (a & Hid & Ha).
    assert (Ha' : a ∈ posts db) by (apply list_elem_of_filter in Ha; tauto).
    destruct (findById_markReady_in a due (posts db) a Ha
                (findById_elem _ a Hnd Ha')) as (x & Hx & Hready).
    rewrite <- Hid, Hfb in Hx. injection Hx as <-.
    rewrite (isDue_ready now' b Hready) in Hdue'. discriminate.
  - rewrite findById_markReady_other in Hfb by exact Hnot.
    assert (Hb' : b ∈ posts db).
    { clear -Hfb. induction (posts db) as [|p docs IH]; [discriminate|].
      cbn [findById] in Hfb. destruct (decide (_id p = _id b)).
      - injection Hfb as ->. apply list_elem_of_here.
      - apply list_elem_of_further, IH, Hfb. }
    assert (Hdue : isDue now b = true).
    { unfold isDue in *. apply andb_prop in Hdue' as [Hs Ht]. rewrite Hs.
      destruct (scheduledFor b) as [t|]; [|discriminate].
      apply Z.leb_le in Ht. apply Z.leb_le. lia. }
    apply Hnot, list_elem_of_fmap. exists b. split; [reflexivity|].
    apply list_elem_of_filter. split; assumption.
Qed.

Lemma publishScheduledPosts_once_witness :
  let db1 := publishScheduledPosts neverRejects 60000 scheduler_db in
  notifications (publishScheduledPosts neverRejects 60000 db1) = notifications db1.
Proof.
  refine (proj2 (publishScheduledPosts_once neverRejects neverRejects 60000 60000
           scheduler_db _ _ _)).
  - apply NoDup_cons. split; [|apply NoDup_singleton].
    intros Hin. apply list_elem_of_singleton in Hin. discriminate.
  - intros q Hin. apply list_elem_of_filter in Hin as [_ Hin].
    apply elem_of_cons in Hin as [->|Hin]; [reflexivity|].
    apply list_elem_of_singleton in Hin as ->. reflexivity.
  - lia.
Defined.

(** X24. A failed fan-out is not retried.  When the loop body throws for
    a due post, that post has already been stored as 'ready': at no later
    clock reading is it among the due posts again, so no later tick sends
    the notifications that were not written. *)
Theorem publishScheduledPosts_not_retried
    (rejects : list Notification -> InsertOutcome) (now now' : Z) (db : Db)
    (pre rest : list Post) (p : Post) :
  NoDup (_id <$> posts db) ->
  filter (fun q => isDue now q = true) (posts db) = pre ++ p :: rest ->
  (forall q, q ∈ pre -> fanOutSucceeds rejects db q = true) ->
  fanOutSucceeds rejects db p = false ->
  let db' := publishScheduledPosts rejects now db in
  forall q, q ∈ filter (fun q => isDue now' q = true) (posts db') -> _id q <> _id p.
Proof.
  intros Hnd Hsplit Hok Hfail. cbv zeta. intros q Hq Hid.
  apply list_elem_of_filter in Hq as [Hdue Hq].
  assert (Hposts : posts (publishScheduledPosts rejects now db)
                   = markReady (pre ++ [p]) (posts db)).
  { unfold publishScheduledPosts. rewrite Hsplit.
    destruct (publishAll_prefix rejects db pre (p :: rest)
                (touch UsersC (touch PostsC db)) Hok) as (db1 & Hrun & Hposts & _).
    rewrite Hrun.
    destruct (publishAll_failure rejects db p rest db1 Hfail) as (_ & Hposts' & _).
    rewrite Hposts', Hposts, <- markReady_app. reflexivity. }
  rewrite Hposts in Hq.
  assert (Hnd1 : NoDup (_id <$> markReady (pre ++ [p]) (posts db)))
    by (rewrite markReady_ids; exact Hnd).
  pose proof (findById_elem _ q Hnd1 Hq) as Hfq.
  assert (Hp : p ∈ posts db).
  { assert (Hin : p ∈ filter (fun q => isDue now q = true) (posts db))
      by (rewrite Hsplit; apply elem_of_app; right; apply list_elem_of_here).
    apply list_elem_of_filter in Hin. tauto. }
  destruct (findById_markReady_in p (pre ++ [p]) (posts db) p
              ltac:(apply elem_of_app; right; apply list_elem_of_here)
              (findById_elem _ p Hnd Hp)) as (x & Hx & Hready).
  rewrite <- Hid, Hfq in Hx. injection Hx as <-.
  rewrite (isDue_ready now' q Hready) in Hdue. discriminate.
Qed.

Lemma publishScheduledPosts_not_retried_witness :
  Forall (fun q => _id q <> "sched-a")
    (filter (fun q => isDue 120000 q = true)
       (posts (publishScheduledPosts rejectsAlice 60000 scheduler_db))).
Proof.
  apply Forall_forall.
  apply (publishScheduledPosts_not_retried rejectsAlice 60000 120000 scheduler_db
           [] [scheduled_c] scheduled_a).
  - apply NoDup_cons. split; [|apply NoDup_singleton].
    intros Hin. apply list_elem_of_singleton in Hin. discriminate.
  - reflexivity.
  - intros q Hin. inversion Hin.
  - reflexivity.
Defined.

(** ** More on [createPost] and the post model *)

Lemma preSave_keeps (p : Post) :
  _id (preSave p) = _id p /\ status (preSave p) = status p /\
  scheduledFor (preSave p) = scheduledFor p.
Proof. unfold preSave. destruct (detectsReel p); auto. Qed.

Lemma createPost_created (now : Z) (newId : ObjectId) (u : User)
    (b : CreatePostBody) (db : Db) :
  statusCode (createPost now newId u b db).1 = 200 ->
  exists post,
    posts (createPost now newId u b db).2 = posts db ++ [post] /\
    _id post = newId /\
    scheduledFor post = dateOrNull (body_scheduledFor b) /\
    status post = if truthyDate (body_scheduledFor b) then scheduled else ready.
Proof.
  unfold createPost. cbv zeta.
  destruct (length (buildMediaArray b) =? 0)%nat; [discriminate|].
  destruct (10 <? length (buildMediaArray b))%nat; [discriminate|].
  destruct (newPost _ _ _ _ _ _ _) as [post|] eqn:Hnew; [|discriminate].
  intros _. exists post. split; [reflexivity|].
  destruct (newPost_fields _ _ _ _ _ _ _ _ Hnew) as (Hid & _ & Hst & Hsf & _).
  auto.
Qed.

Lemma findById_last (docs : list Post) (post : Post) :
  _id post ∉ _id <$> docs -> findById (_id post) (docs ++ [post]) = Some post.
Proof.
  induction docs as [|p docs IH]; intros Hfresh.
  - cbn. rewrite decide_True by reflexivity. reflexivity.
  - rewrite fmap_cons in Hfresh. apply not_elem_of_cons in Hfresh as [Hne Hfresh].
    cbn [app findById]. rewrite decide_False by congruence. exact (IH Hfresh).
Qed.

(** X25. From scheduling to publishing.  A post created with a truthy
    [scheduledFor] (a timestamp other than 0) is stored as 'scheduled' and
    no explore query matches it.  A publisher tick whose clock reading is before the date
    leaves it as it is; a tick at or after the date in which the loop body
    goes through for the due posts stores it as 'ready'. *)
Theorem createPost_then_publish (now0 : Z) (newId : ObjectId) (u : User)
    (b : CreatePostBody) (db : Db) (t : Z) :
  NoDup (_id <$> posts db) -> newId ∉ _id <$> posts db ->
  body_scheduledFor b = Some t -> t <> 0 ->
  statusCode (createPost now0 newId u b db).1 = 200 ->
  let db1 := (createPost now0 newId u b db).2 in
  exists post,
    findById newId (posts db1) = Some post /\
    status post = scheduled /\ exploreQuery post = false /\
    (forall rejects now, now < t ->
       findById newId (posts (publishScheduledPosts rejects now db1)) = Some post) /\
    (forall rejects now, t <= now ->
       (forall q, q ∈ filter (fun p => isDue now p = true) (posts db1) ->
          fanOutSucceeds rejects db1 q = true) ->
       exists post',
         findById newId (posts (publishScheduledPosts rejects now db1)) = Some post' /\
         status post' = ready).
Proof.
  intros Hnd Hfresh Hsched Ht Hok. cbv zeta.
  destruct (createPost_created now0 newId u b db Hok) as (post & Hposts & Hid & Hsf & Hst).
  rewrite Hsched in Hsf, Hst.
  assert (Htruthy : truthyDate (Some t) = true) by (destruct t; [congruence|reflexivity..]).
  unfold dateOrNull in Hsf. rewrite Htruthy in Hsf, Hst. subst newId.
  assert (Hnd1 : NoDup (_id <$> posts (createPost now0 (_id post) u b db).2)).
  { rewrite Hposts, fmap_app. apply NoDup_app. split; [exact Hnd|].
    split; [|apply NoDup_singleton].
    intros x Hx Hx'. apply list_elem_of_singleton in Hx'. subst x. exact (Hfresh Hx). }
  assert (Hin : post ∈ posts (createPost now0 (_id post) u b db).2).
  { rewrite Hposts. apply elem_of_app. right. apply list_elem_of_here. }
  exists post. split; [rewrite Hposts; apply findById_last, Hfresh|].
  split; [exact Hst|]. split.
  { unfold exploreQuery. rewrite Hst. rewrite andb_false_r. reflexivity. }
  split.
  - intros rejects now Hbefore. apply not_due_kept; [exact Hnd1|exact Hin|].
    unfold isDue. rewrite Hsf.
    replace (t <=? now) with false by (symmetry; apply Z.leb_gt; exact Hbefore).
    apply andb_false_r.
  - intros rejects now Hafter Hgo.
    set (db1 := (createPost now0 (_id post) u b db).2) in *.
    set (due := filter (fun p => isDue now p = true) (posts db1)) in *.
    assert (Hdue : post ∈ due).
    { apply list_elem_of_filter. split; [|exact Hin].
      unfold isDue. rewrite Hst, Hsf.
      rewrite bool_decide_eq_true_2 by reflexivity.
      apply Z.leb_le. exact Hafter. }
    unfold publishScheduledPosts. fold due.
    destruct (publishAll_prefix rejects db1 due [] (touch UsersC (touch PostsC db1)) Hgo)
      as (db2 & Hrun & Hposts2 & _).
    rewrite app_nil_r in Hrun. rewrite Hrun. cbn [publishAll fmap list_fmap snd].
    rewrite Hposts2. cbn [posts touch].
    apply (findById_markReady_in post due _ post Hdue).
    apply findById_elem; assumption.
Qed.

Lemma createPost_then_publish_witness :
  let b := {| body_media := Some [sample_image]; body_images := None;
              body_videos := None; body_image := None; body_visibility := None;
              body_scheduledFor := Some 59000 |} in
  let db1 := (createPost 1000 "post-s" bob b sample_db).2 in
  exists post,
    findById "post-s" (posts db1) = Some post /\ status post = scheduled /\
    findById "post-s" (posts (publishScheduledPosts neverRejects 30000 db1)) = Some post.
Proof.
  cbv zeta.
  destruct (createPost_then_publish 1000 "post-s" bob
              {| body_media := Some [sample_image]; body_images := None;
                 body_videos := None; body_image := None; body_visibility := None;
                 body_scheduledFor := Some 59000 |} sample_db 59000)
    as (post & Hfind & Hst & _ & Hbefore & _).
  - apply NoDup_singleton.
  - intros Hin. apply list_elem_of_singleton in Hin. discriminate.
  - reflexivity.
  - discriminate.
  - reflexivity.
  - exists post. split; [exact Hfind|]. split; [exact Hst|].
    apply Hbefore. lia.
Defined.

Lemma imap_fromImage_orders (n : nat) (images : list (option string)) :
  draft_order <$> imap (fun i => fromImage (n + i)) images
  = Z.of_nat <$> seq n (length images).
Proof.
  revert n. induction images as [|x images IH]; intros n; [reflexivity|].
  cbn [imap fmap list_fmap length seq]. rewrite Nat.add_0_r. f_equal.
  rewrite <- IH. f_equal. apply imap_ext. intros i y _. cbn.
  rewrite Nat.add_succ_r. reflexivity.
Qed.

Lemma pushVideos_orders (idx : nat) (videos : list VideoInput)
    (mediaArray : list MediaDraft) :
  draft_order <$> pushVideos idx videos mediaArray
  = (draft_order <$> mediaArray)
    ++ ((fun k => Z.of_nat (length mediaArray + idx + 2 * k))
          <$> seq 0 (length videos)).
Proof.
  revert idx mediaArray. induction videos as [|v videos IH]; intros idx mediaArray.
  - cbn. rewrite app_nil_r. reflexivity.
  - cbn [pushVideos length seq fmap list_fmap]. rewrite IH.
    rewrite fmap_app, <- app_assoc. cbn [fmap list_fmap app draft_order].
    f_equal. rewrite Nat.mul_0_r, Nat.add_0_r. f_equal.
    rewrite <- fmap_S_seq, <- list_fmap_compose.
    apply list_fmap_ext. intros i k _. cbn.
    rewrite length_app. cbn [length]. f_equal. lia.
Qed.

Lemma pushVideos_length (idx : nat) (videos : list VideoInput)
    (mediaArray : list MediaDraft) :
  length (pushVideos idx videos mediaArray)
  = (length mediaArray + length videos)%nat.
Proof.
  revert idx mediaArray. induction videos as [|v videos IH]; intros idx mediaArray.
  - cbn. lia.
  - cbn [pushVideos length]. rewrite IH, length_app. cbn [length]. lia.
Qed.

(** X26. Legacy bodies.  When the unified [media] array is missing or
    empty and [images] and [videos] are arrays, the media list has one item
    per image followed by one item per video, and a single [image] field
    is ignored.  The images get their index as [order]; the video at index
    k gets the order (number of images) + 2 * k, because the list has
    already grown by k videos when its length is read. *)
Theorem buildMediaArray_legacy (b : CreatePostBody)
    (images : list (option string)) (videos : list VideoInput) :
  match body_media b with Some (_ :: _) => False | _ => True end ->
  body_images b = Some images -> body_videos b = Some videos ->
  length (buildMediaArray b) = (length images + length videos)%nat /\
  draft_order <$> buildMediaArray b
  = (Z.of_nat <$> seq 0 (length images))
    ++ ((fun k => Z.of_nat (length images + 2 * k)) <$> seq 0 (length videos)).
Proof.
  intros Hmedia Himages Hvideos.
  assert (Hbuild : buildMediaArray b = pushVideos 0 videos (imap fromImage images)).
  { unfold buildMediaArray. rewrite Himages, Hvideos.
    destruct (body_media b) as [[|m ms]|]; [reflexivity|contradiction|reflexivity]. }
  rewrite Hbuild. split.
  - rewrite pushVideos_length, length_imap. reflexivity.
  - rewrite pushVideos_orders, length_imap.
    change (imap fromImage images) with (imap (fun i => fromImage (0 + i)) images).
    rewrite (imap_fromImage_orders 0 images). f_equal.
    apply list_fmap_ext. intros i k _. f_equal. lia.
Qed.

Lemma buildMediaArray_legacy_witness :
  let v := {| vin_url := Some "https://cdn/v.mp4"; vin_publicId := None;
              vin_duration := None; vin_thumbnail := None;
              vin_width := None; vin_height := None |} in
  draft_order <$> buildMediaArray (legacy_body [Some "a"; Some "b"] [v; v])
  = [0; 1; 2; 4].
Proof.
  cbv zeta.
  exact (proj2 (buildMediaArray_legacy
                  (legacy_body [Some "a"; Some "b"]
                     [{| vin_url := Some "https://cdn/v.mp4"; vin_publicId := None;
                         vin_duration := None; vin_thumbnail := None;
                         vin_width := None; vin_height := None |};
                      {| vin_url := Some "https://cdn/v.mp4"; vin_publicId := None;
                         vin_duration := None; vin_thumbnail := None;
                         vin_width := None; vin_height := None |}])
                  _ _ I eq_refl eq_refl)).
Defined.

(** X27. The reel bonus and the [avgCompletionRate] virtual agree: for a
    reel the completion term of the raw score is 5 times the post's
    [avgCompletionRate], for any other post it is 0; the rate itself is
    never negative and is 0 for a post without views. *)
Theorem completionTerm_avgCompletionRate (p : Post) :
  (completionTerm p == if isReel p then avgCompletionRate p * 5 else 0)%Q /\
  (0 <= avgCompletionRate p)%Q /\
  (viewCount p <= 0 -> avgCompletionRate p = 0%Q).
Proof.
  unfold completionTerm, avgCompletionRate, WEIGHTS.completion.
  split; [|split].
  - destruct (isReel p); cbn [andb]; [|reflexivity].
    destruct ((0 <? viewCount p) && Qgtb (completionSum p) 0); [|reflexivity].
    apply Qmult_comp; reflexivity.
  - destruct ((0 <? viewCount p) && Qgtb (completionSum p) 0) eqn:Hg; [|apply Qle_refl].
    apply andb_prop in Hg as [Hv Hc]. apply Z.ltb_lt in Hv. apply Qgtb_true in Hc.
    apply Qlt_le_weak, Qlt_shift_div_l.
    + change 0%Q with (inject_Z 0). rewrite <- Zlt_Qlt. exact Hv.
    + rewrite Qmult_0_l. exact Hc.
  - intros Hv. replace (0 <? viewCount p) with false
      by (symmetry; apply Z.ltb_ge; exact Hv).
    reflexivity.
Qed.
